(** * nlp_pipeline.py: a shallow embedding and its verified properties

    The development follows [src/nlp_pipeline.py] top to bottom: character
    classes and the string primitives the code uses, the two compiled
    regular expressions, the constant tables, then every function of the
    module, and finally the properties.

    Modelling conventions.
    - A Python [str] is a [list ascii]: a sequence of code points below 256.
      Character classes ([str.isspace], [\s], [\w], [\d], [str.lower],
      [str.upper]) are Python's, restricted to that range.
    - A [dict] is a [gmap]; a [set] is a [gset].
    - Console and file effects are threaded through an explicit [world];
      an uncaught exception ([input()] at end of input, an index out of
      range, a [TypeError]) is [None]. *)

From Stdlib Require Import Ascii String.
From stdpp Require Import gmap strings list pretty.

Local Open Scope list_scope.

(** ** Strings and character classes *)

Abbreviation str := (list ascii).

(** String literals of the source are written with [lit]. *)
Definition lit (s : string) : str := list_ascii_of_string s.

Definition code (c : ascii) : nat := nat_of_ascii c.

Definition in_range (lo hi : nat) (c : ascii) : bool :=
  (lo <=? code c) && (code c <=? hi).

(** [str.isspace] and the regex class [\s] agree on every code point; below
    256 they hold of TAB..CR, FS..US, SPACE, NEL and NBSP. *)
Definition is_space (c : ascii) : bool :=
  in_range 9 13 c || in_range 28 32 c || (code c =? 133) || (code c =? 160).

(** [[A-Z]], [[a-z]], [[A-Za-z]] and [\d] (which below 256 is [[0-9]]). *)
Definition is_AZ (c : ascii) : bool := in_range 65 90 c.
Definition is_az (c : ascii) : bool := in_range 97 122 c.
Definition is_letter (c : ascii) : bool := is_AZ c || is_az c.
Definition is_digit (c : ascii) : bool := in_range 48 57 c.

(** [\w] of a [str] pattern: alphanumeric in the Unicode sense, or [_]. *)
Definition is_word (c : ascii) : bool :=
  is_letter c || is_digit c || (code c =? 95)
  || (code c =? 170) || in_range 178 179 c || (code c =? 181)
  || in_range 185 186 c || in_range 188 190 c
  || in_range 192 214 c || in_range 216 246 c || in_range 248 255 c.

(** [str.lower], one code point at a time. *)
Definition lower_char (c : ascii) : ascii :=
  if is_AZ c || in_range 192 214 c || in_range 216 222 c
  then ascii_of_nat (code c + 32) else c.

(** [str.upper], one code point at a time.  The three code points whose
    upper case leaves the range (181, 223, 255) are kept as they are: their
    images are not ASCII letters either, and the code only compares the
    result with the ASCII labels of [VALID_POS], none of which contains
    a double S. *)
Definition upper_char (c : ascii) : ascii :=
  if is_az c || in_range 224 246 c || in_range 248 254 c
  then ascii_of_nat (code c - 32) else c.

Definition lower (s : str) : str := map lower_char s.
Definition upper (s : str) : str := map upper_char s.

(** [s.startswith(p)] and [s.endswith(p)]. *)
Fixpoint startswith (s p : str) : bool :=
  match p, s with
  | [], _ => true
  | _ :: _, [] => false
  | b :: p', a :: s' => bool_decide (a = b) && startswith s' p'
  end.

Definition endswith (s p : str) : bool := startswith (rev s) (rev p).

(** [s[:-n]] for a positive literal [n]. *)
Definition drop_last (n : nat) (s : str) : str := take (length s - n) s.

(** [s.strip()]: leading and trailing white space removed. *)
Fixpoint lstrip (s : str) : str :=
  match s with
  | c :: s' => if is_space c then lstrip s' else s
  | [] => []
  end.

Definition rstrip (s : str) : str := rev (lstrip (rev s)).
Definition strip (s : str) : str := rstrip (lstrip s).

(** [c in s] for a one-character string [c]. *)
Definition contains (c : ascii) (s : str) : bool := bool_decide (c ∈ s).

(** [s.split(c, 1)] when [c] occurs in [s]: the text before the first [c]
    and the text after it. *)
Fixpoint split_once (c : ascii) (s : str) : str * str :=
  match s with
  | [] => ([], [])
  | a :: s' =>
      if bool_decide (a = c) then ([], s')
      else let '(w, l) := split_once c s' in (a :: w, l)
  end.

(** ** Regular expressions

    A compiled pattern is modelled by its matcher: given the character
    before the current position (for a look-behind) and the text from the
    current position on, the length of the match the backtracking engine
    finds there, if any.  None of the module's patterns matches the empty
    string. *)

Definition regex := option ascii → str → option nat.

(** Length of the longest prefix of [s] made of characters in class [p]:
    what a greedy [p+] or [p*] consumes first. *)
Fixpoint run (p : ascii → bool) (s : str) : nat :=
  match s with
  | c :: s' => if p c then S (run p s') else 0
  | [] => 0
  end.

(** Backtracking of a greedy repetition: the largest [k] in [1..n] at which
    the rest of the pattern, [ok], succeeds. *)
Fixpoint backtrack (ok : nat → bool) (n : nat) : option nat :=
  match n with
  | 0 => None
  | S n' => if ok n then Some n else backtrack ok n'
  end.

Definition head_in (p : ascii → bool) (s : str) : bool :=
  match s with c :: _ => p c | [] => false end.

(** [\s+] *)
Definition RE_SPACES : regex := λ _ s, backtrack (λ _, true) (run is_space s).

(** The classes of [SENT_SPLIT_RE]: [.!?] behind, and ahead a capital, a
    digit, a double quote (code 34) or an apostrophe. *)
Definition is_sentence_end (c : ascii) : bool :=
  bool_decide (c ∈ lit ".!?").
Definition is_sentence_start (c : ascii) : bool :=
  is_AZ c || is_digit c || bool_decide (c = "034"%char)
  || bool_decide (c = "'"%char).

(** [SENT_SPLIT_RE]: look-behind, [\s+], look-ahead. *)
Definition SENT_SPLIT_RE : regex := λ prev s,
  match prev with
  | Some p =>
      if is_sentence_end p
      then backtrack (λ k, head_in is_sentence_start (drop k s))
                     (run is_space s)
      else None
  | None => None
  end.

(** [p+(?:sep p+)?]: a greedy run of [p], then, if it is there, one [sep]
    followed by another non-empty run of [p].  Nothing follows the optional
    group, so the first (longest) attempt is the match. *)
Definition run_opt_run (p : ascii → bool) (sep : ascii) (s : str)
  : option nat :=
  let n := run p s in
  if n =? 0 then None
  else match drop n s with
       | c :: t =>
           if bool_decide (c = sep) && negb (run p t =? 0)
           then Some (n + 1 + run p t) else Some n
       | [] => Some n
       end.

(** [[A-Za-z]+(?:'[A-Za-z]+)?] and [\d+(?:\.\d+)?] *)
Definition RE_WORD : regex := λ _ s, run_opt_run is_letter "'"%char s.
Definition RE_NUMBER : regex := λ _ s, run_opt_run is_digit "."%char s.

(** [[^\s]], [[^\w\s]] and [[A-Za-z]+] *)
Definition RE_NONSPACE : regex := λ _ s,
  if head_in (λ c, negb (is_space c)) s then Some 1 else None.
Definition RE_PUNCT : regex := λ _ s,
  if head_in (λ c, negb (is_word c) && negb (is_space c)) s
  then Some 1 else None.
Definition RE_ALPHA : regex := λ _ s, backtrack (λ _, true) (run is_letter s).

(** [r1|r2]: the first alternative that matches wins. *)
Definition alt (r1 r2 : regex) : regex := λ prev s,
  match r1 prev s with Some n => Some n | None => r2 prev s end.

(** [TOKEN_RE = [A-Za-z]+(?:'[A-Za-z]+)?|\d+(?:\.\d+)?|[^\s]] *)
Definition TOKEN_RE : regex := alt RE_WORD (alt RE_NUMBER RE_NONSPACE).

(** The left-to-right scan behind [findall], [split] and [sub]: at each
    position outside a match the pattern is tried; a match of length [S k]
    is recorded and its remaining [k] characters are skipped. *)
Inductive item := Unmatched (c : ascii) | Matched (m : str).

Fixpoint scan (re : regex) (skip : nat) (prev : option ascii) (s : str)
  : list item :=
  match s with
  | [] => []
  | c :: rest =>
      match skip with
      | S k => scan re k (Some c) rest
      | 0 =>
          match re prev s with
          | Some (S k) => Matched (take (S k) s) :: scan re k (Some c) rest
          | _ => Unmatched c :: scan re 0 (Some c) rest
          end
      end
  end.

(** [re.findall(s)] for a pattern without capturing groups. *)
Definition findall (re : regex) (s : str) : list str :=
  omap (λ i, match i with Matched m => Some m | Unmatched _ => None end)
       (scan re 0 None s).

(** [re.sub(repl, s)] *)
Definition re_sub (re : regex) (repl : str) (s : str) : str :=
  flat_map (λ i, match i with Matched _ => repl | Unmatched c => [c] end)
           (scan re 0 None s).

(** [re.split(s)]: the text between the matches. *)
Fixpoint pieces (l : list item) : list str :=
  match l with
  | [] => [[]]
  | Unmatched c :: l' =>
      match pieces l' with
      | p :: ps => (c :: p) :: ps
      | [] => [[c]]
      end
  | Matched _ :: l' => [] :: pieces l'
  end.

Definition re_split (re : regex) (s : str) : list str :=
  pieces (scan re 0 None s).

(** [re.fullmatch(s)].  For the patterns it is used with here, the greedy
    match from the start is the only one that can reach the end of [s]. *)
Definition fullmatch (re : regex) (s : str) : bool :=
  match re None s with
  | Some n => n =? length s
  | None => false
  end.

(** ** Constant tables *)

Definition DEFAULT_STOPWORDS : gset str := list_to_set (lit <$> [
  "a";"an";"the";"and";"or";"but";"if";"then";"else";"for";"to";"of";"in";
  "on";"at";"by";"with";"as";"is";"are";"was";"were";"be";"been";"being";
  "this";"that";"these";"those";"it";"its";"they";"their";"we";"our";"you";
  "your";"i";"me";"my";"he";"she";"him";"her";"them";"from";"can";"could";
  "may";"might";"will";"would";"should";"do";"does";"did";"not";"so";"many";
  "often";"each";"after";"before";"still"]%string).

Definition entry (kv : string * string) : str * str :=
  (lit kv.1, lit kv.2).

Definition FALLBACK_LEMMA_DICT : gmap str str := list_to_map (entry <$> [
  ("helps","help");("computers","computer");("apps","app");
  ("results","result");("students","student");("sentences","sentence");
  ("words","word");("parts","part");("processing","process");
  ("systems","system");("documents","document");("questions","question");
  ("starts","start");("assigns","assign");("reduces","reduce");
  ("affects","affect");("includes","include");("meanings","meaning");
  ("running","run")]%string).

Definition VALID_POS : list str := lit <$> [
  "NOUN";"VERB";"ADJ";"ADV";"PRON";"DET";"ADP";"CONJ";"NUM";"PUNCT";
  "OTHER"]%string.

Definition COMMON_DET : gset str := list_to_set (lit <$> [
  "a";"an";"the";"this";"that";"these";"those"]%string).
Definition COMMON_ADP : gset str := list_to_set (lit <$> [
  "in";"on";"at";"by";"with";"for";"to";"of";"from";"as"]%string).
Definition COMMON_CONJ : gset str := list_to_set (lit <$> [
  "and";"or";"but"]%string).
Definition COMMON_PRON : gset str := list_to_set (lit <$> [
  "i";"me";"my";"you";"your";"he";"him";"her";"she";"it";"its";"we";"our";
  "they";"them";"their"]%string).

(** ** The pipeline stages *)

Definition sentence_segment (text : str) : list str :=
  let text := re_sub RE_SPACES (lit " ") (strip text) in
  if bool_decide (text = []) then [] else re_split SENT_SPLIT_RE text.

Definition tokenize (sentence : str) : list str :=
  findall TOKEN_RE sentence.

(** [load_lemma_dict], on the lines the opened file yields. *)
Fixpoint load_lines (lemma : gmap str str) (lines : list str)
  : gmap str str :=
  match lines with
  | [] => lemma
  | line :: rest =>
      let line := strip line in
      if bool_decide (line = []) || startswith line (lit "#")
      then load_lines lemma rest
      else if contains "009"%char line then
        let '(w, l) := split_once "009"%char line in
        load_lines (<[lower w := lower l]> lemma) rest
      else if contains " "%char line then
        let '(w, l) := split_once " "%char line in
        load_lines (<[lower w := lower l]> lemma) rest
      else load_lines lemma rest
  end.

Definition load_lemma_dict (lines : list str) : gmap str str :=
  load_lines ∅ lines.

Definition lemmatize_token (tok : str) (lemma_dict : gmap str str) : str :=
  let key := lower tok in
  match lemma_dict !! key with
  | Some l => l
  | None =>
  match FALLBACK_LEMMA_DICT !! key with
  | Some l => l
  | None =>
      if fullmatch RE_ALPHA tok then
        if endswith key (lit "ies") && (3 <? length key)
        then drop_last 3 key ++ lit "y"
        else if endswith key (lit "ing") && (5 <? length key)
        then drop_last 3 key
        else if endswith key (lit "ed") && (4 <? length key)
        then drop_last 2 key
        else if endswith key (lit "s") && (3 <? length key)
                && negb (endswith key (lit "ss"))
        then drop_last 1 key
        else key
      else key
  end end.

Definition is_stopword (tok : str) : bool :=
  bool_decide (lower tok ∈ DEFAULT_STOPWORDS).

Definition heuristic_pos (tok : str) : str :=
  let t := lower tok in
  if fullmatch RE_PUNCT tok then lit "PUNCT"
  else if fullmatch RE_NUMBER tok then lit "NUM"
  else if bool_decide (t ∈ COMMON_DET) then lit "DET"
  else if bool_decide (t ∈ COMMON_ADP) then lit "ADP"
  else if bool_decide (t ∈ COMMON_CONJ) then lit "CONJ"
  else if bool_decide (t ∈ COMMON_PRON) then lit "PRON"
  else if endswith t (lit "ly") then lit "ADV"
  else if existsb (endswith t)
            (lit <$> ["ous";"ful";"able";"ible";"al";"ive";"ic";"y"]%string)
          && (3 <? length t)
  then lit "ADJ"
  else if existsb (endswith t) (lit <$> ["ing";"ed"]%string) then lit "VERB"
  else if fullmatch RE_WORD tok then lit "NOUN"
  else lit "OTHER".

(** ** The world: files, console input, and a log of what was done

    What [json.loads] makes of a file decides what [manual_pos_tag] does
    with it, so a file is modelled by that:
    - [Json d]: a JSON object whose values are strings, the dictionary [d]
      for [json.loads]; this is what [json.dumps] writes for a cache;
    - [Other v]: a JSON document that is not an object (null, a boolean,
      a number, a string or an array), which [json.loads] returns as it
      is;
    - [Raw text]: text that is not a JSON document, on which [json.loads]
      raises.
    A JSON object with a value that is not a string, which the code would
    hand on as a tag, is outside the model. *)

#[local] Unset Elimination Schemes.
Inductive json :=
  | JNull
  | JBool (b : bool)
  | JNumber (n : str)
  | JString (s : str)
  | JArray (items : list json)
  | JObject (members : list (str * json)).
#[local] Set Elimination Schemes.

(** The JSON values that are not objects. *)
Inductive non_object :=
  | ONull
  | OBool (b : bool)
  | ONumber (n : str)
  | OString (s : str)
  | OArray (items : list json).

Inductive file :=
  | Json (d : gmap str str)
  | Other (v : non_object)
  | Raw (text : str).

(** The value [stored] holds in [manual_pos_tag]: a dictionary, or what
    [json.loads] returned for a document that is not an object. *)
Inductive store :=
  | Dict (d : gmap str str)
  | NonDict (v : non_object).

Inductive event :=
  | Loaded (path : str)
  | Prompted (tok : str) (reply : str)
  | Wrote (path : str) (content : file).

Record world := World {
  files : gmap str file;
  stdin : list str;
  events : list event
}.

Definition IO (A : Type) : Type := world → option (A * world).

Definition ret {A} (a : A) : IO A := λ w, Some (a, w).

Definition bind {A B} (m : IO A) (k : A → IO B) : IO B := λ w,
  match m w with
  | Some (a, w') => k a w'
  | None => None
  end.

Notation "x <~ m ;; k" := (bind m (λ x, k))
  (at level 100, m at next level, right associativity).

Definition log (e : event) : IO unit := λ w,
  Some (tt, World (files w) (stdin w) (events w ++ [e])).

(** [path.exists()] *)
Definition path_exists (path : str) : IO bool := λ w,
  Some (bool_decide (is_Some (files w !! path)), w).

(** [json.loads(path.read_text())]; [None] when either raises. *)
Definition read_json (path : str) : IO (option store) := λ w,
  match files w !! path with
  | Some (Json d) => Some (Some (Dict d), w)
  | Some (Other v) => Some (Some (NonDict v), w)
  | _ => Some (None, w)
  end.

(** An exception that nothing catches. *)
Definition raise {A} : IO A := λ _, None.

(** [path.write_text(...)] *)
Definition write_file (path : str) (content : file) : IO unit := λ w,
  Some (tt, World (<[path := content]> (files w)) (stdin w)
                  (events w ++ [Wrote path content])).

(** [input(...)]: the next line of console input, [EOFError] if none. *)
Definition input : IO str := λ w,
  match stdin w with
  | line :: rest => Some (line, World (files w) rest (events w))
  | [] => None
  end.

(** ** Manual tagging *)

Definition tagged : Type := str * str * str.

(** Lines 138-140: the two [print]s and the [input], logged as one event. *)
Definition prompt (tok : str) : IO str :=
  line <~ input ;;
  _ <~ log (Prompted tok line) ;;
  ret line.

(** The [for tok in tokens] loop of [manual_pos_tag] (lines 128-144) when
    [stored] is a dictionary. *)
Fixpoint tag_loop (tokens : list str) (stored : gmap str str)
    (out : list tagged) : IO (gmap str str * list tagged) :=
  match tokens with
  | [] => ret (stored, out)
  | tok :: rest =>
      let key := lower tok in
      match stored !! key with
      | Some tag => tag_loop rest stored (out ++ [(tok, tag, lit "manual(cache)")])
      | None =>
          if fullmatch RE_PUNCT tok then
            tag_loop rest (<[key := lit "PUNCT"]> stored)
                     (out ++ [(tok, lit "PUNCT", lit "manual(auto-punct)")])
          else
            line <~ prompt tok ;;
            let choice := upper (strip line) in
            let choice :=
              if bool_decide (choice ∈ VALID_POS) then choice
              else lit "OTHER" in
            tag_loop rest (<[key := choice]> stored)
                     (out ++ [(tok, choice, lit "manual")])
      end
  end.

(** Lines 120-125. *)
Definition load_store (storage_path : str) : IO store :=
  ex <~ path_exists storage_path ;;
  if ex : bool then
    _ <~ log (Loaded storage_path) ;;
    r <~ read_json storage_path ;;
    ret (default (Dict ∅) r)
  else ret (Dict ∅).

(** Lines 127-147.  With a dictionary the loop is [tag_loop].  With a
    value that is not a dictionary the first token raises [TypeError]: on
    null, a boolean or a number at [key in stored] (line 130); on a string
    or an array, where [in] is a substring or membership test, at
    [stored[key]] (line 131) or at one of the assignments [stored[key] =
    ...] (lines 134 and 143, the latter after the prompt).  With no token
    the loop body never runs and the value is written back as it is. *)
Definition manual_pos_tag (tokens : list str) (storage_path : str)
  : IO (list tagged) :=
  stored <~ load_store storage_path ;;
  match stored with
  | Dict d =>
      r <~ tag_loop tokens d [] ;;
      _ <~ write_file storage_path (Json r.1) ;;
      ret r.2
  | NonDict v =>
      match tokens with
      | [] => _ <~ write_file storage_path (Other v) ;; ret []
      | _ :: _ => raise
      end
  end.

(** ** The orchestrator and the report writer *)

Record row := Row {
  row_sid : nat;
  row_sent : str;
  row_tok : str;
  row_pos : str;
  row_src : str;
  row_lemma : str;
  row_removed : bool
}.

Definition make_row (si : nat) (sent : str) (lemma_dict : gmap str str)
    (t : tagged) : row :=
  let '(tok, pos, pos_src) := t in
  let lemma := lemmatize_token tok lemma_dict in
  let removed := is_stopword tok || bool_decide (pos = lit "PUNCT") in
  Row si sent tok pos pos_src lemma removed.

(** The [for si, sent in enumerate(..., start=1)] loop of [run_pipeline]. *)
Fixpoint run_sentences (si : nat) (sents : list str)
    (lemma_dict : gmap str str) (pos_mode manual_store : str)
  : IO (list (list row)) :=
  match sents with
  | [] => ret []
  | sent :: rest =>
      let tokens := tokenize sent in
      tagged <~ (if bool_decide (pos_mode = lit "manual")
                 then manual_pos_tag tokens manual_store
                 else ret ((λ t, (t, heuristic_pos t, lit "heuristic"))
                           <$> tokens)) ;;
      let sent_rows := make_row si sent lemma_dict <$> tagged in
      results <~ run_sentences (S si) rest lemma_dict pos_mode manual_store ;;
      ret (sent_rows :: results)
  end.

Definition run_pipeline (text : str) (lemma_dict : gmap str str)
    (pos_mode manual_store : str) : IO (list (list row)) :=
  run_sentences 1 (sentence_segment text) lemma_dict pos_mode manual_store.

Definition show_bool (b : bool) : str :=
  if b then lit "True" else lit "False".

Definition tab : str := ["009"%char].

(** The lines [write_tsv] collects; [sent_rows[0]] raises on an empty
    list. *)
Fixpoint tsv_lines (results : list (list row)) : option (list str) :=
  match results with
  | [] => Some []
  | sent_rows :: rest =>
      match sent_rows with
      | [] => None
      | first :: _ =>
          let sid := row_sid first in
          let sent := row_sent first in
          match tsv_lines rest with
          | None => None
          | Some more =>
              Some ([lit "Sentence " ++ lit (pretty sid) ++ lit ": " ++ sent;
                     lit "token" ++ tab ++ lit "pos" ++ tab ++ lit "lemma"
                       ++ tab ++ lit "removed"]
                    ++ ((λ r, row_tok r ++ tab ++ row_pos r ++ tab
                              ++ row_lemma r ++ tab
                              ++ show_bool (row_removed r)) <$> sent_rows)
                    ++ [[]] ++ more)
          end
      end
  end.

(** ["\n".join(lines)] *)
Fixpoint join (sep : str) (lines : list str) : str :=
  match lines with
  | [] => []
  | [l] => l
  | l :: ls => l ++ sep ++ join sep ls
  end.

Definition write_tsv (results : list (list row)) (out_path : str)
  : IO unit := λ w,
  match tsv_lines results with
  | None => None
  | Some lines => write_file out_path (Raw (join ["010"%char] lines)) w
  end.

(** * Definitions used to state the properties *)

(** ** Lemmatizer: the suffix rules as a table *)

Record suffix_rule := SuffixRule {
  rule_suffix : str;       (* the ending looked for *)
  rule_longer_than : nat;  (* the key must be longer than this *)
  rule_unless : option str;(* an ending that blocks the rule *)
  rule_replacement : str   (* what the ending is replaced with *)
}.

Definition SUFFIX_RULES : list suffix_rule := [
  SuffixRule (lit "ies") 3 None (lit "y");
  SuffixRule (lit "ing") 5 None [];
  SuffixRule (lit "ed") 4 None [];
  SuffixRule (lit "s") 3 (Some (lit "ss")) []
].

Definition rule_applies (key : str) (r : suffix_rule) : bool :=
  endswith key (rule_suffix r)
  && (rule_longer_than r <? length key)
  && match rule_unless r with
     | Some e => negb (endswith key e)
     | None => true
     end.

Definition rule_result (key : str) (r : suffix_rule) : str :=
  take (length key - length (rule_suffix r)) key ++ rule_replacement r.

(** A non-empty string of ASCII letters. *)
Definition purely_alphabetic (tok : str) : bool :=
  negb (bool_decide (tok = [])) && forallb is_letter tok.

(** The resolution order in the words of the specification: external
    dictionary, fallback dictionary, first applicable suffix rule of a
    purely alphabetic token, else the lowercased token. *)
Definition lemmatize_spec (tok : str) (external : gmap str str) : str :=
  let key := lower tok in
  match external !! key with
  | Some l => l
  | None =>
      match FALLBACK_LEMMA_DICT !! key with
      | Some l => l
      | None =>
          if purely_alphabetic tok then
            match find (rule_applies key) SUFFIX_RULES with
            | Some r => rule_result key r
            | None => key
            end
          else key
      end
  end.

(** ** Lemma dictionary: what a line denotes *)

Definition TAB : ascii := "009"%char.
Definition SPACE : ascii := " "%char.
Definition NEWLINE : ascii := "010"%char.

(** The position of the first [c] in [s]. *)
Definition index_of (c : ascii) (s : str) : option nat :=
  fst <$> list_find (λ a, a = c) s.

(** The separator of a line: its first tab if it has one, otherwise its
    first space. *)
Definition first_separator (line : str) : option nat :=
  match index_of TAB line with
  | Some i => Some i
  | None => index_of SPACE line
  end.

(** What one line contributes, in the words of the specification: nothing
    for a blank line or a line starting with [#]; otherwise the lowercased
    texts on both sides of the separator, if there is one. *)
Definition line_entry (line : str) : option (str * str) :=
  if forallb is_space line then None
  else if head_in (λ c, bool_decide (c = "#"%char)) line then None
  else i ← first_separator line;
       Some (lower (take i line), lower (drop (S i) line)).

(** The dictionary a sequence of lines denotes; of two entries for one word
    the later line wins. *)
Definition load_spec (lines : list str) : gmap str str :=
  list_to_map (reverse (omap line_entry lines)).

(** ** Manual tagging: cache, log and their invariant *)

(** The three components of a tagged token. *)
Definition tok_of (t : tagged) : str := t.1.1.
Definition pos_of (t : tagged) : str := t.1.2.
Definition src_of (t : tagged) : str := t.2.

(** The provenance label of a cache hit (line 131). *)
Definition CACHED : str := lit "manual(cache)".

(** The cache a run finds in a file: its dictionary, or the empty one when
    the file is missing or is not a JSON document.  (It is the empty one,
    too, for a JSON document that is not an object; on such a file a call
    with a token raises, see [stored_of] and [manual_pos_tag].) *)
Definition cache_of (fs : gmap str file) (path : str) : gmap str str :=
  match fs !! path with
  | Some (Json d) => d
  | _ => ∅
  end.

(** What [load_store] returns for a file system, and what it logs: the
    read, when the file is there. *)
Definition stored_of (fs : gmap str file) (path : str) : store :=
  match fs !! path with
  | Some (Json d) => Dict d
  | Some (Other v) => NonDict v
  | _ => Dict ∅
  end.

Definition load_events (fs : gmap str file) (path : str) : list event :=
  if bool_decide (is_Some (fs !! path)) then [Loaded path] else [].

(** The cache file, if there is one, is not a JSON document of another
    shape than an object. *)
Definition object_or_unreadable (fs : gmap str file) (path : str) : Prop :=
  ∀ v, fs !! path ≠ Some (Other v).

(** A cache all of whose tags are in the tag set. *)
Definition valid_cache (c : gmap str str) : Prop :=
  ∀ k v, c !! k = Some v → v ∈ VALID_POS.

(** Classifying the events of a log. *)
Definition is_prompt_for (key : str) (e : event) : bool :=
  match e with
  | Prompted tok _ => bool_decide (lower tok = key)
  | _ => false
  end.

Definition is_write (e : event) : bool :=
  match e with Wrote _ _ => true | _ => false end.

Definition is_load (e : event) : bool :=
  match e with Loaded _ => true | _ => false end.

(** How often the user was asked about a lowercased form, and how often a
    file was written or read, in a log. *)
Definition prompt_count (key : str) (evs : list event) : nat :=
  length (List.filter (is_prompt_for key) evs).
Definition write_count (evs : list event) : nat :=
  length (List.filter is_write evs).
Definition load_count (evs : list event) : nat :=
  length (List.filter is_load evs).

(** The relation between the cache before ([c0]), the tagged tokens
    emitted ([out]), the events logged ([evs]) and the cache after ([c1])
    that every stretch of manual tagging maintains. *)
Record coherent (c0 : gmap str str) (out : list tagged)
    (evs : list event) (c1 : gmap str str) : Prop := Coherent {
  coh_grows : c0 ⊆ c1;
  coh_tag : ∀ t, t ∈ out → c1 !! lower (tok_of t) = Some (pos_of t);
  coh_hit : ∀ t, t ∈ out → is_Some (c0 !! lower (tok_of t)) →
            src_of t = CACHED;
  coh_prompt : ∀ tok reply, Prompted tok reply ∈ evs →
               c0 !! lower tok = None ∧ is_Some (c1 !! lower tok);
  coh_once : ∀ key, prompt_count key evs ≤ 1;
  coh_again : ∀ i j t1 t2, i < j → out !! i = Some t1 → out !! j = Some t2 →
              lower (tok_of t1) = lower (tok_of t2) → src_of t2 = CACHED
}.

(** The log of a run in manual mode, sentence by sentence.  [logs] holds,
    for every sentence, the prompts of its tagging and the cache written
    at its end; [existed] tells whether there was a cache file before the
    first sentence.  Tagging a sentence logs the read of the cache file,
    when there is a file to read, then its prompts, then the write. *)
Fixpoint sentence_events (path : str) (existed : bool)
    (logs : list (list event * gmap str str)) : list event :=
  match logs with
  | [] => []
  | (prompts, c) :: rest =>
      (if existed then [Loaded path] else [])
      ++ prompts ++ [Wrote path (Json c)]
      ++ sentence_events path true rest
  end.

(** The lowercased forms of a list of tokens. *)
Definition forms (toks : list str) : gset str := list_to_set (lower <$> toks).

(** A list of prompts, each for one of the tokens [toks]. *)
Definition prompts_for (toks : list str) (evs : list event) : Prop :=
  Forall (λ e, ∃ tok reply, e = Prompted tok reply ∧ tok ∈ toks) evs.

(** The tag a reply is turned into (lines 140-142). *)
Definition choice_of (reply : str) : str :=
  let choice := upper (strip reply) in
  if bool_decide (choice ∈ VALID_POS) then choice else lit "OTHER".

(** The tagged token a row was built from (line 158). *)
Definition untag (r : row) : tagged := (row_tok r, row_pos r, row_src r).

(** The heuristic tagging of a token list (line 154). *)
Definition heuristic_tags (tokens : list str) : list tagged :=
  (λ t, (t, heuristic_pos t, lit "heuristic")) <$> tokens.

(** What one run in manual mode guarantees about prompts and cache hits. *)
Record cache_respected (path : str) (w : world) (res : list (list row))
    (w' : world) (evs : list event) : Prop := CacheRespected {
  cr_events : events w' = events w ++ evs;
  cr_grows : cache_of (files w) path ⊆ cache_of (files w') path;
  cr_once : ∀ key, prompt_count key evs ≤ 1;
  cr_known : ∀ key, is_Some (cache_of (files w) path !! key) →
             prompt_count key evs = 0;
  cr_kept : ∀ r, r ∈ concat res →
            cache_of (files w') path !! lower (row_tok r) = Some (row_pos r);
  cr_hit : ∀ r tag, r ∈ concat res →
           cache_of (files w) path !! lower (row_tok r) = Some tag →
           row_pos r = tag ∧ row_src r = CACHED;
  cr_again : ∀ i j r1 r2, i < j →
             concat res !! i = Some r1 → concat res !! j = Some r2 →
             lower (row_tok r1) = lower (row_tok r2) →
             row_pos r2 = row_pos r1 ∧ row_src r2 = CACHED
}.

(** ** Sample runs *)

Definition demo_store : str := lit "manual_pos.json".

(** A run in heuristic mode. *)
Definition demo_heuristic_text : str :=
  lit "The cat sat. THE END of the story!".

Definition demo_heuristic_result : list (list row) * world :=
  Eval vm_compute in
    default ([], World ∅ [] [])
      (run_pipeline demo_heuristic_text ∅ (lit "heuristic") demo_store
                    (World ∅ [] [])).

(** A run in manual mode on a cache file that knows one word, with three
    replies typed at the console. *)
Definition demo_manual_text : str := lit "Dogs bark. Cats chase dogs!".

Definition demo_manual_world : world :=
  World {[ demo_store := Json {[ lit "bark" := lit "VERB" ]} ]}
        [lit "noun"; lit " Noun "; lit "a verb"] [].

Definition demo_manual_result : list (list row) * world :=
  Eval vm_compute in
    default ([], World ∅ [] [])
      (run_pipeline demo_manual_text ∅ (lit "manual") demo_store
                    demo_manual_world).

(** A second run on the cache file the first one left. *)
Definition demo_second_text : str := lit "Dogs nap.".

Definition demo_second_world : world :=
  World (files demo_manual_result.2) [lit "VERB"]
        (events demo_manual_result.2).

Definition demo_second_result : list (list row) * world :=
  Eval vm_compute in
    default ([], World ∅ [] [])
      (run_pipeline demo_second_text ∅ (lit "manual") demo_store
                    demo_second_world).

(** ** Segmenter: words, normalised text, boundaries *)

Definition non_space (c : ascii) : bool := negb (is_space c).

(** One pass that replaces each run of white space by one space: a white
    space character followed by another is dropped, the last one of a run
    becomes a space. *)
Fixpoint squeeze (s : str) : str :=
  match s with
  | [] => []
  | c :: s' =>
      if is_space c
      then if head_in is_space s' then squeeze s' else SPACE :: squeeze s'
      else c :: squeeze s'
  end.

(** The words of a text: its maximal runs of characters that are not
    white space. *)
Fixpoint words (s : str) : list str :=
  match s with
  | [] => []
  | c :: s' =>
      if is_space c then words s'
      else if head_in non_space s' then
        match words s' with
        | w :: ws => (c :: w) :: ws
        | [] => [[c]]
        end
      else [c] :: words s'
  end.

(** The text the segmenter splits: stripped, white space collapsed. *)
Definition normalize (text : str) : str :=
  re_sub RE_SPACES (lit " ") (strip text).

(** What [re_sub] puts in the place of a scan item when the replacement is
    one space. *)
Definition sub_space (i : item) : str :=
  match i with Matched _ => lit " " | Unmatched c => [c] end.

(** A word: non-empty, no white space. *)
Definition is_word_str (w : str) : Prop :=
  w ≠ [] ∧ forallb non_space w = true.

(** A sentence boundary, seen from the white space character: the
    character before it ends a sentence and the character after it can
    start one. *)
Definition boundary (prev : option ascii) (s : str) : bool :=
  match prev, s with
  | Some p, c :: s' =>
      is_sentence_end p && is_space c && head_in is_sentence_start s'
  | _, _ => false
  end.

(** Cutting a text at its boundaries: the boundary character is dropped,
    everything else is kept. *)
Fixpoint split_at_boundaries (prev : option ascii) (s : str) : list str :=
  match s with
  | [] => [[]]
  | c :: s' =>
      if boundary prev s then [] :: split_at_boundaries (Some c) s'
      else match split_at_boundaries (Some c) s' with
           | p :: ps => (c :: p) :: ps
           | [] => [[c]]
           end
  end.

(** Every white space character is a space followed by something that is
    not white space. *)
Fixpoint spaced (s : str) : bool :=
  match s with
  | [] => true
  | c :: s' =>
      (if is_space c then bool_decide (c = SPACE) && head_in non_space s'
       else true)
      && spaced s'
  end.

(** A text with a character that is not white space. *)
Definition has_non_space (s : str) : Prop :=
  ∃ c, c ∈ s ∧ is_space c = false.

(** Whether a piece ends a sentence: its last character does, or for an
    empty piece the character before it. *)
Definition closes (prev : option ascii) (p : str) : bool :=
  match last p, prev with
  | Some a, _ => is_sentence_end a
  | None, Some a => is_sentence_end a
  | None, None => false
  end.

(** A text without boundaries inside. *)
Fixpoint boundary_free (prev : option ascii) (p : str) : bool :=
  match p with
  | [] => true
  | c :: p' => negb (boundary prev p) && boundary_free (Some c) p'
  end.

(** A text with a boundary inside: three consecutive characters, a
    sentence end, a white space and a sentence start. *)
Definition has_boundary (p : str) : Prop :=
  ∃ i a b c,
    p !! i = Some a ∧ p !! S i = Some b ∧ p !! S (S i) = Some c
    ∧ is_sentence_end a = true ∧ is_space b = true
    ∧ is_sentence_start c = true.

(** ** Further definitions: tokens, logs, report and summary *)

Definition matched_text (i : item) : option str :=
  match i with Matched m => Some m | Unmatched _ => None end.

(** The rows of a run that does not tag by hand. *)
Fixpoint heuristic_rows (si : nat) (sents : list str) (d : gmap str str)
  : list (list row) :=
  match sents with
  | [] => []
  | sent :: rest =>
      (make_row si sent d <$> heuristic_tags (tokenize sent))
      :: heuristic_rows (S si) rest d
  end.

(** The replies a log shows, in order. *)
Definition replies_of (evs : list event) : list str :=
  omap (λ e, match e with Prompted _ reply => Some reply | _ => None end) evs.

(** Whether a run in manual mode on the tokens [toks], started with the
    cache [c0], asks about the lowercased form [key]: it is the form of a
    token, the cache does not hold it, and it is not a single punctuation
    character. *)
Definition asked (c0 : gmap str str) (toks : list str) (key : str) : bool :=
  bool_decide (key ∈ forms toks) && bool_decide (c0 !! key = None)
  && negb (fullmatch RE_PUNCT key).


(** A line of the form word, separator, lemma. *)
Definition dataset_line (w : str) (sep : ascii) (l : str) : str :=
  w ++ sep :: l.



(** The line [write_tsv] makes of a row (line 172). *)
Definition tsv_row (r : row) : str :=
  row_tok r ++ tab ++ row_pos r ++ tab ++ row_lemma r ++ tab
  ++ show_bool (row_removed r).

(** How often a character occurs in a string. *)
Definition count (c : ascii) (s : str) : nat :=
  length (List.filter (λ x, bool_decide (x = c)) s).

(** Lines 191-194 of [main]: for every sentence one printed line, the
    sentence number and the lemmas of the rows that were not removed;
    [sent_rows[0]] raises on an empty list. *)
Fixpoint summary_lines (results : list (list row)) : option (list str) :=
  match results with
  | [] => Some []
  | sent_rows :: rest =>
      match sent_rows with
      | [] => None
      | first :: _ =>
          let sid := row_sid first in
          let kept :=
            row_lemma <$> List.filter (λ r, negb (row_removed r)) sent_rows in
          match summary_lines rest with
          | None => None
          | Some more =>
              Some ((lit "Sentence " ++ lit (pretty sid)
                       ++ lit " kept lemmas:" ++ lit " "
                       ++ join (lit " ") kept) :: more)
          end
      end
  end.

(** The tokens of a sentence that are kept: neither stop words nor tagged
    PUNCT. *)
Definition is_kept (r : row) : bool :=
  negb (is_stopword (row_tok r))
  && negb (bool_decide (row_pos r = lit "PUNCT")).

(** * Properties *)

(** ** Characters and runs *)

Ltac each_char c := destruct c as [[] [] [] [] [] [] [] []].

Lemma lower_char_idemp c : lower_char (lower_char c) = lower_char c.
Proof. each_char c; reflexivity. Qed.

Lemma lower_idemp s : lower (lower s) = lower s.
Proof.
  unfold lower. rewrite <- list_fmap_compose.
  apply list_fmap_ext. intros _ c _. apply lower_char_idemp.
Qed.

Lemma length_lower s : length (lower s) = length s.
Proof. apply length_map. Qed.

Lemma run_le p s : run p s ≤ length s.
Proof. induction s as [|c s IH]; simpl; [lia|]. destruct (p c); simpl; lia. Qed.

Lemma run_full p s : run p s = length s ↔ forallb p s = true.
Proof.
  induction s as [|c s IH]; simpl; [done|].
  destruct (p c); simpl; [|split; [lia|done]].
  rewrite <- IH. lia.
Qed.

Lemma backtrack_always n :
  backtrack (λ _, true) n = if n =? 0 then None else Some n.
Proof. by destruct n. Qed.

(** [[A-Za-z]+] matches the whole of [s] exactly when [s] is a non-empty
    string of letters. *)
Lemma fullmatch_alpha s :
  fullmatch RE_ALPHA s = negb (bool_decide (s = [])) && forallb is_letter s.
Proof.
  unfold fullmatch, RE_ALPHA. rewrite backtrack_always.
  destruct s as [|c s]; [done|].
  change (negb (bool_decide (c :: s = []))) with true.
  rewrite andb_true_l.
  destruct (forallb is_letter (c :: s)) eqn:E.
  - apply run_full in E. rewrite E. simpl. apply Nat.eqb_refl.
  - destruct (run is_letter (c :: s) =? 0) eqn:E0; [done|].
    apply Nat.eqb_neq. intros H. apply run_full in H. congruence.
Qed.

(** ** Lemmatizer: the resolution order, as a rule table *)

Lemma lemmatize_token_spec tok d :
  lemmatize_token tok d = lemmatize_spec tok d.
Proof.
  unfold lemmatize_token, lemmatize_spec.
  destruct (d !! lower tok); [done|].
  destruct (FALLBACK_LEMMA_DICT !! lower tok); [done|].
  rewrite fullmatch_alpha. fold (purely_alphabetic tok).
  destruct (purely_alphabetic tok); [|done].
  unfold SUFFIX_RULES, find, rule_applies, rule_result, drop_last. simpl.
  rewrite !andb_true_r.
  repeat match goal with
         | |- context [if ?b then _ else _] => destruct b; simpl
         end;
    rewrite ?app_nil_r; reflexivity.
Qed.

(** C5. [lemmatize_token] resolves a token in this order, first match
    winning: the supplied dictionary at the lowercased token, the built-in
    fallback dictionary, then for a purely alphabetic token the suffix rules
    in table order (ies, ing, ed, s), else the lowercased token unchanged.
    With no external data, running resolves through the fallback dictionary
    to run, where the ing rule alone would have given runn. *)
Theorem lemmatize_resolution_order :
  (∀ tok d, lemmatize_token tok d = lemmatize_spec tok d)
  ∧ lemmatize_token (lit "running") ∅ = lit "run"
  ∧ FALLBACK_LEMMA_DICT !! lit "running" = Some (lit "run")
  ∧ find (rule_applies (lit "running")) SUFFIX_RULES
    = Some (SuffixRule (lit "ing") 5 None [])
  ∧ rule_result (lit "running") (SuffixRule (lit "ing") 5 None [])
    = lit "runn".
Proof.
  split; [apply lemmatize_token_spec|].
  repeat split; vm_compute; reflexivity.
Qed.

(** C3, as stated, fails: buildings lemmatizes to building, and building
    lemmatizes to build. *)
Lemma lemmatize_not_idempotent :
  lemmatize_token (lit "buildings") ∅ = lit "building"
  ∧ lemmatize_token (lemmatize_token (lit "buildings") ∅) ∅ = lit "build"
  ∧ ¬ (∀ tok d, lemmatize_token (lemmatize_token tok d) d
                = lemmatize_token tok d).
Proof.
  split; [vm_compute; reflexivity|].
  split; [vm_compute; reflexivity|].
  intros H. specialize (H (lit "buildings") ∅). vm_compute in H. discriminate.
Qed.

(** C3, amended. Lemmatizing twice equals lemmatizing once for every token
    whose lemma is an already-lemmatized form: lowercase, a key of neither
    dictionary, and matched by no suffix rule. *)
Theorem lemmatize_idempotent_on_lemmas tok d :
  let l := lemmatize_token tok d in
  lower l = l →
  d !! l = None →
  FALLBACK_LEMMA_DICT !! l = None →
  (∀ r, r ∈ SUFFIX_RULES → rule_applies l r = false) →
  lemmatize_token l d = l.
Proof.
  intros l Hlow Hd Hf Hrules.
  rewrite lemmatize_token_spec. unfold lemmatize_spec.
  rewrite Hlow, Hd, Hf.
  destruct (purely_alphabetic l); [|done].
  destruct (find (rule_applies l) SUFFIX_RULES) as [r|] eqn:E; [|done].
  apply find_some in E as [Hin Happ].
  apply list_elem_of_In in Hin. rewrite (Hrules r Hin) in Happ. done.
Qed.

Lemma lemmatize_idempotent_on_lemmas_witness :
  lemmatize_token (lemmatize_token (lit "computers") ∅) ∅
  = lemmatize_token (lit "computers") ∅
  ∧ lemmatize_token (lit "computer") ∅ = lit "computer".
Proof.
  split.
  - apply (lemmatize_idempotent_on_lemmas (lit "computers") ∅).
    + vm_compute; reflexivity.
    + vm_compute; reflexivity.
    + vm_compute; reflexivity.
    + intros r Hr. apply list_elem_of_In in Hr. simpl in Hr.
      destruct Hr as [<-|[<-|[<-|[<-|[]]]]]; vm_compute; reflexivity.
  - vm_compute; reflexivity.
Defined.

(** ** Lemma dictionary loader *)

Lemma contains_index_of c s :
  contains c s = bool_decide (is_Some (index_of c s)).
Proof.
  unfold contains, index_of. apply bool_decide_ext.
  rewrite fmap_is_Some. split.
  - intros H. destruct (list_find (λ a, a = c) s) eqn:E; [done|].
    exfalso. rewrite list_find_None in E.
    rewrite Forall_forall in E. by apply (E c).
  - intros [[i a] H]. apply list_find_Some in H as (H & -> & _).
    by eapply list_elem_of_lookup_2.
Qed.

Lemma split_once_index_of c s i :
  index_of c s = Some i → split_once c s = (take i s, drop (S i) s).
Proof.
  unfold index_of. revert i. induction s as [|a s IH]; intros i; [done|].
  simpl. case_decide as Hac; simpl.
  - rewrite bool_decide_eq_true_2 by done. by intros [= <-].
  - rewrite bool_decide_eq_false_2 by done.
    destruct (list_find (λ a, a = c) s) as [[j b]|] eqn:E; simpl; [|done].
    intros [= <-]. by rewrite (IH j eq_refl).
Qed.

Lemma lstrip_nil_iff s : lstrip s = [] ↔ forallb is_space s = true.
Proof.
  induction s as [|c s IH]; simpl; [done|].
  destruct (is_space c); simpl; [done|]. split; done.
Qed.

Lemma forallb_rev {A} (p : A → bool) l : forallb p (rev l) = forallb p l.
Proof.
  induction l as [|a l IH]; simpl; [done|].
  rewrite forallb_app, IH. simpl. rewrite andb_true_r. apply andb_comm.
Qed.

Lemma lstrip_suffix s : ∃ ws, s = ws ++ lstrip s ∧ forallb is_space ws = true.
Proof.
  induction s as [|c s (ws & IH & Hws)]; simpl; [by exists []|].
  destruct (is_space c) eqn:E.
  - exists (c :: ws). simpl. rewrite E, Hws. by rewrite <- IH.
  - by exists [].
Qed.

(** The text [strip] keeps: [s] is [strip s] between two runs of white
    space. *)
Lemma strip_decompose s :
  ∃ l r, s = l ++ strip s ++ r
         ∧ forallb is_space l = true ∧ forallb is_space r = true.
Proof.
  unfold strip, rstrip.
  destruct (lstrip_suffix s) as (l & Hs & Hl).
  destruct (lstrip_suffix (rev (lstrip s))) as (r & Hr & Hrs).
  exists l, (rev r). split; [|split; [done|by rewrite forallb_rev]].
  rewrite <- rev_app_distr, <- Hr, rev_involutive. done.
Qed.

Lemma strip_nil_iff s : strip s = [] ↔ forallb is_space s = true.
Proof.
  destruct (strip_decompose s) as (l & r & Hs & Hl & Hr). split.
  - intros E. rewrite E in Hs. simpl in Hs.
    rewrite Hs, forallb_app, Hl, Hr. done.
  - intros H. unfold strip, rstrip.
    apply lstrip_nil_iff in H. rewrite H. done.
Qed.

Lemma lstrip_head s c t : lstrip s = c :: t → is_space c = false.
Proof.
  induction s as [|a s IH]; simpl; [done|].
  destruct (is_space a) eqn:E; [done|]. by intros [= <- _].
Qed.

Lemma strip_not_blank s : strip s ≠ [] → forallb is_space (strip s) = false.
Proof.
  unfold strip, rstrip. intros H.
  destruct (lstrip (rev (lstrip s))) as [|c t] eqn:E; [done|].
  apply lstrip_head in E. simpl.
  rewrite forallb_app. simpl. rewrite E. apply andb_false_r.
Qed.

Lemma startswith_hash s :
  startswith s (lit "#") = head_in (λ c, bool_decide (c = "#"%char)) s.
Proof. destruct s as [|a [|b s]]; simpl; [done| |]; apply andb_true_r. Qed.

(** One iteration of the loop of [load_lemma_dict] adds the entry of the
    stripped line. *)
Lemma load_lines_step lemma line rest :
  load_lines lemma (line :: rest)
  = load_lines (match line_entry (strip line) with
                | Some (w, l) => <[w := l]> lemma
                | None => lemma
                end) rest.
Proof.
  simpl. unfold line_entry, first_separator, TAB, SPACE.
  destruct (bool_decide (strip line = [])) eqn:Eb.
  { apply bool_decide_eq_true in Eb. rewrite Eb. done. }
  apply bool_decide_eq_false in Eb.
  rewrite (strip_not_blank _ Eb), startswith_hash. simpl.
  destruct (head_in _ (strip line)); [done|].
  rewrite !contains_index_of.
  destruct (index_of "009" (strip line)) as [i|] eqn:Et.
  { rewrite bool_decide_eq_true_2 by done. simpl.
    by rewrite (split_once_index_of _ _ _ Et). }
  rewrite bool_decide_eq_false_2 by (by intros [? ?]).
  destruct (index_of " " (strip line)) as [i|] eqn:Es.
  { rewrite bool_decide_eq_true_2 by done. simpl.
    by rewrite (split_once_index_of _ _ _ Es). }
  rewrite bool_decide_eq_false_2 by (by intros [? ?]). done.
Qed.

Lemma load_lines_union lemma lines :
  load_lines lemma lines = load_spec (strip <$> lines) ∪ lemma.
Proof.
  unfold load_spec. revert lemma.
  induction lines as [|line rest IH]; intros lemma.
  { simpl. by rewrite (left_id_L ∅ (∪)). }
  rewrite load_lines_step, IH. rewrite fmap_cons. simpl.
  destruct (line_entry (strip line)) as [[w l]|]; [|done].
  rewrite reverse_cons, list_to_map_app. simpl.
  rewrite <- (assoc_L (∪)). f_equal.
  by rewrite insert_empty, <- insert_union_singleton_l.
Qed.

(** C8, as stated, fails: the loader strips each line before anything
    else, so a line read from a file, which ends in a newline, does not
    keep that newline in its lemma, and an indented comment is skipped. *)
Lemma loader_not_on_raw_lines :
  let line := lit "dogs" ++ [TAB] ++ lit "dog" ++ [NEWLINE] in
  load_lemma_dict [line] !! lit "dogs" = Some (lit "dog")
  ∧ load_spec [line] !! lit "dogs" = Some (lit "dog" ++ [NEWLINE])
  ∧ load_lemma_dict [lit " #see below"] = ∅
  ∧ load_spec [lit " #see below"] !! [] = Some (lit "#see below")
  ∧ ¬ (∀ lines, load_lemma_dict lines = load_spec lines).
Proof.
  repeat split; try (vm_compute; reflexivity).
  intros H. specialize (H [lit " #see below"]).
  apply (f_equal (λ m, m !! [])) in H. vm_compute in H. discriminate.
Qed.

(** C8, amended. The loader strips leading and trailing white space from
    each line, and the stripped lines are then treated as the claim says:
    empty lines and lines starting with [#] are skipped, the others are
    split at their first tab if they have one and otherwise at their first
    space, lines with neither are skipped, both sides are stored
    lowercased, and a later line overwrites an earlier one. *)
Theorem load_lemma_dict_stripped_lines lines :
  load_lemma_dict lines = load_spec (strip <$> lines).
Proof.
  unfold load_lemma_dict. rewrite load_lines_union.
  apply (right_id_L ∅ (∪)).
Qed.

(** ** Segmenter: normalisation *)

Lemma squeeze_space c rest :
  is_space c = true → squeeze (c :: rest) = SPACE :: squeeze (lstrip rest).
Proof.
  revert c. induction rest as [|a rest IH]; intros c Hc; simpl; rewrite Hc.
  - done.
  - destruct (is_space a) eqn:Ha.
    + rewrite <- (IH a Ha). simpl. by rewrite Ha.
    + simpl. by rewrite Ha.
Qed.

(** The scan for [\s+], at a position outside a match and at the first
    position of a whole run still to be skipped. *)
Lemma scan_spaces s :
  (∀ prev, flat_map sub_space (scan RE_SPACES 0 prev s) = squeeze s)
  ∧ (∀ prev, flat_map sub_space (scan RE_SPACES (run is_space s) prev s)
             = squeeze (lstrip s)).
Proof.
  induction s as [|c rest [IH0 IHrun]]; [done|].
  assert (∀ prev, flat_map sub_space (scan RE_SPACES 0 prev (c :: rest))
                  = squeeze (c :: rest)) as H0.
  { intros prev. destruct (is_space c) eqn:Hc.
    - rewrite (squeeze_space _ _ Hc). simpl. unfold RE_SPACES at 1. simpl.
      rewrite Hc. simpl. rewrite IHrun. reflexivity.
    - simpl. unfold RE_SPACES at 1. simpl. rewrite Hc. simpl.
      by rewrite IH0. }
  split; [done|]. intros prev. destruct (is_space c) eqn:Hc.
  - simpl. rewrite Hc. apply IHrun.
  - replace (run is_space (c :: rest)) with 0 by (simpl; by rewrite Hc).
    replace (lstrip (c :: rest)) with (c :: rest) by (simpl; by rewrite Hc).
    apply H0.
Qed.

Lemma re_sub_spaces s : re_sub RE_SPACES (lit " ") s = squeeze s.
Proof. apply (proj1 (scan_spaces s)). Qed.

Lemma lstrip_app_nonspace a c :
  is_space c = false →
  lstrip (a ++ [c]) = if forallb is_space a then [c] else lstrip a ++ [c].
Proof.
  intros Hc. induction a as [|x a IH]; simpl; [by rewrite Hc|].
  destruct (is_space x); simpl; done.
Qed.

Lemma lstrip_app_space a c :
  is_space c = true →
  lstrip (a ++ [c]) = if forallb is_space a then [] else lstrip a ++ [c].
Proof.
  intros Hc. induction a as [|x a IH]; simpl; [by rewrite Hc|].
  destruct (is_space x); simpl; done.
Qed.

(** [rstrip], from the left. *)
Lemma rstrip_cons c s :
  rstrip (c :: s) = if forallb is_space (c :: s) then [] else c :: rstrip s.
Proof.
  unfold rstrip. simpl. destruct (is_space c) eqn:Hc; simpl.
  - rewrite (lstrip_app_space _ _ Hc), forallb_rev.
    destruct (forallb is_space s) eqn:Hs.
    + done.
    + by rewrite rev_app_distr.
  - rewrite (lstrip_app_nonspace _ _ Hc), forallb_rev.
    destruct (forallb is_space s) eqn:Hs.
    + assert (lstrip (rev s) = []) as ->; [|done].
      apply lstrip_nil_iff. by rewrite forallb_rev.
    + by rewrite rev_app_distr.
Qed.

Lemma squeeze_cons_nonspace c s :
  is_space c = false → squeeze (c :: s) = c :: squeeze s.
Proof. intros H. simpl. by rewrite H. Qed.

Lemma squeeze_cons_space c s :
  is_space c = true →
  squeeze (c :: s)
  = if head_in is_space s then squeeze s else SPACE :: squeeze s.
Proof. intros H. simpl. by rewrite H. Qed.

Lemma words_cons_space c s : is_space c = true → words (c :: s) = words s.
Proof. intros H. simpl. by rewrite H. Qed.

Lemma words_cons_nonspace c s :
  is_space c = false →
  words (c :: s)
  = if head_in non_space s
    then match words s with w :: ws => (c :: w) :: ws | [] => [[c]] end
    else [c] :: words s.
Proof. intros H. simpl. by rewrite H. Qed.

Lemma words_nil_iff s : words s = [] ↔ forallb is_space s = true.
Proof.
  induction s as [|c s IH]; [done|].
  destruct (is_space c) eqn:Hc.
  - rewrite (words_cons_space _ _ Hc). simpl. by rewrite Hc.
  - rewrite (words_cons_nonspace _ _ Hc). simpl. rewrite Hc. simpl.
    split; [|done]. destruct (head_in non_space s); [|done].
    by destruct (words s).
Qed.

Lemma rstrip_nil s : forallb is_space s = true → rstrip s = [].
Proof.
  intros H. unfold rstrip.
  assert (lstrip (rev s) = []) as ->; [|done].
  apply lstrip_nil_iff. by rewrite forallb_rev.
Qed.

Lemma head_in_rstrip p s :
  forallb is_space s = false → head_in p (rstrip s) = head_in p s.
Proof. intros H. destruct s as [|c s]; [done|]. by rewrite rstrip_cons, H. Qed.

Lemma head_non_space_not_blank s :
  head_in non_space s = true → forallb is_space s = false.
Proof.
  destruct s as [|c s]; [done|]. unfold non_space. simpl.
  by destruct (is_space c).
Qed.

Lemma head_in_space_non_space s :
  s ≠ [] → head_in non_space s = negb (head_in is_space s).
Proof. by destruct s. Qed.

Lemma join_cons_cons sep (c : ascii) w ws :
  join sep ((c :: w) :: ws) = c :: join sep (w :: ws).
Proof. by destruct ws. Qed.

Lemma join_cons sep l ls :
  ls ≠ [] → join sep (l :: ls) = l ++ sep ++ join sep ls.
Proof. by destruct ls. Qed.

(** Squeezing a right-stripped text keeps its words, one space apart, with
    one more space in front if the text started with white space. *)
Lemma squeeze_rstrip_words u :
  squeeze (rstrip u)
  = (if head_in is_space u && negb (forallb is_space u)
     then [SPACE] else [])
    ++ join [SPACE] (words u).
Proof.
  induction u as [|c u IH]; [done|].
  rewrite rstrip_cons.
  destruct (forallb is_space (c :: u)) eqn:Hall.
  { apply words_nil_iff in Hall. rewrite Hall, andb_false_r. done. }
  rewrite andb_true_r.
  destruct (is_space c) eqn:Hc.
  - assert (forallb is_space u = false) as Hu.
    { simpl in Hall. by rewrite Hc in Hall. }
    rewrite (squeeze_cons_space _ _ Hc), (words_cons_space _ _ Hc).
    rewrite (head_in_rstrip _ _ Hu), IH, Hu, andb_true_r.
    simpl. rewrite Hc. by destruct (head_in is_space u).
  - rewrite (squeeze_cons_nonspace _ _ Hc), (words_cons_nonspace _ _ Hc).
    simpl. rewrite Hc. simpl.
    destruct (head_in non_space u) eqn:Hh.
    + pose proof (head_non_space_not_blank _ Hh) as Hu.
      rewrite IH, Hu.
      assert (head_in is_space u = false) as ->.
      { destruct u as [|a u]; [done|]. unfold non_space in Hh. simpl in *.
        by destruct (is_space a). }
      simpl. destruct (words u) as [|w ws] eqn:Hw.
      { apply words_nil_iff in Hw. congruence. }
      by rewrite join_cons_cons.
    + destruct (forallb is_space u) eqn:Hu.
      * rewrite (rstrip_nil _ Hu). apply words_nil_iff in Hu.
        by rewrite Hu.
      * rewrite IH.
        assert (head_in is_space u = true) as ->.
        { destruct u as [|a u]; [done|]. unfold non_space in Hh. simpl in *.
          by destruct (is_space a). }
        rewrite join_cons; [done|]. intros Hw.
        apply words_nil_iff in Hw. congruence.
Qed.

Lemma words_lstrip s : words (lstrip s) = words s.
Proof.
  induction s as [|c s IH]; [done|]. simpl lstrip.
  destruct (is_space c) eqn:Hc; [|done].
  by rewrite (words_cons_space _ _ Hc).
Qed.

Lemma lstrip_head_in s : head_in is_space (lstrip s) = false.
Proof.
  destruct (lstrip s) as [|c t] eqn:E; [done|]. simpl.
  by eapply lstrip_head.
Qed.

(** Normalisation collapses and trims: what is left is the words of the
    text, one space apart. *)
Lemma normalize_words text : normalize text = join [SPACE] (words text).
Proof.
  unfold normalize, strip. rewrite re_sub_spaces, squeeze_rstrip_words.
  by rewrite lstrip_head_in, words_lstrip.
Qed.

Lemma words_wf s : Forall is_word_str (words s).
Proof.
  induction s as [|c s IH]; [constructor|].
  destruct (is_space c) eqn:Hc.
  { by rewrite (words_cons_space _ _ Hc). }
  rewrite (words_cons_nonspace _ _ Hc).
  assert (non_space c = true) as Hn by (unfold non_space; by rewrite Hc).
  destruct (head_in non_space s).
  - destruct (words s) as [|w ws].
    + constructor; [|done]. split; [done|]. simpl. by rewrite Hn.
    + inversion IH as [|?? [Hne Hw] Hws]; subst.
      constructor; [|done]. split; [done|]. simpl. by rewrite Hn, Hw.
  - constructor; [|done]. split; [done|]. simpl. by rewrite Hn.
Qed.

(** ** Segmenter: splitting *)

Lemma sentence_start_non_space c :
  is_sentence_start c = true → non_space c = true.
Proof. each_char c; vm_compute; congruence. Qed.

Lemma sentence_end_non_space c :
  is_sentence_end c = true → non_space c = true.
Proof. each_char c; vm_compute; congruence. Qed.

Lemma head_in_impl (p q : ascii → bool) s :
  (∀ c, p c = true → q c = true) → head_in p s = true → head_in q s = true.
Proof. intros H. destruct s; [done|]. apply H. Qed.

Lemma run_head_false p s : head_in p s = false → s ≠ [] → run p s = 0.
Proof. destruct s as [|c s]; [done|]. simpl. by intros ->. Qed.

Lemma non_space_run s : head_in non_space s = true → run is_space s = 0.
Proof.
  destruct s as [|c s]; [done|]. unfold non_space. simpl.
  by destruct (is_space c).
Qed.

(** On such a text the white space of [SENT_SPLIT_RE] is one character
    long, and the pattern matches exactly at the boundaries. *)
Lemma sent_split_spaced prev c s :
  (is_space c = true → head_in non_space s = true) →
  SENT_SPLIT_RE prev (c :: s)
  = if boundary prev (c :: s) then Some 1 else None.
Proof.
  intros H. unfold SENT_SPLIT_RE, boundary.
  destruct prev as [p|]; [|done].
  destruct (is_sentence_end p); [|done]. simpl.
  destruct (is_space c) eqn:Hc; [|done].
  rewrite (non_space_run _ (H eq_refl)). simpl.
  by rewrite drop_0.
Qed.

Lemma re_split_spaced s : ∀ prev,
  spaced s = true →
  pieces (scan SENT_SPLIT_RE 0 prev s) = split_at_boundaries prev s.
Proof.
  induction s as [|c s IH]; intros prev Hs; [done|].
  simpl in Hs. apply andb_true_iff in Hs as [Hc Hs].
  cbn [scan split_at_boundaries]. rewrite sent_split_spaced.
  - destruct (boundary prev (c :: s)).
    + cbn [pieces]. by rewrite IH.
    + cbn [pieces]. by rewrite IH.
  - intros E. rewrite E in Hc. by apply andb_true_iff in Hc as [_ ?].
Qed.

Lemma spaced_word_app w t :
  forallb non_space w = true → spaced (w ++ t) = spaced t.
Proof.
  induction w as [|c w IH]; [done|]. simpl.
  intros [Hc Hw]%andb_true_iff. unfold non_space in Hc.
  destruct (is_space c); [done|]. by apply IH.
Qed.

Lemma join_words_head ws :
  Forall is_word_str ws → ws ≠ [] →
  head_in non_space (join [SPACE] ws) = true.
Proof.
  intros Hws Hne. destruct ws as [|w ws]; [done|].
  inversion Hws as [|?? [Hw Hall] _]; subst.
  destruct w as [|c w]; [done|]. rewrite join_cons_cons. simpl.
  simpl in Hall. by apply andb_true_iff in Hall as [? _].
Qed.

Lemma join_words_spaced ws :
  Forall is_word_str ws → spaced (join [SPACE] ws) = true.
Proof.
  induction ws as [|w ws IH]; intros Hws; [done|].
  inversion Hws as [|?? [Hw Hall] Hrest]; subst.
  destruct ws as [|w' ws'].
  { simpl. rewrite <- (app_nil_r w). by rewrite spaced_word_app. }
  rewrite join_cons by done. rewrite spaced_word_app by done.
  cbn [app spaced]. rewrite IH by done.
  rewrite join_words_head by done. done.
Qed.

Lemma normalize_spaced text : spaced (normalize text) = true.
Proof. rewrite normalize_words. apply join_words_spaced, words_wf. Qed.

Lemma normalize_head text :
  normalize text ≠ [] → head_in non_space (normalize text) = true.
Proof.
  rewrite normalize_words. intros H. apply join_words_head.
  - apply words_wf.
  - intros E. by rewrite E in H.
Qed.

Lemma normalize_nil_iff text :
  normalize text = [] ↔ forallb is_space text = true.
Proof.
  rewrite normalize_words, <- words_nil_iff. split.
  - intros H. destruct (decide (words text = [])) as [|Hne]; [done|].
    pose proof (join_words_head _ (words_wf text) Hne) as Hh.
    rewrite H in Hh. done.
  - by intros ->.
Qed.

(** The segmenter, in terms of the words of the text and its boundaries. *)
Lemma sentence_segment_split text :
  sentence_segment text
  = if bool_decide (normalize text = []) then []
    else split_at_boundaries None (normalize text).
Proof.
  unfold sentence_segment. fold (normalize text).
  case_bool_decide; [done|].
  apply re_split_spaced, normalize_spaced.
Qed.

Lemma split_not_nil prev s : split_at_boundaries prev s ≠ [].
Proof.
  destruct s as [|c s]; [done|]. simpl.
  destruct (boundary prev (c :: s)); [done|].
  by destruct (split_at_boundaries (Some c) s).
Qed.

Lemma boundary_inv prev c s :
  boundary prev (c :: s) = true →
  (∃ p, prev = Some p ∧ is_sentence_end p = true)
  ∧ is_space c = true ∧ head_in is_sentence_start s = true.
Proof.
  unfold boundary. destruct prev as [p|]; [|done].
  intros [[H1 H2]%andb_true_iff H3]%andb_true_iff. eauto.
Qed.

Lemma boundary_non_space prev c s :
  is_space c = false → boundary prev (c :: s) = false.
Proof.
  intros Hc. unfold boundary. destruct prev; [|done].
  by rewrite Hc, andb_false_r.
Qed.

(** A piece after a boundary starts with the character that made the
    boundary, so every piece but possibly the first has a character that
    is not white space; so has the first if the text starts with one. *)
Lemma split_pieces_non_blank s : ∀ prev,
  Forall has_non_space (tail (split_at_boundaries prev s))
  ∧ (head_in non_space s = true →
     Forall has_non_space (split_at_boundaries prev s)).
Proof.
  induction s as [|c s IH]; intros prev; [by split|].
  destruct (IH (Some c)) as [IHt IHh]. cbn [split_at_boundaries].
  destruct (boundary prev (c :: s)) eqn:Hb.
  - apply boundary_inv in Hb as (_ & Hc & Hs).
    assert (Forall has_non_space (split_at_boundaries (Some c) s)) as Hall.
    { apply IHh. eapply head_in_impl; [apply sentence_start_non_space|done]. }
    split; [done|]. unfold non_space. simpl. by rewrite Hc.
  - destruct (split_at_boundaries (Some c) s) as [|p ps] eqn:E.
    { by destruct (split_not_nil (Some c) s). }
    split; [done|]. unfold non_space. simpl. intros Hc.
    constructor; [|done]. exists c. split; [left|].
    by destruct (is_space c).
Qed.

Lemma has_non_space_not_nil s : has_non_space s → s ≠ [].
Proof. intros (c & Hc & _) ->. by apply elem_of_nil in Hc. Qed.

(** Putting a space back at every cut gives the text back. *)
Lemma split_join s : ∀ prev,
  spaced s = true → join [SPACE] (split_at_boundaries prev s) = s.
Proof.
  induction s as [|c s IH]; intros prev Hs; [done|].
  simpl in Hs. apply andb_true_iff in Hs as [Hc Hs].
  cbn [split_at_boundaries].
  destruct (boundary prev (c :: s)) eqn:Hb.
  - apply boundary_inv in Hb as (_ & Hsp & _). rewrite Hsp in Hc.
    apply andb_true_iff in Hc as [->%bool_decide_eq_true _].
    rewrite join_cons by apply split_not_nil. by rewrite IH.
  - specialize (IH (Some c) Hs).
    destruct (split_at_boundaries (Some c) s) as [|p ps] eqn:E.
    { by destruct (split_not_nil (Some c) s). }
    by rewrite join_cons_cons, IH.
Qed.

Lemma closes_cons prev c p : closes prev (c :: p) = closes (Some c) p.
Proof.
  unfold closes. rewrite last_cons. by destruct (last p).
Qed.

Lemma closes_non_nil prev prev' p : p ≠ [] → closes prev p = closes prev' p.
Proof.
  intros Hp. unfold closes. destruct (last p) eqn:E; [done|].
  by apply last_None in E.
Qed.

(** Every cut is at a boundary: the piece before it ends with a sentence
    end, the piece after it starts with a sentence start. *)
Lemma split_adjacent s : ∀ prev i p1 p2,
  split_at_boundaries prev s !! i = Some p1 →
  split_at_boundaries prev s !! S i = Some p2 →
  closes prev p1 = true ∧ head_in is_sentence_start p2 = true.
Proof.
  induction s as [|c s IH]; intros prev i p1 p2 H1 H2; [done|].
  destruct (split_pieces_non_blank s (Some c)) as [Htail _].
  cbn [split_at_boundaries] in H1, H2.
  destruct (boundary prev (c :: s)) eqn:Hb.
  - apply boundary_inv in Hb as ((p & -> & Hp) & Hc & Hs).
    destruct i as [|i].
    + injection H1 as <-. split; [done|]. simpl in H2.
      destruct s as [|a s]; [done|]. simpl in Hs.
      cbn [split_at_boundaries] in H2.
      rewrite boundary_non_space in H2.
      * destruct (split_at_boundaries (Some a) s); by injection H2 as <-.
      * apply sentence_start_non_space in Hs. unfold non_space in Hs.
        by destruct (is_space a).
    + simpl in H1, H2. destruct (IH _ _ _ _ H1 H2) as [Hcl Hst].
      split; [|done]. destruct p1 as [|x p1].
      * unfold closes in Hcl. simpl in Hcl.
        apply sentence_end_non_space in Hcl. unfold non_space in Hcl.
        by rewrite Hc in Hcl.
      * by rewrite (closes_non_nil _ (Some c)).
  - destruct (split_at_boundaries (Some c) s) as [|p ps] eqn:E.
    { by destruct (split_not_nil (Some c) s). }
    destruct i as [|i].
    + injection H1 as <-. simpl in H2.
      destruct (IH (Some c) 0 p p2) as [Hcl Hst]; [by rewrite E..|].
      by rewrite closes_cons.
    + simpl in H1, H2.
      destruct (IH (Some c) (S i) p1 p2) as [Hcl Hst]; [by rewrite E..|].
      split; [|done]. rewrite (closes_non_nil _ (Some c)); [done|].
      apply has_non_space_not_nil. simpl in Htail.
      rewrite Forall_lookup in Htail. by eapply Htail.
Qed.

Lemma boundary_free_no_boundary p : ∀ prev,
  boundary_free prev p = true → ¬ has_boundary p.
Proof.
  induction p as [|x p IH]; intros prev Hf (i & a & b & c & Ha & Hb & Hc & H).
  { done. }
  simpl in Hf. apply andb_true_iff in Hf as [_ Hf].
  destruct i as [|i].
  - injection Ha as ->. destruct p as [|y [|z p]]; try done.
    injection Hb as ->. injection Hc as ->.
    destruct H as (H1 & H2 & H3).
    simpl in Hf. rewrite H1, H2, H3 in Hf. done.
  - apply (IH (Some x) Hf). by exists i, a, b, c.
Qed.

(** No boundary is left uncut. *)
Lemma split_boundary_free s : ∀ prev,
  (∀ p ps, split_at_boundaries prev s = p :: ps →
           boundary_free prev p = true)
  ∧ Forall (λ p, ¬ has_boundary p) (split_at_boundaries prev s).
Proof.
  induction s as [|c s IH]; intros prev.
  { split; [by intros ?? [= <- <-]|].
    constructor; [|done]. by apply (boundary_free_no_boundary [] None). }
  destruct (IH (Some c)) as [IHh IHall]. cbn [split_at_boundaries].
  destruct (boundary prev (c :: s)) eqn:Hb.
  - split; [by intros ?? [= <- <-]|].
    constructor; [|done]. by apply (boundary_free_no_boundary [] None).
  - destruct (split_at_boundaries (Some c) s) as [|p ps] eqn:E.
    { by destruct (split_not_nil (Some c) s). }
    assert (boundary_free prev (c :: p) = true) as Hfree.
    { cbn [boundary_free]. rewrite (IHh p ps eq_refl), andb_true_r.
      apply negb_true_iff. rewrite <- Hb. unfold boundary.
      destruct prev as [q|]; [|done]. f_equal.
      destruct s as [|a s]; [by injection E as <- <-|].
      cbn [split_at_boundaries] in E.
      destruct (boundary (Some c) (a :: s)) eqn:Hb'.
      - injection E as <- <-. apply boundary_inv in Hb' as (_ & Ha & _).
        simpl. destruct (is_sentence_start a) eqn:Hs; [|done].
        apply sentence_start_non_space in Hs. unfold non_space in Hs.
        by rewrite Ha in Hs.
      - destruct (split_at_boundaries (Some a) s); by injection E as <- <-. }
    split; [by intros ?? [= <- <-]|].
    constructor; [by eapply boundary_free_no_boundary|].
    by inversion IHall.
Qed.

(** C7, as stated, fails: the pattern looks ahead for [A-Z], not for any
    uppercase letter.  The character with code 201, a capital E with an
    acute accent, is an uppercase letter (lowercasing changes it), yet the
    white space between a full stop and that letter is no boundary: the
    text below stays one sentence. *)
Lemma accented_capital_starts_no_sentence :
  let E := "201"%char in
  let text := lit "Il dort. " ++ E :: lit "lan vital." in
  (upper_char E = E ∧ lower_char E ≠ E)
  ∧ is_sentence_start E = false
  ∧ sentence_segment text = [text].
Proof.
  intros E text. split_and!.
  - reflexivity.
  - vm_compute. discriminate.
  - reflexivity.
  - vm_compute. reflexivity.
Qed.

(** C7, amended. The segmenter collapses every run of white space to one
    space and trims the ends (what is left is the words of the text, one
    space apart), returns no sentence when that is the empty string (the
    input is empty or all white space), and otherwise cuts the normalised
    text exactly at its boundaries: a white space character right after
    one of [.!?] and right before one of the ASCII capitals A to Z, one of
    the ASCII digits 0 to 9, a double quote or an apostrophe (no other
    uppercase letter and no other quote character makes a boundary).  The
    boundary character is dropped and nothing else is (putting one space
    back at every cut gives the normalised text), so the punctuation stays
    at the end of the sentence before the cut; every cut is at a boundary,
    and no boundary is left inside a sentence. *)
Theorem segmenter_cuts_at_boundaries text :
  normalize text = join [SPACE] (words text)
  ∧ (normalize text = [] ↔ forallb is_space text = true)
  ∧ sentence_segment text
    = (if bool_decide (normalize text = []) then []
       else split_at_boundaries None (normalize text))
  ∧ join [SPACE] (sentence_segment text) = normalize text
  ∧ (∀ i s1 s2,
       sentence_segment text !! i = Some s1 →
       sentence_segment text !! S i = Some s2 →
       (∃ a, last s1 = Some a ∧ is_sentence_end a = true)
       ∧ head_in is_sentence_start s2 = true)
  ∧ (∀ s, s ∈ sentence_segment text → ¬ has_boundary s)
  ∧ (∀ c, is_sentence_end c = bool_decide (c ∈ lit ".!?"))
  ∧ (∀ c, is_sentence_start c
          = bool_decide
              (c ∈ lit "ABCDEFGHIJKLMNOPQRSTUVWXYZ0123456789'"
                   ++ ["034"%char])).
Proof.
  split; [apply normalize_words|].
  split; [apply normalize_nil_iff|].
  split; [apply sentence_segment_split|].
  assert ((∀ c, is_sentence_end c = bool_decide (c ∈ lit ".!?"))
          ∧ (∀ c, is_sentence_start c
                  = bool_decide
                      (c ∈ lit "ABCDEFGHIJKLMNOPQRSTUVWXYZ0123456789'"
                           ++ ["034"%char]))) as Hclasses.
  { split; [done|]. intros c. each_char c; vm_compute; reflexivity. }
  rewrite sentence_segment_split. case_bool_decide as Hn.
  { rewrite Hn. split_and!; try done; try apply Hclasses.
    intros s Hs. by apply elem_of_nil in Hs. }
  split; [apply split_join, normalize_spaced|].
  split; [|split; [|exact Hclasses]].
  - intros i s1 s2 H1 H2.
    destruct (split_adjacent _ _ _ _ _ H1 H2) as [Hcl Hst]. split; [|done].
    destruct (split_pieces_non_blank (normalize text) None) as [_ Hall].
    specialize (Hall (normalize_head _ Hn)).
    rewrite Forall_lookup in Hall. specialize (Hall _ _ H1).
    apply has_non_space_not_nil in Hall. unfold closes in Hcl.
    destruct (last s1) as [a|] eqn:E; [by exists a|].
    by apply last_None in E.
  - intros s Hs.
    destruct (split_boundary_free (normalize text) None) as [_ Hall].
    rewrite Forall_forall in Hall. by apply Hall.
Qed.

(** ** Tokenizer: a sentence has tokens *)

Lemma run_opt_run_pos p sep s n :
  run_opt_run p sep s = Some n → ∃ k, n = S k.
Proof.
  unfold run_opt_run. destruct (run p s) as [|r] eqn:E; [done|]. simpl.
  destruct (drop (S r) s) as [|c t].
  - intros [= <-]. by exists r.
  - destruct (bool_decide (c = sep) && negb (run p t =? 0)).
    + intros [= <-]. by exists (r + 1 + run p t).
    + intros [= <-]. by exists r.
Qed.

(** Where the text shows a character that is not white space, [TOKEN_RE]
    matches: if nothing else, the third alternative takes that character. *)
Lemma token_re_non_space prev c s :
  is_space c = false → ∃ k, TOKEN_RE prev (c :: s) = Some (S k).
Proof.
  intros Hc. unfold TOKEN_RE, alt.
  destruct (RE_WORD prev (c :: s)) as [n|] eqn:E1.
  { apply run_opt_run_pos in E1 as [k ->]. by exists k. }
  destruct (RE_NUMBER prev (c :: s)) as [n|] eqn:E2.
  { apply run_opt_run_pos in E2 as [k ->]. by exists k. }
  exists 0. unfold RE_NONSPACE. simpl. by rewrite Hc.
Qed.

Lemma scan_finds_token s : ∀ skip prev,
  has_non_space (drop skip s) → ∃ m, Matched m ∈ scan TOKEN_RE skip prev s.
Proof.
  induction s as [|c s IH]; intros skip prev (x & Hx & Hsp).
  { rewrite drop_nil in Hx. by apply elem_of_nil in Hx. }
  destruct skip as [|k].
  - rewrite drop_0 in Hx. cbn [scan].
    destruct (is_space c) eqn:Hc.
    + assert (has_non_space (drop 0 s)) as Hs.
      { rewrite drop_0. exists x. split; [|done].
        apply elem_of_cons in Hx as [->|Hx]; [congruence|done]. }
      destruct (TOKEN_RE prev (c :: s)) as [[|k]|].
      * destruct (IH 0 (Some c) Hs) as [m Hm]. exists m. by right.
      * eexists. left.
      * destruct (IH 0 (Some c) Hs) as [m Hm]. exists m. by right.
    + destruct (token_re_non_space prev c s Hc) as [k ->]. eexists. left.
  - cbn [scan]. apply IH. by exists x.
Qed.

Lemma tokenize_non_empty s : has_non_space s → tokenize s ≠ [].
Proof.
  intros Hs. destruct (scan_finds_token s 0 None) as [m Hm].
  { by rewrite drop_0. }
  unfold tokenize, findall. intros E.
  assert (m ∈ omap (λ i, match i with
                         | Matched m => Some m
                         | Unmatched _ => None
                         end) (scan TOKEN_RE 0 None s)) as Hin.
  { apply list_elem_of_omap. by exists (Matched m). }
  rewrite E in Hin. by apply elem_of_nil in Hin.
Qed.

Lemma sentence_has_non_space text s :
  s ∈ sentence_segment text → has_non_space s.
Proof.
  rewrite sentence_segment_split. case_bool_decide as Hn.
  { intros Hs. by apply elem_of_nil in Hs. }
  destruct (split_pieces_non_blank (normalize text) None) as [_ Hall].
  specialize (Hall (normalize_head _ Hn)).
  rewrite Forall_forall in Hall. apply Hall.
Qed.

Lemma sentences_have_tokens text :
  Forall (λ sent, tokenize sent ≠ []) (sentence_segment text).
Proof.
  apply Forall_forall. intros s Hs.
  by apply tokenize_non_empty, (sentence_has_non_space text).
Qed.

(** ** Manual tagging: what one document does to the cache *)

Lemma prompt_count_app key e1 e2 :
  prompt_count key (e1 ++ e2) = prompt_count key e1 + prompt_count key e2.
Proof. unfold prompt_count. by rewrite List.filter_app, length_app. Qed.

Lemma write_count_app e1 e2 :
  write_count (e1 ++ e2) = write_count e1 + write_count e2.
Proof. unfold write_count. by rewrite List.filter_app, length_app. Qed.

Lemma load_count_app e1 e2 :
  load_count (e1 ++ e2) = load_count e1 + load_count e2.
Proof. unfold load_count. by rewrite List.filter_app, length_app. Qed.

Lemma prompt_count_pos key evs :
  0 < prompt_count key evs →
  ∃ tok reply, Prompted tok reply ∈ evs ∧ lower tok = key.
Proof.
  unfold prompt_count. induction evs as [|e evs IH]; simpl; [lia|].
  destruct (is_prompt_for key e) eqn:E.
  - intros _. destruct e as [|tok reply|]; try done.
    exists tok, reply. split; [left|]. by apply bool_decide_eq_true in E.
  - intros H. destruct (IH H) as (tok & reply & Hin & Hk).
    exists tok, reply. split; [by right|done].
Qed.

Lemma prompt_count_zero key evs :
  (∀ tok reply, Prompted tok reply ∈ evs → lower tok ≠ key) →
  prompt_count key evs = 0.
Proof.
  intros H. destruct (prompt_count key evs) eqn:E; [done|].
  destruct (prompt_count_pos key evs) as (tok & reply & Hin & Hk); [lia|].
  by destruct (H tok reply Hin).
Qed.

Lemma coherent_app c0 out1 e1 c1 out2 e2 c2 :
  coherent c0 out1 e1 c1 → coherent c1 out2 e2 c2 →
  coherent c0 (out1 ++ out2) (e1 ++ e2) c2.
Proof.
  intros H1 H2. split.
  - etrans; [apply H1|apply H2].
  - intros t [Ht|Ht]%elem_of_app.
    + eapply lookup_weaken; [by apply H1|apply H2].
    + by apply H2.
  - intros t [Ht|Ht]%elem_of_app Hc.
    + by apply H1.
    + apply H2; [done|]. destruct Hc as [v Hv]. exists v.
      eapply lookup_weaken; [done|apply H1].
  - intros tok reply [Hin|Hin]%elem_of_app.
    + destruct (coh_prompt _ _ _ _ H1 _ _ Hin) as [Hn [v Hv]].
      split; [done|]. exists v. eapply lookup_weaken; [done|apply H2].
    + destruct (coh_prompt _ _ _ _ H2 _ _ Hin) as [Hn Hs].
      split; [|done]. eapply lookup_weaken_None; [done|apply H1].
  - intros key. rewrite prompt_count_app.
    pose proof (coh_once _ _ _ _ H1 key). pose proof (coh_once _ _ _ _ H2 key).
    destruct (prompt_count key e1) as [|n1] eqn:E1; [lia|].
    destruct (prompt_count key e2) as [|n2] eqn:E2; [lia|]. exfalso.
    destruct (prompt_count_pos key e1) as (t1 & r1 & I1 & K1); [lia|].
    destruct (prompt_count_pos key e2) as (t2 & r2 & I2 & K2); [lia|].
    destruct (coh_prompt _ _ _ _ H1 _ _ I1) as [_ [v Hv]].
    destruct (coh_prompt _ _ _ _ H2 _ _ I2) as [Hn _]. congruence.
  - intros i j t1 t2 Hij Hi Hj Hk.
    apply lookup_app_Some in Hj as [Hj|[Hlen Hj]].
    + apply lookup_app_Some in Hi as [Hi|[Hlen' _]].
      * by eapply (coh_again _ _ _ _ H1 i j).
      * apply lookup_lt_Some in Hj. lia.
    + apply lookup_app_Some in Hi as [Hi|[Hlen' Hi]].
      * apply (coh_hit _ _ _ _ H2 t2); [by eapply list_elem_of_lookup_2|].
        rewrite <- Hk. exists (pos_of t1).
        apply H1. by eapply list_elem_of_lookup_2.
      * eapply (coh_again _ _ _ _ H2 (i - length out1) (j - length out1));
          [lia|done..].
Qed.

(** Events other than prompts leave the relation alone. *)
Lemma coherent_silent c evs :
  (∀ tok reply, Prompted tok reply ∉ evs) → coherent c [] evs c.
Proof.
  intros H. split; try done.
  - intros t Ht. by apply elem_of_nil in Ht.
  - intros t Ht. by apply elem_of_nil in Ht.
  - intros tok reply Hin. by destruct (H tok reply).
  - intros key. rewrite prompt_count_zero; [lia|].
    intros tok reply Hin. by destruct (H tok reply).
Qed.

Lemma coherent_one c0 t evs c1 :
  c0 ⊆ c1 →
  c1 !! lower (tok_of t) = Some (pos_of t) →
  (is_Some (c0 !! lower (tok_of t)) → src_of t = CACHED) →
  (∀ tok reply, Prompted tok reply ∈ evs →
     evs = [Prompted tok reply] ∧ lower tok = lower (tok_of t)
     ∧ c0 !! lower tok = None) →
  coherent c0 [t] evs c1.
Proof.
  intros Hsub Htag Hhit Hev. split; try done.
  - by intros ? ->%list_elem_of_singleton.
  - by intros ? ->%list_elem_of_singleton.
  - intros tok reply Hin. destruct (Hev _ _ Hin) as (_ & Hk & Hn).
    split; [done|]. rewrite Hk. by eexists.
  - intros key. destruct (prompt_count key evs) as [|n] eqn:E; [lia|].
    destruct (prompt_count_pos key evs) as (tok & reply & Hin & _); [lia|].
    destruct (Hev _ _ Hin) as (-> & _). unfold prompt_count in E. simpl in E.
    destruct (bool_decide _) in E; simpl in E; lia.
  - intros [|i] [|j] t1 t2 Hij Hi Hj; try lia; done.
Qed.

Lemma bind_Some {A B} (m : IO A) (k : A → IO B) w b w' :
  bind m k w = Some (b, w') →
  ∃ a w1, m w = Some (a, w1) ∧ k a w1 = Some (b, w').
Proof.
  unfold bind. destruct (m w) as [[a w1]|]; [|done]. by exists a, w1.
Qed.

Lemma valid_cache_insert c k v :
  v ∈ VALID_POS → valid_cache c → valid_cache (<[k := v]> c).
Proof.
  intros Hv Hc k' v'. rewrite lookup_insert. case_decide.
  - by intros [= <-].
  - apply Hc.
Qed.

Lemma valid_cache_empty : valid_cache ∅.
Proof. intros k v. by rewrite lookup_empty. Qed.

Lemma PUNCT_valid : lit "PUNCT" ∈ VALID_POS.
Proof. apply list_elem_of_In. vm_compute. tauto. Qed.

Lemma OTHER_valid : lit "OTHER" ∈ VALID_POS.
Proof. apply list_elem_of_In. vm_compute. tauto. Qed.

Lemma choice_of_valid reply : choice_of reply ∈ VALID_POS.
Proof.
  unfold choice_of. case_bool_decide; [done|apply OTHER_valid].
Qed.

(** The three ways one token is tagged. *)
Lemma tag_loop_cached tok rest stored out tag :
  stored !! lower tok = Some tag →
  tag_loop (tok :: rest) stored out
  = tag_loop rest stored (out ++ [(tok, tag, CACHED)]).
Proof. intros H. simpl. by rewrite H. Qed.

Lemma tag_loop_punct tok rest stored out :
  stored !! lower tok = None → fullmatch RE_PUNCT tok = true →
  tag_loop (tok :: rest) stored out
  = tag_loop rest (<[lower tok := lit "PUNCT"]> stored)
             (out ++ [(tok, lit "PUNCT", lit "manual(auto-punct)")]).
Proof. intros H1 H2. simpl. by rewrite H1, H2. Qed.

Lemma tag_loop_prompt tok rest stored out w reply more :
  stored !! lower tok = None → fullmatch RE_PUNCT tok = false →
  stdin w = reply :: more →
  tag_loop (tok :: rest) stored out w
  = tag_loop rest (<[lower tok := choice_of reply]> stored)
             (out ++ [(tok, choice_of reply, lit "manual")])
             (World (files w) more (events w ++ [Prompted tok reply])).
Proof.
  intros H1 H2 H3. simpl. rewrite H1, H2.
  unfold bind, prompt, bind, input, log, ret. rewrite H3. done.
Qed.

Lemma tag_loop_eof tok rest stored out w :
  stored !! lower tok = None → fullmatch RE_PUNCT tok = false →
  stdin w = [] →
  tag_loop (tok :: rest) stored out w = None.
Proof.
  intros H1 H2 H3. simpl. rewrite H1, H2.
  unfold bind, prompt, bind, input. rewrite H3. done.
Qed.

Lemma tag_loop_spec toks : ∀ stored out w stored' out' w',
  tag_loop toks stored out w = Some (stored', out', w') →
  ∃ new evs,
    out' = out ++ new ∧ tok_of <$> new = toks
    ∧ files w' = files w ∧ events w' = events w ++ evs
    ∧ write_count evs = 0 ∧ load_count evs = 0
    ∧ coherent stored new evs stored'
    ∧ (valid_cache stored → valid_cache stored').
Proof.
  induction toks as [|tok rest IH]; intros stored out w stored' out' w' H.
  { injection H as <- <- <-. exists [], [].
    rewrite !app_nil_r. split_and!; try done.
    apply coherent_silent. intros ?? Hin. by apply elem_of_nil in Hin. }
  destruct (stored !! lower tok) as [tag|] eqn:E.
  { rewrite (tag_loop_cached _ _ _ _ _ E) in H.
    destruct (IH _ _ _ _ _ _ H) as (new & evs & -> & Ht & Hf & He & Hw & Hl & Hc & Hv).
    exists ((tok, tag, CACHED) :: new), evs.
    rewrite <- app_assoc. split_and!; try done.
    - by rewrite fmap_cons, Ht.
    - apply (coherent_app stored [_] [] stored new evs stored'); [|done].
      apply coherent_one; try done. intros ?? Hin. by apply elem_of_nil in Hin. }
  destruct (fullmatch RE_PUNCT tok) eqn:Ep.
  { rewrite (tag_loop_punct _ _ _ _ E Ep) in H.
    destruct (IH _ _ _ _ _ _ H) as (new & evs & -> & Ht & Hf & He & Hw & Hl & Hc & Hv).
    exists ((tok, lit "PUNCT", lit "manual(auto-punct)") :: new), evs.
    rewrite <- app_assoc. split_and!; try done.
    - by rewrite fmap_cons, Ht.
    - eapply (coherent_app stored [_] [] _ new evs stored'); [|done].
      apply coherent_one.
      + by apply insert_subseteq.
      + apply lookup_insert_eq.
      + unfold tok_of. simpl. rewrite E. by intros [? ?].
      + intros ?? Hin. by apply elem_of_nil in Hin.
    - intros Hs. apply Hv. apply valid_cache_insert; [apply PUNCT_valid|done]. }
  destruct (stdin w) as [|reply more] eqn:Ei.
  { by rewrite (tag_loop_eof _ _ _ _ _ E Ep Ei) in H. }
  rewrite (tag_loop_prompt _ _ _ _ _ _ _ E Ep Ei) in H.
  destruct (IH _ _ _ _ _ _ H) as (new & evs & -> & Ht & Hf & He & Hw & Hl & Hc & Hv).
  simpl in Hf, He.
  exists ((tok, choice_of reply, lit "manual") :: new),
         (Prompted tok reply :: evs).
  rewrite <- app_assoc. split_and!; try done.
  - by rewrite fmap_cons, Ht.
  - rewrite He, <- app_assoc. done.
  - eapply (coherent_app stored [_] [_] _ new evs stored'); [|done].
    apply coherent_one.
    + by apply insert_subseteq.
    + apply lookup_insert_eq.
    + unfold tok_of. simpl. rewrite E. by intros [? ?].
    + intros ?? Hin. apply list_elem_of_singleton in Hin.
      injection Hin as -> ->. done.
  - intros Hs. apply Hv.
    apply valid_cache_insert; [apply choice_of_valid|done].
Qed.

(** ** The loop: console input, prompts and the keys of the cache *)

Lemma replies_of_app e1 e2 :
  replies_of (e1 ++ e2) = replies_of e1 ++ replies_of e2.
Proof. apply omap_app. Qed.

Lemma forms_nil : forms [] = ∅.
Proof. done. Qed.

Lemma forms_cons tok toks : forms (tok :: toks) = {[lower tok]} ∪ forms toks.
Proof. done. Qed.

Lemma forms_app a b : forms (a ++ b) = forms a ∪ forms b.
Proof. unfold forms. by rewrite fmap_app, list_to_set_app_L. Qed.

Lemma union_known (k : str) (X F : gset str) :
  k ∈ X → X ∪ ({[k]} ∪ F) = X ∪ F.
Proof.
  intros Hk. rewrite (assoc_L (∪)). f_equal.
  rewrite (comm_L (∪)). apply subseteq_union_1_L.
  by apply singleton_subseteq_l.
Qed.

Lemma union_new (k : str) (X F : gset str) :
  {[k]} ∪ X ∪ F = X ∪ ({[k]} ∪ F).
Proof. by rewrite (comm_L (∪) {[k]} X), (assoc_L (∪)). Qed.

Lemma tag_loop_io toks : ∀ stored out w stored' out' w',
  tag_loop toks stored out w = Some (stored', out', w') →
  ∃ evs,
    events w' = events w ++ evs
    ∧ stdin w = replies_of evs ++ stdin w'
    ∧ length (replies_of evs) ≤ length toks
    ∧ dom stored' = dom stored ∪ forms toks.
Proof.
  induction toks as [|tok rest IH]; intros stored out w stored' out' w' H.
  { injection H as <- <- <-. exists []. rewrite app_nil_r.
    split_and!; try done. by rewrite forms_nil, (right_id_L ∅ (∪)). }
  destruct (stored !! lower tok) as [tag|] eqn:E.
  { rewrite (tag_loop_cached _ _ _ _ _ E) in H.
    destruct (IH _ _ _ _ _ _ H) as (evs & He & Hi & Hl & Hd).
    exists evs. split_and!; try done; [simpl; lia|].
    rewrite Hd, forms_cons. symmetry. apply union_known.
    by apply elem_of_dom_2 in E. }
  destruct (fullmatch RE_PUNCT tok) eqn:Ep.
  { rewrite (tag_loop_punct _ _ _ _ E Ep) in H.
    destruct (IH _ _ _ _ _ _ H) as (evs & He & Hi & Hl & Hd).
    exists evs. split_and!; try done; [simpl; lia|].
    rewrite Hd, dom_insert_L, forms_cons. apply union_new. }
  destruct (stdin w) as [|reply more] eqn:Ei.
  { by rewrite (tag_loop_eof _ _ _ _ _ E Ep Ei) in H. }
  rewrite (tag_loop_prompt _ _ _ _ _ _ _ E Ep Ei) in H.
  destruct (IH _ _ _ _ _ _ H) as (evs & He & Hi & Hl & Hd).
  simpl in He, Hi.
  exists (Prompted tok reply :: evs). split_and!.
  - rewrite He, <- app_assoc. done.
  - simpl. by rewrite Hi.
  - simpl. lia.
  - rewrite Hd, dom_insert_L, forms_cons. apply union_new.
Qed.

Lemma tag_loop_total toks : ∀ stored out w,
  length toks ≤ length (stdin w) → is_Some (tag_loop toks stored out w).
Proof.
  induction toks as [|tok rest IH]; intros stored out w Hlen.
  { by eexists. }
  simpl in Hlen.
  destruct (stored !! lower tok) as [tag|] eqn:E.
  { rewrite (tag_loop_cached _ _ _ _ _ E). apply IH. lia. }
  destruct (fullmatch RE_PUNCT tok) eqn:Ep.
  { rewrite (tag_loop_punct _ _ _ _ E Ep). apply IH. lia. }
  destruct (stdin w) as [|reply more] eqn:Ei; [simpl in Hlen; lia|].
  rewrite (tag_loop_prompt _ _ _ _ _ _ _ E Ep Ei). apply IH.
  simpl in *. lia.
Qed.

Lemma tag_loop_prompts toks : ∀ stored out w stored' out' w',
  tag_loop toks stored out w = Some (stored', out', w') →
  ∃ evs, events w' = events w ++ evs ∧ prompts_for toks evs.
Proof.
  induction toks as [|tok rest IH]; intros stored out w stored' out' w' H.
  { injection H as <- <- <-. exists []. rewrite app_nil_r.
    split; [done|constructor]. }
  assert (∀ evs, prompts_for rest evs → prompts_for (tok :: rest) evs)
    as Hmono.
  { intros evs Hp. eapply Forall_impl; [exact Hp|].
    intros e (t & r & -> & Hin). exists t, r. split; [done|by right]. }
  destruct (stored !! lower tok) as [tag|] eqn:E.
  { rewrite (tag_loop_cached _ _ _ _ _ E) in H.
    destruct (IH _ _ _ _ _ _ H) as (evs & He & Hp). exists evs. auto. }
  destruct (fullmatch RE_PUNCT tok) eqn:Ep.
  { rewrite (tag_loop_punct _ _ _ _ E Ep) in H.
    destruct (IH _ _ _ _ _ _ H) as (evs & He & Hp). exists evs. auto. }
  destruct (stdin w) as [|reply more] eqn:Ei.
  { by rewrite (tag_loop_eof _ _ _ _ _ E Ep Ei) in H. }
  rewrite (tag_loop_prompt _ _ _ _ _ _ _ E Ep Ei) in H.
  destruct (IH _ _ _ _ _ _ H) as (evs & He & Hp). simpl in He.
  exists (Prompted tok reply :: evs). split.
  - by rewrite He, <- app_assoc.
  - apply Forall_cons. split; [|by apply Hmono].
    exists tok, reply. split; [done|by left].
Qed.

(** ** One call of [manual_pos_tag] *)

Lemma load_store_spec path w :
  load_store path w
  = Some (stored_of (files w) path,
          World (files w) (stdin w) (events w ++ load_events (files w) path)).
Proof.
  unfold load_store, bind, path_exists, log, read_json, ret, stored_of,
    load_events. simpl.
  destruct (files w !! path) as [[d|v|t]|] eqn:E; simpl; rewrite ?E;
    try done.
  rewrite app_nil_r. by destruct w.
Qed.

Lemma load_events_counts fs path :
  write_count (load_events fs path) = 0
  ∧ load_count (load_events fs path) ≤ 1
  ∧ ∀ tok reply, Prompted tok reply ∉ load_events fs path.
Proof.
  unfold load_events. case_bool_decide; split_and!; try done;
    try (unfold load_count; simpl; lia);
    intros ?? Hin; try apply list_elem_of_singleton in Hin; try done;
    by apply elem_of_nil in Hin.
Qed.

Lemma stored_of_dict fs path :
  object_or_unreadable fs path → stored_of fs path = Dict (cache_of fs path).
Proof.
  unfold object_or_unreadable, stored_of, cache_of. intros H.
  destruct (fs !! path) as [[d|v|t]|]; try done. by destruct (H v).
Qed.

(** A call with a token returns only on a file that is absent, an object
    or unreadable; on such a file the call is the loop on the cache. *)
Lemma manual_pos_tag_returns toks path w out w' :
  manual_pos_tag toks path w = Some (out, w') → toks ≠ [] →
  object_or_unreadable (files w) path.
Proof.
  unfold manual_pos_tag, bind at 1. rewrite load_store_spec.
  intros H Hne v Hv. unfold stored_of in H. rewrite Hv in H.
  by destruct toks.
Qed.

Lemma manual_pos_tag_dict toks path w :
  object_or_unreadable (files w) path →
  manual_pos_tag toks path w
  = (r <~ tag_loop toks (cache_of (files w) path) [] ;;
     _ <~ write_file path (Json r.1) ;;
     ret r.2)
      (World (files w) (stdin w) (events w ++ load_events (files w) path)).
Proof.
  intros H. unfold manual_pos_tag, bind at 1.
  by rewrite load_store_spec, (stored_of_dict _ _ H).
Qed.

Lemma manual_pos_tag_toks toks path w out w' :
  manual_pos_tag toks path w = Some (out, w') → tok_of <$> out = toks.
Proof.
  intros H. destruct toks as [|tok rest].
  - unfold manual_pos_tag, bind at 1 in H. rewrite load_store_spec in H.
    destruct (stored_of (files w) path) as [d|v].
    + unfold bind, write_file, ret in H. simpl in H. by injection H as <- <-.
    + unfold bind, write_file, ret in H. simpl in H. by injection H as <- <-.
  - pose proof (manual_pos_tag_returns _ _ _ _ _ H) as Hobj.
    rewrite (manual_pos_tag_dict _ _ _ (Hobj ltac:(done))) in H.
    apply bind_Some in H as ([stored' out'] & w2 & Hloop & H).
    apply tag_loop_spec in Hloop as (new & e1 & -> & Ht & _).
    unfold bind, write_file, ret in H. simpl in H. by injection H as <- <-.
Qed.

Lemma manual_pos_tag_spec toks path w out w' :
  manual_pos_tag toks path w = Some (out, w') → toks ≠ [] →
  ∃ evs c1,
    tok_of <$> out = toks
    ∧ files w' = <[path := Json c1]> (files w)
    ∧ events w' = events w ++ evs ++ [Wrote path (Json c1)]
    ∧ write_count evs = 0 ∧ load_count evs ≤ 1
    ∧ coherent (cache_of (files w) path) out
               (evs ++ [Wrote path (Json c1)]) c1
    ∧ (valid_cache (cache_of (files w) path) → valid_cache c1).
Proof.
  intros H Hne.
  pose proof (manual_pos_tag_returns _ _ _ _ _ H Hne) as Hobj.
  rewrite (manual_pos_tag_dict _ _ _ Hobj) in H.
  destruct (load_events_counts (files w) path) as (Hw0 & Hl0 & Hp0).
  set (e0 := load_events (files w) path) in *.
  apply bind_Some in H as ([stored' out'] & w2 & Hloop & H).
  apply tag_loop_spec in Hloop
    as (new & e1 & -> & Ht & Hf & He & Hw1 & Hl1 & Hc & Hv).
  simpl in *. unfold bind, write_file, ret in H. simpl in H.
  injection H as <- <-. simpl.
  exists (e0 ++ e1), stored'. split_and!; try done.
  - by rewrite Hf.
  - rewrite He, <- !app_assoc. done.
  - rewrite write_count_app. lia.
  - rewrite load_count_app. lia.
  - rewrite <- (app_nil_l new), <- (app_nil_r new), <- !app_assoc.
    apply (coherent_app _ [] e0 (cache_of (files w) path));
      [by apply coherent_silent|].
    apply (coherent_app _ new e1 stored' []); [done|].
    apply coherent_silent. intros ?? Hin.
    apply list_elem_of_singleton in Hin. done.
Qed.

(** ** The rows of a run *)

Lemma untag_make_row si sent d t : untag (make_row si sent d t) = t.
Proof. by destruct t as [[tok pos] src]. Qed.

Lemma untag_make_rows si sent d (ts : list tagged) :
  untag <$> (make_row si sent d <$> ts) = ts.
Proof.
  rewrite <- list_fmap_compose. rewrite <- (list_fmap_id ts) at 2.
  apply list_fmap_ext. intros ? t _. apply untag_make_row.
Qed.

Lemma make_row_tok si sent d t : row_tok (make_row si sent d t) = tok_of t.
Proof. by destruct t as [[tok pos] src]. Qed.

Lemma make_row_removed si sent d t :
  row_removed (make_row si sent d t)
  = is_stopword (tok_of t) || bool_decide (pos_of t = lit "PUNCT").
Proof. by destruct t as [[tok pos] src]. Qed.

Lemma heuristic_tags_tok tokens : tok_of <$> heuristic_tags tokens = tokens.
Proof.
  unfold heuristic_tags. rewrite <- list_fmap_compose.
  rewrite <- (list_fmap_id tokens) at 2. by apply list_fmap_ext.
Qed.

(** Every sentence contributes one list of rows, built by [make_row] from
    one tagged token per token of the sentence, in order. *)
Lemma run_sentences_rows sents : ∀ si d mode path w res w',
  run_sentences si sents d mode path w = Some (res, w') →
  Forall2 (λ sent rows, ∃ si' ts,
             rows = make_row si' sent d <$> ts
             ∧ tok_of <$> ts = tokenize sent
             ∧ (mode ≠ lit "manual" → ts = heuristic_tags (tokenize sent)))
          sents res.
Proof.
  induction sents as [|sent rest IH]; intros si d mode path w res w' H.
  { injection H as <- <-. constructor. }
  simpl in H. apply bind_Some in H as (ts & w1 & Htag & H).
  apply bind_Some in H as (results & w2 & Hrest & H).
  injection H as <- <-. constructor; [|by eapply IH].
  exists si, ts. split; [done|].
  case_bool_decide as Hm.
  - by apply manual_pos_tag_toks in Htag.
  - injection Htag as <- <-. split; [apply heuristic_tags_tok|done].
Qed.

Lemma run_sentences_heuristic_total sents : ∀ si d mode path w,
  mode ≠ lit "manual" →
  ∃ res, run_sentences si sents d mode path w = Some (res, w).
Proof.
  induction sents as [|sent rest IH]; intros si d mode path w Hm.
  { by exists []. }
  destruct (IH (S si) d mode path w Hm) as (res & Hres).
  simpl. rewrite bool_decide_eq_false_2 by done.
  unfold bind, ret. rewrite Hres. by eexists.
Qed.

(** What a run in manual mode does to the cache file and the log. *)
Lemma run_sentences_manual_spec sents : ∀ si d path w res w',
  Forall (λ sent, tokenize sent ≠ []) sents →
  run_sentences si sents d (lit "manual") path w = Some (res, w') →
  ∃ evs,
    events w' = events w ++ evs
    ∧ write_count evs = length sents
    ∧ load_count evs ≤ length sents
    ∧ coherent (cache_of (files w) path) (untag <$> concat res) evs
               (cache_of (files w') path)
    ∧ (valid_cache (cache_of (files w) path) →
       valid_cache (cache_of (files w') path))
    ∧ (sents = [] → evs = [] ∧ files w' = files w)
    ∧ (sents ≠ [] →
       ∃ before c, evs = before ++ [Wrote path (Json c)]
                   ∧ files w' !! path = Some (Json c)).
Proof.
  induction sents as [|sent rest IH]; intros si d path w res w' Hall H.
  { injection H as <- <-. exists []. rewrite app_nil_r.
    split_and!; try done.
    apply coherent_silent. intros ?? Hin. by apply elem_of_nil in Hin. }
  apply Forall_cons in Hall as [Hsent Hall].
  simpl in H. apply bind_Some in H as (ts & w1 & Htag & H).
  apply bind_Some in H as (results & w2 & Hrest & H).
  injection H as <- <-.
  apply manual_pos_tag_spec in Htag
    as (e1 & c1 & Ht & Hf1 & He1 & Hw1 & Hl1 & Hc1 & Hv1); [|done].
  assert (cache_of (files w1) path = c1) as Hcache.
  { unfold cache_of. by rewrite Hf1, lookup_insert_eq. }
  apply IH in Hrest as (e2 & He2 & Hw2 & Hl2 & Hc2 & Hv2 & Hnil & Hlast);
    [|done].
  rewrite Hcache in Hc2, Hv2.
  exists ((e1 ++ [Wrote path (Json c1)]) ++ e2). split_and!.
  - rewrite He2, He1, <- !app_assoc. done.
  - rewrite !write_count_app, Hw1, Hw2.
    change (write_count [Wrote path (Json c1)]) with 1. simpl. lia.
  - rewrite !load_count_app.
    change (load_count [Wrote path (Json c1)]) with 0. simpl. lia.
  - simpl. rewrite fmap_app, untag_make_rows.
    by eapply coherent_app.
  - auto.
  - done.
  - intros _. destruct rest as [|sent' rest'].
    + destruct Hnil as [-> Hf2]; [done|]. exists e1, c1.
      rewrite app_nil_r, Hf2, Hf1, lookup_insert_eq. done.
    + destruct Hlast as (before & c & -> & Hc); [done|].
      exists ((e1 ++ [Wrote path (Json c1)]) ++ before), c.
      by rewrite <- !app_assoc.
Qed.

(** One call: the read if there is a file, the prompts, the write. *)
Lemma manual_pos_tag_log toks path w out w' :
  manual_pos_tag toks path w = Some (out, w') → toks ≠ [] →
  ∃ prompts c1,
    events w'
    = events w ++ load_events (files w) path ++ prompts
      ++ [Wrote path (Json c1)]
    ∧ prompts_for toks prompts
    ∧ files w' = <[path := Json c1]> (files w)
    ∧ cache_of (files w) path ⊆ c1
    ∧ dom c1 = dom (cache_of (files w) path) ∪ forms toks
    ∧ ∀ t, t ∈ out → c1 !! lower (tok_of t) = Some (pos_of t).
Proof.
  intros H Hne.
  pose proof (manual_pos_tag_returns _ _ _ _ _ H Hne) as Hobj.
  rewrite (manual_pos_tag_dict _ _ _ Hobj) in H.
  apply bind_Some in H as ([stored' out'] & w2 & Hloop & H).
  pose proof (tag_loop_spec _ _ _ _ _ _ _ Hloop)
    as (new & e1 & Hout & _ & Hf & He1 & _ & _ & Hc & _).
  pose proof (tag_loop_io _ _ _ _ _ _ _ Hloop) as (e2 & _ & _ & _ & Hd).
  apply tag_loop_prompts in Hloop as (e3 & He3 & Hp).
  simpl in *. unfold bind, write_file, ret in H. simpl in H.
  injection H as <- <-. simpl.
  exists e3, stored'. split_and!; try done.
  - by rewrite He3, <- !app_assoc.
  - by rewrite Hf.
  - apply Hc.
  - rewrite Hout. apply Hc.
Qed.

(** The log of a run in manual mode, sentence by sentence, and what each
    write holds. *)
Lemma run_sentences_manual_log sents : ∀ si d path w res w',
  Forall (λ sent, tokenize sent ≠ []) sents →
  run_sentences si sents d (lit "manual") path w = Some (res, w') →
  ∃ logs,
    events w'
    = events w
      ++ sentence_events path (bool_decide (is_Some (files w !! path))) logs
    ∧ length logs = length sents
    ∧ ∀ i sent prompts c,
        sents !! i = Some sent → logs !! i = Some (prompts, c) →
        prompts_for (tokenize sent) prompts
        ∧ cache_of (files w) path ⊆ c
        ∧ dom c = dom (cache_of (files w) path)
                  ∪ forms (take (S i) sents ≫= tokenize)
        ∧ ∀ r, r ∈ concat (take (S i) res) →
               c !! lower (row_tok r) = Some (row_pos r).
Proof.
  induction sents as [|sent rest IH]; intros si d path w res w' Hall H.
  { injection H as <- <-. exists []. rewrite app_nil_r.
    split_and!; try done. }
  apply Forall_cons in Hall as [Hsent Hall].
  simpl in H. apply bind_Some in H as (ts & w1 & Htag & H).
  apply bind_Some in H as (results & w2 & Hrest & H).
  injection H as <- <-.
  apply manual_pos_tag_log in Htag
    as (p1 & c1 & He1 & Hp1 & Hf1 & Hsub1 & Hd1 & Htag1); [|done].
  assert (cache_of (files w1) path = c1) as Hcache.
  { unfold cache_of. by rewrite Hf1, lookup_insert_eq. }
  assert (bool_decide (is_Some (files w1 !! path)) = true) as Hex.
  { apply bool_decide_eq_true_2. rewrite Hf1, lookup_insert_eq. by eexists. }
  apply IH in Hrest as (logs & He2 & Hlen & Hlogs); [|done].
  rewrite Hex in He2. rewrite Hcache in Hlogs.
  assert (∀ r, r ∈ make_row si sent d <$> ts →
               c1 !! lower (row_tok r) = Some (row_pos r)) as Hrows1.
  { intros r (t & -> & Ht)%list_elem_of_fmap.
    rewrite make_row_tok. destruct t as [[tok pos] src]. by apply Htag1 in Ht. }
  exists ((p1, c1) :: logs). split_and!.
  - rewrite He2, He1. cbn [sentence_events]. unfold load_events.
    by rewrite <- !app_assoc.
  - simpl. by rewrite Hlen.
  - intros [|i] s prompts c Hs Hl.
    + injection Hs as <-. injection Hl as <- <-.
      split_and!; try done.
      * cbn [take mbind list_bind]. by rewrite app_nil_r.
      * cbn [take concat]. rewrite app_nil_r. apply Hrows1.
    + cbn [lookup list_lookup] in Hs, Hl.
      destruct (Hlogs i s prompts c Hs Hl) as (Hp & Hsub & Hd & Hrows).
      split_and!; try done.
      * by etrans.
      * rewrite Hd, Hd1. cbn [take mbind list_bind].
        by rewrite forms_app, (assoc_L (∪)).
      * cbn [take concat]. intros r [Hr|Hr]%elem_of_app.
        -- eapply lookup_weaken; [by apply Hrows1|done].
        -- by apply Hrows.
Qed.

Lemma run_manual_spec text d path w res w' :
  run_pipeline text d (lit "manual") path w = Some (res, w') →
  ∃ evs,
    events w' = events w ++ evs
    ∧ write_count evs = length (sentence_segment text)
    ∧ load_count evs ≤ length (sentence_segment text)
    ∧ coherent (cache_of (files w) path) (untag <$> concat res) evs
               (cache_of (files w') path)
    ∧ (valid_cache (cache_of (files w) path) →
       valid_cache (cache_of (files w') path))
    ∧ (sentence_segment text = [] → evs = [] ∧ files w' = files w)
    ∧ (sentence_segment text ≠ [] →
       ∃ before c, evs = before ++ [Wrote path (Json c)]
                   ∧ files w' !! path = Some (Json c)).
Proof.
  apply run_sentences_manual_spec, sentences_have_tokens.
Qed.

Lemma elem_of_concat {A} (x : A) (ls : list (list A)) :
  x ∈ concat ls ↔ ∃ l, x ∈ l ∧ l ∈ ls.
Proof.
  rewrite list_elem_of_In, in_concat. split.
  - intros (l & Hl & Hx). exists l. by rewrite !list_elem_of_In.
  - intros (l & Hx & Hl). exists l. by rewrite <- !list_elem_of_In.
Qed.

Lemma run_rows_made text d mode path w res w' r :
  run_pipeline text d mode path w = Some (res, w') →
  r ∈ concat res →
  ∃ si sent t,
    r = make_row si sent d t
    ∧ sent ∈ sentence_segment text
    ∧ (mode ≠ lit "manual" →
       t = (tok_of t, heuristic_pos (tok_of t), lit "heuristic")).
Proof.
  intros H Hr. apply run_sentences_rows in H.
  apply elem_of_concat in Hr as (rows & Hr & Hrows).
  apply list_elem_of_lookup in Hrows as [i Hi].
  destruct (Forall2_lookup_r _ _ _ _ _ H Hi)
    as (sent & Hsent & si & ts & -> & _ & Hheur).
  apply list_elem_of_fmap in Hr as (t & -> & Ht).
  exists si, sent, t. split_and!; [done|by eapply list_elem_of_lookup_2|].
  intros Hm. rewrite (Hheur Hm) in Ht. unfold heuristic_tags in Ht.
  apply list_elem_of_fmap in Ht as (tok & -> & _). done.
Qed.

(** ** Stop words and the removed flag *)

(** C6. In every row the pipeline produces, in either mode, the removed
    flag is set exactly when the lowercased token is in the stop-word set
    or the row's tag is PUNCT.  Membership is tested on the lowercased
    token, so The, THE and the are all stop words. *)
Theorem removed_flag_iff text d mode path w res w' :
  run_pipeline text d mode path w = Some (res, w') →
  (∀ r, r ∈ concat res →
     row_removed r = true
     ↔ lower (row_tok r) ∈ DEFAULT_STOPWORDS ∨ row_pos r = lit "PUNCT")
  ∧ (∀ r, r ∈ concat res →
       row_tok r ∈ [lit "The"; lit "THE"; lit "the"] → row_removed r = true).
Proof.
  intros H.
  assert (∀ r, r ∈ concat res →
     row_removed r = true
     ↔ lower (row_tok r) ∈ DEFAULT_STOPWORDS ∨ row_pos r = lit "PUNCT")
    as Hiff.
  { intros r Hr.
    destruct (run_rows_made _ _ _ _ _ _ _ _ H Hr) as (si & sent & t & -> & _).
    destruct t as [[tok pos] src]. simpl. unfold is_stopword.
    rewrite orb_true_iff, !bool_decide_eq_true. done. }
  split; [done|].
  intros r Hr Htok. apply Hiff; [done|]. left.
  apply list_elem_of_In in Htok. simpl in Htok.
  destruct Htok as [<-|[<-|[<-|[]]]]; vm_compute; reflexivity.
Qed.

Lemma removed_flag_iff_witness :
  (∀ r, r ∈ concat demo_heuristic_result.1 →
     row_removed r = true
     ↔ lower (row_tok r) ∈ DEFAULT_STOPWORDS ∨ row_pos r = lit "PUNCT")
  ∧ (∀ r, r ∈ concat demo_heuristic_result.1 →
       row_tok r ∈ [lit "The"; lit "THE"; lit "the"] → row_removed r = true).
Proof.
  apply (removed_flag_iff demo_heuristic_text ∅ (lit "heuristic") demo_store
           (World ∅ [] []) _ demo_heuristic_result.2).
  vm_compute. reflexivity.
Defined.

(** ** The tag set *)

Lemma heuristic_pos_valid tok : heuristic_pos tok ∈ VALID_POS.
Proof.
  unfold heuristic_pos.
  repeat match goal with
         | |- context [if ?b then _ else _] => destruct b
         end;
    apply list_elem_of_In; vm_compute; tauto.
Qed.

(** C4, as stated, fails for tags read from a cache file: the tagger emits
    what the file holds for the token, whatever it is. *)
Lemma cached_tag_outside_set :
  let w := World {[ demo_store := Json {[ lit "dog" := lit "FOO" ]} ]} [] [] in
  ∃ res w',
    run_pipeline (lit "dog") ∅ (lit "manual") demo_store w = Some (res, w')
    ∧ row_pos <$> concat res = [lit "FOO"]
    ∧ lit "FOO" ∉ VALID_POS.
Proof.
  intros w.
  destruct (run_pipeline (lit "dog") ∅ (lit "manual") demo_store w)
    as [[res w']|] eqn:E; [|vm_compute in E; discriminate].
  exists res, w'. split; [done|].
  vm_compute in E. injection E as <- <-.
  split; [vm_compute; reflexivity|].
  intros Hin. apply list_elem_of_In in Hin. vm_compute in Hin.
  repeat destruct Hin as [Hin|Hin]; try discriminate. done.
Qed.

(** C4, amended. Every row's tag is in the fixed set in heuristic mode,
    and in manual mode whenever the tags the cache file held before the
    run are in the set: tags computed by the rules, typed by the user or
    set for punctuation are in the set, and cached tags are emitted as
    they are found. *)
Theorem pos_tag_in_set text d mode path w res w' :
  run_pipeline text d mode path w = Some (res, w') →
  (mode = lit "manual" → valid_cache (cache_of (files w) path)) →
  ∀ r, r ∈ concat res → row_pos r ∈ VALID_POS.
Proof.
  intros H Hvalid r Hr.
  destruct (decide (mode = lit "manual")) as [->|Hm].
  - apply run_manual_spec in H as (evs & _ & _ & _ & Hc & Hv & _).
    apply (Hv (Hvalid eq_refl) (lower (row_tok r))).
    apply (coh_tag _ _ _ _ Hc (untag r)).
    apply list_elem_of_fmap. by exists r.
  - destruct (run_rows_made _ _ _ _ _ _ _ _ H Hr)
      as (si & sent & t & -> & _ & Ht).
    rewrite (Ht Hm). apply heuristic_pos_valid.
Qed.

Lemma demo_manual_run :
  run_pipeline demo_manual_text ∅ (lit "manual") demo_store demo_manual_world
  = Some (demo_manual_result.1, demo_manual_result.2).
Proof. vm_compute. reflexivity. Defined.

Lemma pos_tag_in_set_witness :
  Forall (λ r, row_pos r ∈ VALID_POS) (concat demo_manual_result.1).
Proof.
  apply Forall_forall.
  apply (pos_tag_in_set demo_manual_text ∅ (lit "manual") demo_store
           demo_manual_world _ _ demo_manual_run).
  intros _ k v. unfold cache_of, demo_manual_world. simpl.
  rewrite lookup_singleton_eq.
  intros [<- <-]%lookup_singleton_Some.
  apply list_elem_of_In. vm_compute. tauto.
Defined.

(** ** When the cache file is written *)

(** C1, as stated, fails: [manual_pos_tag] is called once per sentence and
    each call ends by writing the file, so a two-sentence document writes
    it twice, the first time before the second sentence is tagged. *)
Lemma cache_written_per_sentence :
  let w := World ∅ [lit "noun"; lit "verb"; lit "noun"; lit "verb"] [] in
  ∃ res w',
    run_pipeline (lit "Dogs bark. Cats nap.") ∅ (lit "manual") demo_store w
    = Some (res, w')
    ∧ write_count (events w') = 2
    ∧ is_write <$> events w'
      = [false; false; true; false; false; false; true].
Proof.
  intros w.
  destruct (run_pipeline (lit "Dogs bark. Cats nap.") ∅ (lit "manual")
              demo_store w) as [[res w']|] eqn:E;
    [|vm_compute in E; discriminate].
  exists res, w'. split; [done|].
  vm_compute in E. injection E as <- <-.
  split; vm_compute; reflexivity.
Qed.

(** C1, amended. In manual mode the cache file is read and written once
    per sentence, not once per document.  The log of a run is, sentence by
    sentence: the read of the cache file (only when there is a file to
    read, which from the second sentence on there always is), the prompts
    for tokens of that sentence, and one write of the whole cache; so the
    write of a sentence comes before anything is done for the next one.
    The cache written at the end of the i-th sentence extends the cache
    the run started from, its keys are the keys of that cache and the
    lowercased forms of the tokens of sentences 1 to i, and it holds the
    tag of every row of sentences 1 to i.  Hence a document of n sentences
    writes the file exactly n times (never once per token) and reads it at
    most n times; when the document has a sentence, the last thing the run
    does is a write, after every sentence has been tagged, of a cache that
    holds the tag of every row. *)
Theorem cache_written_once_per_sentence text d path w res w' :
  run_pipeline text d (lit "manual") path w = Some (res, w') →
  ∃ evs logs,
    events w' = events w ++ evs
    ∧ evs = sentence_events path (bool_decide (is_Some (files w !! path)))
                            logs
    ∧ length logs = length (sentence_segment text)
    ∧ (∀ i sent prompts c,
         sentence_segment text !! i = Some sent →
         logs !! i = Some (prompts, c) →
         prompts_for (tokenize sent) prompts
         ∧ cache_of (files w) path ⊆ c
         ∧ dom c = dom (cache_of (files w) path)
                   ∪ forms (take (S i) (sentence_segment text) ≫= tokenize)
         ∧ ∀ r, r ∈ concat (take (S i) res) →
                c !! lower (row_tok r) = Some (row_pos r))
    ∧ write_count evs = length (sentence_segment text)
    ∧ load_count evs ≤ length (sentence_segment text)
    ∧ (sentence_segment text ≠ [] →
       ∃ before c,
         evs = before ++ [Wrote path (Json c)]
         ∧ files w' !! path = Some (Json c)
         ∧ cache_of (files w) path ⊆ c
         ∧ ∀ r, r ∈ concat res → c !! lower (row_tok r) = Some (row_pos r)).
Proof.
  intros H.
  pose proof (run_sentences_manual_log _ _ _ _ _ _ _
                (sentences_have_tokens text) H) as (logs & He' & Hlen & Hlogs).
  apply run_manual_spec in H as (evs & He & Hw & Hl & Hc & _ & _ & Hlast).
  assert (evs = sentence_events path
                  (bool_decide (is_Some (files w !! path))) logs) as Hevs.
  { apply (app_inv_head (events w)). by rewrite <- He, <- He'. }
  exists evs, logs. split_and!; try done.
  intros Hne. destruct (Hlast Hne) as (before & c & -> & Hf).
  exists before, c. unfold cache_of in Hc at 2. rewrite Hf in Hc.
  split_and!; try done; [apply Hc|].
  intros r Hr. apply (coh_tag _ _ _ _ Hc (untag r)).
  apply list_elem_of_fmap. by exists r.
Qed.

Lemma cache_written_once_per_sentence_witness :
  ∃ evs logs,
    events demo_manual_result.2 = events demo_manual_world ++ evs
    ∧ evs = sentence_events
              demo_store
              (bool_decide (is_Some (files demo_manual_world !! demo_store)))
              logs
    ∧ length logs = length (sentence_segment demo_manual_text)
    ∧ (∀ i sent prompts c,
         sentence_segment demo_manual_text !! i = Some sent →
         logs !! i = Some (prompts, c) →
         prompts_for (tokenize sent) prompts
         ∧ cache_of (files demo_manual_world) demo_store ⊆ c
         ∧ dom c = dom (cache_of (files demo_manual_world) demo_store)
                   ∪ forms (take (S i) (sentence_segment demo_manual_text)
                              ≫= tokenize)
         ∧ ∀ r, r ∈ concat (take (S i) demo_manual_result.1) →
                c !! lower (row_tok r) = Some (row_pos r))
    ∧ write_count evs = length (sentence_segment demo_manual_text)
    ∧ load_count evs ≤ length (sentence_segment demo_manual_text)
    ∧ (sentence_segment demo_manual_text ≠ [] →
       ∃ before c,
         evs = before ++ [Wrote demo_store (Json c)]
         ∧ files demo_manual_result.2 !! demo_store = Some (Json c)
         ∧ cache_of (files demo_manual_world) demo_store ⊆ c
         ∧ ∀ r, r ∈ concat demo_manual_result.1 →
                c !! lower (row_tok r) = Some (row_pos r)).
Proof.
  apply (cache_written_once_per_sentence demo_manual_text ∅ demo_store
           demo_manual_world _ _ demo_manual_run).
Defined.

(** ** Prompting at most once *)

(** C2, as stated, fails on the provenance label: a cache hit is emitted
    with the label manual(cache). *)
Lemma cache_hit_label :
  let w := World ∅ [lit "noun"] [] in
  ∃ res w',
    run_pipeline (lit "Dog dog") ∅ (lit "manual") demo_store w
    = Some (res, w')
    ∧ untag <$> concat res
      = [(lit "Dog", lit "NOUN", lit "manual");
         (lit "dog", lit "NOUN", lit "manual(cache)")]
    ∧ lit "manual(cache)" ≠ lit "manual-cached".
Proof.
  intros w.
  destruct (run_pipeline (lit "Dog dog") ∅ (lit "manual") demo_store w)
    as [[res w']|] eqn:E; [|vm_compute in E; discriminate].
  exists res, w'. split; [done|].
  vm_compute in E. injection E as <- <-.
  split; [vm_compute; reflexivity|]. vm_compute. discriminate.
Qed.

Lemma run_manual_cache_respected text d path w res w' :
  run_pipeline text d (lit "manual") path w = Some (res, w') →
  ∃ evs, cache_respected path w res w' evs.
Proof.
  intros H.
  apply run_manual_spec in H as (evs & He & _ & _ & Hc & _).
  assert (∀ r, r ∈ concat res →
            cache_of (files w') path !! lower (row_tok r) = Some (row_pos r))
    as Hkept.
  { intros r Hr. apply (coh_tag _ _ _ _ Hc (untag r)).
    apply list_elem_of_fmap. by exists r. }
  exists evs. split; try done.
  - apply Hc.
  - apply Hc.
  - intros key [v Hv]. apply prompt_count_zero. intros tok reply Hin <-.
    destruct (coh_prompt _ _ _ _ Hc _ _ Hin) as [Hn _]. congruence.
  - intros r tag Hr Htag. split.
    + pose proof (Hkept r Hr) as Hk.
      pose proof (lookup_weaken _ _ _ _ Htag (coh_grows _ _ _ _ Hc)).
      congruence.
    + apply (coh_hit _ _ _ _ Hc (untag r)); [|by eexists].
      apply list_elem_of_fmap. by exists r.
  - intros i j r1 r2 Hij Hi Hj Hk. split.
    + pose proof (Hkept r1 (list_elem_of_lookup_2 _ _ _ Hi)) as H1.
      pose proof (Hkept r2 (list_elem_of_lookup_2 _ _ _ Hj)) as H2.
      rewrite Hk in H1. congruence.
    + apply (coh_again _ _ _ _ Hc i j (untag r1) (untag r2)); try done.
      * by rewrite list_lookup_fmap, Hi.
      * by rewrite list_lookup_fmap, Hj.
Qed.

(** C2, amended. In manual mode the user is asked at most once about a
    lowercased form in one run, and not at all about a form the cache file
    already holds; a token whose form occurred earlier in the run, or is
    in the cache file, is emitted with the cached tag and the provenance
    label manual(cache).  The cache file a run leaves holds the tag of every
    token of that run, so in a later run against the same cache file those
    forms are cache hits again: over both runs each form is asked about at
    most once. *)
Theorem manual_prompts_once text1 d1 text2 d2 path w res1 w1 w1' res2 w2 :
  run_pipeline text1 d1 (lit "manual") path w = Some (res1, w1) →
  cache_of (files w1') path = cache_of (files w1) path →
  run_pipeline text2 d2 (lit "manual") path w1' = Some (res2, w2) →
  ∃ evs1 evs2,
    cache_respected path w res1 w1 evs1
    ∧ cache_respected path w1' res2 w2 evs2
    ∧ (∀ key, prompt_count key evs1 + prompt_count key evs2 ≤ 1)
    ∧ (∀ r1 r2, r1 ∈ concat res1 → r2 ∈ concat res2 →
         lower (row_tok r1) = lower (row_tok r2) →
         row_pos r2 = row_pos r1 ∧ row_src r2 = CACHED).
Proof.
  intros H1 Hsame H2.
  destruct (run_manual_cache_respected _ _ _ _ _ _ H1) as (evs1 & C1).
  destruct (run_manual_cache_respected _ _ _ _ _ _ H2) as (evs2 & C2).
  pose proof (run_manual_spec _ _ _ _ _ _ H1)
    as (evs1' & He1 & _ & _ & Hc1 & _).
  assert (evs1' = evs1) as ->.
  { apply (app_inv_head (events w)). rewrite <- He1. apply C1. }
  exists evs1, evs2. split_and!; try done.
  - intros key. pose proof (cr_once _ _ _ _ _ C1 key).
    pose proof (cr_once _ _ _ _ _ C2 key).
    destruct (prompt_count key evs1) as [|n] eqn:E; [lia|].
    rewrite (cr_known _ _ _ _ _ C2 key); [lia|].
    destruct (prompt_count_pos key evs1) as (tok & reply & Hin & <-); [lia|].
    rewrite Hsame. apply (coh_prompt _ _ _ _ Hc1 _ _ Hin).
  - intros r1 r2 Hr1 Hr2 Hk.
    apply (cr_hit _ _ _ _ _ C2 r2 (row_pos r1) Hr2).
    rewrite Hsame, <- Hk. by apply C1.
Qed.

Lemma demo_second_run :
  run_pipeline demo_second_text ∅ (lit "manual") demo_store demo_second_world
  = Some (demo_second_result.1, demo_second_result.2).
Proof. vm_compute. reflexivity. Defined.

Lemma manual_prompts_once_witness :
  ∃ evs1 evs2,
    cache_respected demo_store demo_manual_world demo_manual_result.1
                    demo_manual_result.2 evs1
    ∧ cache_respected demo_store demo_second_world demo_second_result.1
                      demo_second_result.2 evs2
    ∧ (∀ key, prompt_count key evs1 + prompt_count key evs2 ≤ 1)
    ∧ (∀ r1 r2, r1 ∈ concat demo_manual_result.1 →
         r2 ∈ concat demo_second_result.1 →
         lower (row_tok r1) = lower (row_tok r2) →
         row_pos r2 = row_pos r1 ∧ row_src r2 = CACHED).
Proof.
  apply (manual_prompts_once demo_manual_text ∅ demo_second_text ∅ demo_store
           demo_manual_world _ _ demo_second_world _ _
           demo_manual_run eq_refl demo_second_run).
Defined.

(** ** Replies outside the tag set *)

(** C9, as stated, fails: the reply is stripped and upper-cased before it
    is compared with the tag set, so the reply noun, which is not one of
    the labels, is accepted as NOUN instead of being turned into OTHER. *)
Lemma lowercase_reply_accepted :
  let w := World ∅ [lit "noun"] [] in
  (lit "noun" ∉ VALID_POS)
  ∧ (∃ w', manual_pos_tag [lit "dog"] demo_store w
           = Some ([(lit "dog", lit "NOUN", lit "manual")], w')
           ∧ cache_of (files w') demo_store !! lit "dog"
             = Some (lit "NOUN")).
Proof.
  intros w. split.
  - intros Hin. apply list_elem_of_In in Hin. vm_compute in Hin.
    repeat destruct Hin as [Hin|Hin]; try discriminate. done.
  - destruct (manual_pos_tag [lit "dog"] demo_store w) as [[out w']|] eqn:E;
      [|vm_compute in E; discriminate].
    vm_compute in E. injection E as <- <-.
    eexists. split; [reflexivity|]. vm_compute. reflexivity.
Qed.

(** C9, amended. When a token is prompted for (it is not in the cache and
    is not a single punctuation character) and the reply, stripped of
    surrounding white space and upper-cased, is outside the tag set, the
    tagger consumes that one reply, records OTHER for the token in the
    cache, emits the token with tag OTHER and provenance manual, and goes
    on with the next token: it does not ask again.  A call on that one
    token, when the cache file is absent, holds a JSON object of strings
    or is not a JSON document, therefore returns that single entry and
    leaves OTHER in the cache file.  (On a cache file holding a JSON
    document of another shape the call raises at its first token.) *)
Theorem invalid_reply_becomes_other tok rest stored out w reply more path :
  stored !! lower tok = None →
  fullmatch RE_PUNCT tok = false →
  stdin w = reply :: more →
  upper (strip reply) ∉ VALID_POS →
  tag_loop (tok :: rest) stored out w
  = tag_loop rest (<[lower tok := lit "OTHER"]> stored)
             (out ++ [(tok, lit "OTHER", lit "manual")])
             (World (files w) more (events w ++ [Prompted tok reply]))
  ∧ (stored = cache_of (files w) path →
     object_or_unreadable (files w) path →
     ∃ evs,
       manual_pos_tag [tok] path w
       = Some ([(tok, lit "OTHER", lit "manual")],
               World (<[path := Json (<[lower tok := lit "OTHER"]> stored)]>
                        (files w))
                     more (events w ++ evs))
       ∧ prompt_count (lower tok) evs = 1)
  ∧ (∀ v, files w !! path = Some (Other v) →
          manual_pos_tag (tok :: rest) path w = None).
Proof.
  intros Hnew Hp Hin Hbad.
  assert (choice_of reply = lit "OTHER") as Hch.
  { unfold choice_of. by rewrite bool_decide_eq_false_2. }
  split.
  { rewrite (tag_loop_prompt _ _ _ _ _ _ _ Hnew Hp Hin). by rewrite Hch. }
  split.
  - intros -> Hobj. rewrite (manual_pos_tag_dict _ _ _ Hobj).
    destruct (load_events_counts (files w) path) as (_ & _ & Hnp).
    set (e0 := load_events (files w) path) in *.
    unfold bind at 1.
    rewrite (tag_loop_prompt tok [] _ []
               (World (files w) (stdin w) (events w ++ e0)) reply more
               Hnew Hp Hin).
    rewrite Hch. simpl. unfold bind, write_file, ret. simpl.
    eexists. split.
    + rewrite <- !app_assoc. reflexivity.
    + rewrite !prompt_count_app.
      rewrite (prompt_count_zero _ e0)
        by (intros ?? Hi; by destruct (Hnp _ _ Hi)).
      unfold prompt_count. simpl. by rewrite bool_decide_eq_true_2.
  - intros v Hv. unfold manual_pos_tag, bind at 1.
    rewrite load_store_spec. unfold stored_of. by rewrite Hv.
Qed.

Lemma invalid_reply_becomes_other_witness :
  let w := World ∅ [lit "a verb"; lit "noun"] [] in
  tag_loop [lit "chase"; lit "cats"] ∅ [] w
  = tag_loop [lit "cats"] (<[lit "chase" := lit "OTHER"]> ∅)
             [(lit "chase", lit "OTHER", lit "manual")]
             (World ∅ [lit "noun"] [Prompted (lit "chase") (lit "a verb")])
  ∧ ∃ evs,
      manual_pos_tag [lit "chase"] demo_store w
      = Some ([(lit "chase", lit "OTHER", lit "manual")],
              World (<[demo_store := Json (<[lit "chase" := lit "OTHER"]> ∅)]>
                       ∅)
                    [lit "noun"] ([] ++ evs))
      ∧ prompt_count (lit "chase") evs = 1.
Proof.
  intros w.
  destruct (invalid_reply_becomes_other (lit "chase") [lit "cats"] ∅ []
              w (lit "a verb") [lit "noun"] demo_store) as (H1 & H2 & _).
  - apply lookup_empty.
  - vm_compute. reflexivity.
  - reflexivity.
  - intros Hin. apply list_elem_of_In in Hin. vm_compute in Hin.
    repeat destruct Hin as [Hin|Hin]; try discriminate. done.
  - split; [exact H1|]. apply H2.
    + reflexivity.
    + intros v. unfold w. cbn [files]. by rewrite lookup_empty.
Defined.

(** ** Every sentence has rows *)

Lemma tsv_lines_total res :
  Forall (λ rows : list row, rows ≠ []) res → is_Some (tsv_lines res).
Proof.
  induction 1 as [|rows res Hrows _ [lines IH]]; [by eexists|].
  simpl. destruct rows as [|first rows]; [done|]. rewrite IH. by eexists.
Qed.

(** C10. Every sentence the segmenter produces has a character that is
    not white space, so the tokenizer finds at least one token in it.
    Hence every list of rows the pipeline builds for a sentence is
    non-empty, in either mode, and the report writer, which reads the
    first row of each list, does not fail.  (In heuristic mode the
    pipeline always returns.) *)
Theorem sentence_rows_non_empty text d mode path w :
  (∀ s, s ∈ sentence_segment text → has_non_space s ∧ tokenize s ≠ [])
  ∧ (mode ≠ lit "manual" →
     ∃ res, run_pipeline text d mode path w = Some (res, w))
  ∧ (∀ res w', run_pipeline text d mode path w = Some (res, w') →
       Forall (λ rows, rows ≠ []) res
       ∧ is_Some (tsv_lines res)
       ∧ ∀ out_path, is_Some (write_tsv res out_path w')).
Proof.
  assert (∀ s, s ∈ sentence_segment text →
               has_non_space s ∧ tokenize s ≠ []) as Hsent.
  { intros s Hs. pose proof (sentence_has_non_space _ _ Hs).
    split; [done|by apply tokenize_non_empty]. }
  split; [done|].
  split; [apply run_sentences_heuristic_total|].
  intros res w' H.
  assert (Forall (λ rows : list row, rows ≠ []) res) as Hrows.
  { apply run_sentences_rows in H. apply Forall_lookup. intros i rows Hi.
    destruct (Forall2_lookup_r _ _ _ _ _ H Hi)
      as (sent & Hsent' & si & ts & -> & Htok & _).
    apply list_elem_of_lookup_2 in Hsent'.
    destruct (Hsent _ Hsent') as [_ Hne].
    intros E. apply fmap_nil_inv in E. subst ts. by rewrite <- Htok in Hne. }
  split; [done|].
  destruct (tsv_lines_total _ Hrows) as [lines Hl].
  split; [by exists lines|].
  intros out_path. unfold write_tsv. rewrite Hl. by eexists.
Qed.

(** ** The scenarios of the specification *)

Example scenario_two_sentences :
  sentence_segment
    (lit "NLP helps computers understand text. It is widely used.")
  = [lit "NLP helps computers understand text."; lit "It is widely used."]
  ∧ tokenize (lit "NLP helps computers understand text.")
    = lit <$> ["NLP"; "helps"; "computers"; "understand"; "text"; "."]%string
  ∧ lemmatize_token (lit "helps") ∅ = lit "help"
  ∧ lemmatize_token (lit "computers") ∅ = lit "computer"
  ∧ heuristic_pos (lit "text") = lit "NOUN"
  ∧ heuristic_pos (lit ".") = lit "PUNCT"
  ∧ heuristic_pos (lit "widely") = lit "ADV"
  ∧ is_stopword (lit "It") = true ∧ is_stopword (lit "is") = true.
Proof. repeat split; vm_compute; reflexivity. Qed.

Example scenario_empty_input :
  sentence_segment [] = []
  ∧ sentence_segment [SPACE; NEWLINE; TAB] = []
  ∧ tsv_lines [] = Some [].
Proof. repeat split; vm_compute; reflexivity. Qed.

Example scenario_tokens :
  tokenize (lit "It's 3.14 o'clock, don't. a.b 3. x")
  = lit <$> ["It's"; "3.14"; "o'clock"; ","; "don't"; "."; "a"; "."; "b";
             "3"; "."; "x"]%string.
Proof. vm_compute. reflexivity. Qed.

Example scenario_no_cut_without_capital :
  sentence_segment (lit "e.g. this is one.  And   this    another? yes")
  = [lit "e.g. this is one."; lit "And this another? yes"].
Proof. vm_compute. reflexivity. Qed.

(** * Further properties of the code *)

(** ** Tokenizer: what a token is made of *)

Lemma forallb_take_run p s : forallb p (take (run p s) s) = true.
Proof.
  induction s as [|c s IH]; [done|]. simpl.
  destruct (p c) eqn:E; [|done]. simpl. by rewrite E, IH.
Qed.

Lemma forallb_impl {A} (p q : A → bool) l :
  (∀ a, p a = true → q a = true) → forallb p l = true → forallb q l = true.
Proof.
  intros H. induction l as [|a l IH]; [done|]. simpl.
  intros [Ha Hl]%andb_true_iff. by rewrite (H a Ha), IH.
Qed.

(** A match of [p+(?:sep p+)?] lies within the text and consists of
    characters of [p] and possibly one [sep]. *)
Lemma run_opt_run_within q p sep s n :
  (∀ c, p c = true → q c = true) → q sep = true →
  run_opt_run p sep s = Some n →
  n ≤ length s ∧ forallb q (take n s) = true.
Proof.
  intros Hpq Hsep. unfold run_opt_run.
  pose proof (run_le p s) as Hle.
  pose proof (forallb_impl _ _ _ Hpq (forallb_take_run p s)) as Hrun.
  destruct (run p s =? 0); [done|].
  destruct (drop (run p s) s) as [|c t] eqn:Ed.
  { by intros [= <-]. }
  destruct (bool_decide (c = sep) && negb (run p t =? 0)) eqn:Eg.
  2: { by intros [= <-]. }
  intros [= <-]. apply andb_true_iff in Eg as [->%bool_decide_eq_true _].
  assert (s = take (run p s) s ++ sep :: t) as Hs.
  { by rewrite <- Ed, take_drop. }
  assert (length (take (run p s) s) = run p s) as Hlen.
  { rewrite length_take. lia. }
  pose proof (run_le p t) as Hlt.
  split.
  - rewrite Hs at 2. rewrite length_app. simpl. lia.
  - rewrite Hs at 2.
    rewrite take_app_ge by lia. rewrite Hlen.
    replace (run p s + 1 + run p t - run p s) with (S (run p t)) by lia.
    rewrite forallb_app, Hrun. simpl. rewrite Hsep. simpl.
    apply (forallb_impl _ _ _ Hpq), forallb_take_run.
Qed.

Lemma letter_non_space c : is_letter c = true → non_space c = true.
Proof. each_char c; vm_compute; congruence. Qed.

Lemma digit_non_space c : is_digit c = true → non_space c = true.
Proof. each_char c; vm_compute; congruence. Qed.

(** Where [TOKEN_RE] matches, the match is not empty, lies within the
    text and has no white space in it. *)
Lemma token_re_match prev s n :
  TOKEN_RE prev s = Some n →
  0 < n ≤ length s ∧ forallb non_space (take n s) = true.
Proof.
  unfold TOKEN_RE, alt.
  destruct (RE_WORD prev s) as [m|] eqn:E1.
  { intros [= <-]. destruct (run_opt_run_pos _ _ _ _ E1) as [k ->].
    destruct (run_opt_run_within non_space is_letter "'"%char s (S k)
                letter_non_space eq_refl E1). split; [lia|done]. }
  destruct (RE_NUMBER prev s) as [m|] eqn:E2.
  { intros [= <-]. destruct (run_opt_run_pos _ _ _ _ E2) as [k ->].
    destruct (run_opt_run_within non_space is_digit "."%char s (S k)
                digit_non_space eq_refl E2). split; [lia|done]. }
  unfold RE_NONSPACE. destruct s as [|c s]; [done|]. simpl.
  fold (non_space c). destruct (non_space c) eqn:Hc; [|done].
  intros [= <-]. simpl. rewrite Hc. split; [lia|done].
Qed.

(** Whatever holds of every match of a pattern holds of every item the
    scan records. *)
Lemma scan_matched (re : regex) (P : str → Prop) :
  (∀ prev c s k, re prev (c :: s) = Some (S k) → P (take (S k) (c :: s))) →
  ∀ s skip prev m, Matched m ∈ scan re skip prev s → P m.
Proof.
  intros HP. induction s as [|c s IH]; intros skip prev m Hm.
  { by apply elem_of_nil in Hm. }
  destruct skip as [|k]; cbn [scan] in Hm; [|by eapply IH].
  destruct (re prev (c :: s)) as [[|k]|] eqn:E.
  - apply elem_of_cons in Hm as [[=]|Hm]. by eapply IH.
  - apply elem_of_cons in Hm as [[= ->]|Hm]; [by eapply HP|by eapply IH].
  - apply elem_of_cons in Hm as [[=]|Hm]. by eapply IH.
Qed.

Lemma elem_of_findall re s m :
  m ∈ findall re s ↔ Matched m ∈ scan re 0 None s.
Proof.
  unfold findall. rewrite list_elem_of_omap. split.
  - intros ([c|m'] & Hin & E); [done|]. by injection E as ->.
  - intros H. by exists (Matched m).
Qed.

Lemma token_non_space s tok :
  tok ∈ tokenize s → tok ≠ [] ∧ forallb non_space tok = true.
Proof.
  intros H. apply elem_of_findall in H. revert H.
  apply (scan_matched TOKEN_RE (λ m, m ≠ [] ∧ forallb non_space m = true)).
  intros prev c s' k E. apply token_re_match in E as [_ E]. done.
Qed.

Lemma filter_all_true {A} (p : A → bool) l :
  forallb p l = true → List.filter p l = l.
Proof.
  induction l as [|a l IH]; [done|]. simpl.
  intros [Ha Hl]%andb_true_iff. by rewrite Ha, IH.
Qed.

Lemma scan_tokens_concat s : ∀ skip prev,
  skip ≤ length s →
  concat (omap matched_text (scan TOKEN_RE skip prev s))
  = List.filter non_space (drop skip s).
Proof.
  induction s as [|c s IH]; intros skip prev Hskip.
  { by rewrite drop_nil. }
  destruct skip as [|k]; cbn [scan].
  2: { simpl in Hskip. apply IH. lia. }
  rewrite drop_0.
  destruct (TOKEN_RE prev (c :: s)) as [n|] eqn:E.
  - destruct (token_re_match _ _ _ E) as [[Hpos Hle] Hall].
    destruct n as [|k]; [lia|]. simpl in Hle.
    cbn [omap list_omap matched_text concat].
    rewrite IH by lia.
    rewrite <- (take_drop (S k) (c :: s)) at 2.
    rewrite List.filter_app, (filter_all_true _ _ Hall). done.
  - destruct (is_space c) eqn:Hc.
    + cbn [omap list_omap matched_text]. rewrite IH by lia.
      rewrite drop_0. simpl. unfold non_space at 2. by rewrite Hc.
    + destruct (token_re_non_space prev c s Hc) as [k Hk]. congruence.
Qed.

Lemma tokenize_concat s :
  concat (tokenize s) = List.filter non_space s.
Proof.
  unfold tokenize, findall. fold matched_text.
  rewrite (scan_tokens_concat s 0 None) by lia. by rewrite drop_0.
Qed.

(** ** Tokenizer: white space separates *)

Lemma run_app_stop p a c b : p c = false → run p (a ++ c :: b) = run p a.
Proof.
  intros Hc. induction a as [|x a IH]; simpl; [by rewrite Hc|].
  destruct (p x); [by rewrite IH|done].
Qed.

Lemma run_app_all p a b :
  forallb p a = true → run p (a ++ b) = length a + run p b.
Proof.
  induction a as [|x a IH]; [done|]. simpl.
  intros [Hx Ha]%andb_true_iff. by rewrite Hx, IH.
Qed.

(** A match of [p+(?:sep p+)?] does not look beyond a character that is
    neither in [p] nor [sep]. *)
Lemma run_opt_run_local p sep a c b :
  p c = false → c ≠ sep →
  run_opt_run p sep (a ++ c :: b) = run_opt_run p sep a.
Proof.
  intros Hc Hsep. unfold run_opt_run. rewrite (run_app_stop _ _ _ _ Hc).
  destruct (run p a =? 0); [done|].
  pose proof (run_le p a) as Hle.
  rewrite drop_app_le by done.
  destruct (drop (run p a) a) as [|x t]; simpl.
  - by rewrite bool_decide_eq_false_2.
  - by rewrite (run_app_stop _ _ _ _ Hc).
Qed.

Lemma space_not_letter c : is_space c = true → is_letter c = false.
Proof. each_char c; vm_compute; congruence. Qed.

Lemma space_not_digit c : is_space c = true → is_digit c = false.
Proof. each_char c; vm_compute; congruence. Qed.

(** What [TOKEN_RE] finds at a position does not depend on anything after
    the next white space character. *)
Lemma token_re_local prev prev' a c b :
  is_space c = true →
  TOKEN_RE prev (a ++ c :: b) = TOKEN_RE prev' a.
Proof.
  intros Hc. unfold TOKEN_RE, alt, RE_WORD, RE_NUMBER.
  rewrite (run_opt_run_local is_letter), (run_opt_run_local is_digit).
  - destruct (run_opt_run is_letter _ a); [done|].
    destruct (run_opt_run is_digit _ a); [done|].
    unfold RE_NONSPACE. destruct a as [|x a]; [|done]. simpl. by rewrite Hc.
  - by apply space_not_digit.
  - intros ->. done.
  - by apply space_not_letter.
  - intros ->. done.
Qed.

Lemma token_re_prev prev prev' s : TOKEN_RE prev s = TOKEN_RE prev' s.
Proof. done. Qed.

Lemma scan_token_prev s : ∀ skip prev prev',
  scan TOKEN_RE skip prev s = scan TOKEN_RE skip prev' s.
Proof.
  induction s as [|c s IH]; intros skip prev prev'; [done|].
  destruct skip as [|k]; cbn [scan]; [|apply IH].
  rewrite (token_re_prev prev prev'). done.
Qed.

Lemma scan_tokens_app_space a c b : ∀ skip prev,
  is_space c = true → skip ≤ length a →
  omap matched_text (scan TOKEN_RE skip prev (a ++ c :: b))
  = omap matched_text (scan TOKEN_RE skip prev a)
    ++ omap matched_text (scan TOKEN_RE 0 None b).
Proof.
  intros skip prev Hc. revert skip prev.
  induction a as [|x a IH]; intros skip prev Hskip.
  - simpl in Hskip. assert (skip = 0) as -> by lia.
    pose proof (token_re_local prev prev [] c b Hc) as H0.
    cbn [app] in H0. change (TOKEN_RE prev []) with (@None nat) in H0.
    cbn [app scan]. rewrite H0. cbn [omap list_omap matched_text app].
    by rewrite (scan_token_prev b 0 (Some c) None).
  - destruct skip as [|k]; cbn [app scan].
    2: { simpl in Hskip. apply IH. lia. }
    change (x :: a ++ c :: b) with ((x :: a) ++ c :: b).
    rewrite (token_re_local prev prev (x :: a) c b Hc).
    destruct (TOKEN_RE prev (x :: a)) as [n|] eqn:E.
    + destruct (token_re_match _ _ _ E) as [[Hpos Hle] _].
      destruct n as [|k]; [lia|]. simpl in Hle.
      cbn [omap list_omap matched_text]. rewrite IH by lia.
      rewrite take_app_le by (simpl; lia). done.
    + cbn [omap list_omap matched_text]. apply IH. lia.
Qed.

Lemma tokenize_at_space a c b :
  is_space c = true → tokenize (a ++ c :: b) = tokenize a ++ tokenize b.
Proof.
  intros Hc. unfold tokenize, findall. fold matched_text.
  apply scan_tokens_app_space; [done|lia].
Qed.

(** ** Tokenizer: tokenizing tokens again *)

Lemma run_take_run p s : run p (take (run p s) s) = run p s.
Proof.
  pose proof (run_le p s).
  rewrite <- (app_nil_r (take (run p s) s)).
  rewrite run_app_all by apply forallb_take_run.
  rewrite length_take. simpl. lia.
Qed.

Lemma run_take_zero p s n : run p s = 0 → run p (take n s) = 0.
Proof.
  destruct s as [|c s], n as [|n]; try done. simpl. by destruct (p c).
Qed.

Lemma run_opt_run_none p sep s :
  run_opt_run p sep s = None ↔ run p s = 0.
Proof.
  unfold run_opt_run. destruct (run p s) as [|r]; [done|]. simpl.
  destruct (drop (S r) s) as [|c t]; [done|].
  by destruct (bool_decide (c = sep) && negb (run p t =? 0)).
Qed.

(** The text of a match of [p+(?:sep p+)?], taken alone, is matched
    whole. *)
Lemma run_opt_run_take p sep s n :
  p sep = false →
  run_opt_run p sep s = Some n → run_opt_run p sep (take n s) = Some n.
Proof.
  intros Hsep. unfold run_opt_run.
  pose proof (run_le p s) as Hle.
  destruct (run p s) as [|r] eqn:Er; [done|]. simpl.
  assert (run p (take (S r) s) = S r) as Hrun.
  { rewrite <- Er. apply run_take_run. }
  assert (length (take (S r) s) = S r) as Hlen.
  { rewrite length_take. lia. }
  destruct (drop (S r) s) as [|c t] eqn:Ed.
  { intros [= <-]. rewrite Hrun. simpl.
    rewrite drop_ge by lia. done. }
  destruct (bool_decide (c = sep) && negb (run p t =? 0)) eqn:Eg.
  2: { intros [= <-]. rewrite Hrun. simpl. rewrite drop_ge by lia. done. }
  intros [= <-]. apply andb_true_iff in Eg as [->%bool_decide_eq_true Hm].
  assert (take (S (r + 1 + run p t)) s
          = take (S r) s ++ sep :: take (run p t) t) as ->.
  { rewrite <- (take_drop (S r) s) at 1. rewrite Ed.
    rewrite take_app_ge by lia. rewrite Hlen.
    replace (S (r + 1 + run p t) - S r) with (S (run p t)) by lia. done. }
  rewrite run_app_all by (rewrite <- Er; apply forallb_take_run).
  rewrite Hlen. cbn [run]. rewrite Hsep, Nat.add_0_r.
  change (S r =? 0) with false. cbn iota.
  rewrite drop_app_length' by done.
  rewrite bool_decide_eq_true_2 by done. rewrite run_take_run, Hm.
  done.
Qed.

(** The text of a match of [TOKEN_RE], taken alone, is matched whole. *)
Lemma token_re_take prev prev' s n :
  TOKEN_RE prev s = Some n → TOKEN_RE prev' (take n s) = Some n.
Proof.
  unfold TOKEN_RE, alt, RE_WORD, RE_NUMBER.
  destruct (run_opt_run is_letter "'" s) as [m|] eqn:E1.
  { intros [= <-]. by rewrite (run_opt_run_take _ _ _ _ eq_refl E1). }
  apply run_opt_run_none in E1.
  assert (run_opt_run is_letter "'" (take n s) = None) as ->.
  { apply run_opt_run_none. by apply run_take_zero. }
  destruct (run_opt_run is_digit "." s) as [m|] eqn:E2.
  { intros [= <-]. by rewrite (run_opt_run_take _ _ _ _ eq_refl E2). }
  apply run_opt_run_none in E2.
  assert (run_opt_run is_digit "." (take n s) = None) as ->.
  { apply run_opt_run_none. by apply run_take_zero. }
  unfold RE_NONSPACE. destruct s as [|c s]; [done|]. simpl.
  destruct (negb (is_space c)) eqn:Hc; [|done].
  intros [= <-]. simpl. by rewrite Hc.
Qed.

Lemma scan_skip_all re s : ∀ skip prev,
  length s ≤ skip → scan re skip prev s = [].
Proof.
  induction s as [|c s IH]; intros skip prev H; [done|].
  destruct skip as [|k]; simpl in H; [lia|]. cbn [scan]. apply IH. lia.
Qed.

Lemma token_alone s tok : tok ∈ tokenize s → tokenize tok = [tok].
Proof.
  intros H. apply elem_of_findall in H. revert H.
  apply (scan_matched TOKEN_RE (λ m, tokenize m = [m])).
  intros prev c s' k E.
  destruct (token_re_match _ _ _ E) as [[_ Hle] _].
  pose proof (token_re_take prev None _ _ E) as Hself.
  assert (length (take (S k) (c :: s')) = S k) as Hlen.
  { rewrite length_take. lia. }
  unfold tokenize, findall. cbn [take] in *. cbn [scan]. rewrite Hself.
  cbn [omap list_omap]. rewrite scan_skip_all.
  - cbn [omap list_omap]. f_equal. apply take_ge. simpl in *. lia.
  - simpl in Hlen. lia.
Qed.

Lemma tokenize_join (ts : list str) :
  tokenize (join [SPACE] ts) = ts ≫= tokenize.
Proof.
  induction ts as [|t ts IH]; [done|].
  destruct ts as [|t' ts'].
  { simpl. by rewrite app_nil_r. }
  rewrite join_cons by done. cbn [app].
  rewrite tokenize_at_space by done. by rewrite IH.
Qed.

(** Tokenizing is idempotent on its own output: the tokens of a text, put
    one space apart and tokenized again, are the same tokens. *)
Theorem tokenize_tokens_again s :
  tokenize (join [SPACE] (tokenize s)) = tokenize s.
Proof.
  rewrite tokenize_join.
  assert (Forall (λ t, tokenize t = [t]) (tokenize s)) as H.
  { apply Forall_forall. intros t. apply token_alone. }
  induction H as [|t ts Ht _ IH]; [done|].
  cbn [mbind list_bind]. by rewrite Ht, IH.
Qed.

(** ** Words, sentences and tokens *)

Lemma words_word_app u c s :
  u ≠ [] → forallb non_space u = true → is_space c = true →
  words (u ++ c :: s) = u :: words s.
Proof.
  intros Hu Hall Hc. induction u as [|x u IH]; [done|].
  simpl in Hall. apply andb_true_iff in Hall as [Hx Hall].
  assert (is_space x = false) as Hx'.
  { unfold non_space in Hx. by destruct (is_space x). }
  cbn [app]. rewrite (words_cons_nonspace _ _ Hx').
  destruct u as [|y u].
  - cbn [app head_in]. rewrite (words_cons_space _ _ Hc).
    unfold non_space. by rewrite Hc.
  - rewrite IH by done. cbn [app head_in].
    simpl in Hall. apply andb_true_iff in Hall as [Hy _]. by rewrite Hy.
Qed.

Lemma words_word u :
  u ≠ [] → forallb non_space u = true → words u = [u].
Proof.
  intros Hu Hall. induction u as [|x u IH]; [done|].
  simpl in Hall. apply andb_true_iff in Hall as [Hx Hall].
  assert (is_space x = false) as Hx'.
  { unfold non_space in Hx. by destruct (is_space x). }
  rewrite (words_cons_nonspace _ _ Hx').
  destruct u as [|y u]; [done|].
  rewrite IH by done. cbn [head_in].
  simpl in Hall. apply andb_true_iff in Hall as [Hy _]. by rewrite Hy.
Qed.

(** The words of words put one space apart are those words. *)
Lemma words_join ws :
  Forall is_word_str ws → words (join [SPACE] ws) = ws.
Proof.
  induction 1 as [|w ws [Hne Hall] Hws IH]; [done|].
  destruct ws as [|w' ws'].
  { simpl. by apply words_word. }
  rewrite join_cons by done. cbn [app].
  rewrite words_word_app by done. by rewrite IH.
Qed.

Lemma normalize_idemp text : normalize (normalize text) = normalize text.
Proof.
  rewrite (normalize_words (normalize text)), (normalize_words text).
  rewrite words_join by apply words_wf. done.
Qed.

Lemma run_stop p s c t : drop (run p s) s = c :: t → p c = false.
Proof.
  induction s as [|x s IH]; [done|]. simpl.
  destruct (p x) eqn:E; simpl; [done|]. by intros [= <- _].
Qed.

(** Induction on a text word by word. *)
Lemma str_word_ind (P : str → Prop) :
  P [] →
  (∀ c s, is_space c = true → P s → P (c :: s)) →
  (∀ u, u ≠ [] → forallb non_space u = true → P u) →
  (∀ u c s, u ≠ [] → forallb non_space u = true → is_space c = true →
            P s → P (u ++ c :: s)) →
  ∀ s, P s.
Proof.
  intros Hnil Hsp Hw Hwa.
  assert (∀ n s, length s < n → P s) as H.
  { induction n as [|n IH]; intros s Hlen; [lia|].
    destruct s as [|c s]; [done|]. simpl in Hlen.
    destruct (is_space c) eqn:Hc.
    { apply Hsp; [done|]. apply IH. lia. }
    set (s0 := c :: s).
    pose proof (take_drop (run non_space s0) s0) as Hs0.
    pose proof (forallb_take_run non_space s0) as Hall.
    assert (take (run non_space s0) s0 ≠ []) as Hne.
    { unfold s0. simpl. unfold non_space at 1. by rewrite Hc. }
    destruct (drop (run non_space s0) s0) as [|c' t] eqn:Ed.
    - rewrite app_nil_r in Hs0. rewrite <- Hs0. by apply Hw.
    - rewrite <- Hs0. apply Hwa; try done.
      + apply run_stop in Ed. unfold non_space in Ed.
        by destruct (is_space c').
      + apply IH. apply (f_equal length) in Hs0.
        rewrite length_app in Hs0. unfold s0 in Hs0. simpl in Hs0. lia. }
  intros s. apply (H (S (length s))). lia.
Qed.

(** The tokens of a text are the tokens of its words. *)
Lemma tokenize_words s : tokenize s = words s ≫= tokenize.
Proof.
  induction s as [|c s Hc IH|u Hu Hall|u c s Hu Hall Hc IH] using str_word_ind.
  - done.
  - rewrite (words_cons_space _ _ Hc).
    pose proof (tokenize_at_space [] c s Hc) as H0.
    cbn [app] in H0. by rewrite H0.
  - rewrite (words_word _ Hu Hall). simpl. by rewrite app_nil_r.
  - rewrite (words_word_app _ _ _ Hu Hall Hc).
    rewrite (tokenize_at_space _ _ _ Hc), IH. done.
Qed.

Lemma tokenize_normalize text : tokenize (normalize text) = tokenize text.
Proof.
  by rewrite normalize_words, tokenize_join, <- tokenize_words.
Qed.

Lemma sentence_segment_join text :
  join [SPACE] (sentence_segment text) = normalize text.
Proof.
  rewrite sentence_segment_split. case_bool_decide as Hn; [by rewrite Hn|].
  apply split_join, normalize_spaced.
Qed.

Lemma segment_tokens text :
  sentence_segment text ≫= tokenize = tokenize text.
Proof.
  by rewrite <- tokenize_join, sentence_segment_join, tokenize_normalize.
Qed.

(** Segmenting is idempotent on its own output, and looks at the text only
    through its words: the sentences, put one space apart and segmented
    again, are the same sentences, and two texts with the same words have
    the same sentences. *)
Theorem sentence_segment_again text :
  sentence_segment (join [SPACE] (sentence_segment text))
  = sentence_segment text
  ∧ ∀ text', words text' = words text →
             sentence_segment text' = sentence_segment text.
Proof.
  split.
  - rewrite sentence_segment_join.
    rewrite (sentence_segment_split (normalize text)), normalize_idemp.
    by rewrite <- sentence_segment_split.
  - intros text' Hw.
    rewrite (sentence_segment_split text'), (sentence_segment_split text).
    by rewrite !normalize_words, Hw.
Qed.

(** ** The rows of a run, in detail *)

Lemma make_row_fields si sent d t :
  row_sid (make_row si sent d t) = si
  ∧ row_sent (make_row si sent d t) = sent
  ∧ row_lemma (make_row si sent d t) = lemmatize_token (tok_of t) d
  ∧ row_pos (make_row si sent d t) = pos_of t
  ∧ row_src (make_row si sent d t) = src_of t.
Proof. by destruct t as [[tok pos] src]. Qed.

Lemma run_sentences_indexed sents : ∀ si d mode path w res w',
  run_sentences si sents d mode path w = Some (res, w') →
  length res = length sents
  ∧ ∀ i rows, res !! i = Some rows →
      ∃ sent ts, sents !! i = Some sent
                 ∧ rows = make_row (si + i) sent d <$> ts
                 ∧ tok_of <$> ts = tokenize sent.
Proof.
  induction sents as [|sent rest IH]; intros si d mode path w res w' H.
  { injection H as <- <-. split; [done|]. by intros i rows. }
  pose proof H as Hrows. apply run_sentences_rows in Hrows.
  simpl in H. apply bind_Some in H as (ts & w1 & Htag & H).
  apply bind_Some in H as (results & w2 & Hrest & H).
  injection H as <- <-.
  destruct (IH _ _ _ _ _ _ _ Hrest) as [Hlen Hidx].
  split; [simpl; by rewrite Hlen|].
  intros [|i] rows Hi.
  - injection Hi as <-. exists sent, ts. rewrite Nat.add_0_r.
    split_and!; try done.
    inversion Hrows as [|???? (si' & ts' & Heq & Htok & _) _]; subst.
    rewrite <- Htok. apply (f_equal (fmap untag)) in Heq.
    rewrite !untag_make_rows in Heq. by subst.
  - simpl in Hi. destruct (Hidx _ _ Hi) as (sent' & ts' & Hs & -> & Htok).
    exists sent', ts'. split_and!; try done.
    by replace (si + S i) with (S si + i) by lia.
Qed.

Lemma rows_tokens d (sents : list str) (res : list (list row)) :
  Forall2 (λ sent rows, ∃ si' ts,
             rows = make_row si' sent d <$> ts
             ∧ tok_of <$> ts = tokenize sent) sents res →
  row_tok <$> concat res = sents ≫= tokenize.
Proof.
  induction 1 as [|sent rows sents res (si & ts & -> & Htok) _ IH]; [done|].
  cbn [concat mbind list_bind]. rewrite fmap_app, IH. f_equal.
  rewrite <- Htok, <- list_fmap_compose. apply list_fmap_ext.
  intros ? t _. apply make_row_tok.
Qed.

(** The result of the pipeline follows the text: one list of rows per
    sentence, in order; in the list of the i-th sentence (counting from
    1) every row carries the number i and the text of that sentence, the
    tokens of the rows are the tokens of the sentence in order, and each
    lemma is the lemma of the row's own token. *)
Theorem pipeline_rows_follow_sentences text d mode path w res w' :
  run_pipeline text d mode path w = Some (res, w') →
  length res = length (sentence_segment text)
  ∧ ∀ i rows, res !! i = Some rows →
      ∃ sent, sentence_segment text !! i = Some sent
              ∧ row_tok <$> rows = tokenize sent
              ∧ Forall (λ r, row_sid r = S i ∧ row_sent r = sent
                             ∧ row_lemma r = lemmatize_token (row_tok r) d)
                       rows.
Proof.
  intros H. apply run_sentences_indexed in H as [Hlen Hidx].
  split; [done|]. intros i rows Hi.
  destruct (Hidx _ _ Hi) as (sent & ts & Hs & -> & Htok).
  exists sent. split_and!; [done| |].
  - rewrite <- Htok, <- list_fmap_compose. apply list_fmap_ext.
    intros ? t _. apply make_row_tok.
  - apply Forall_fmap, Forall_forall. intros [[tok pos] src] _. done.
Qed.

Lemma pipeline_rows_follow_sentences_witness :
  length demo_manual_result.1 = length (sentence_segment demo_manual_text)
  ∧ ∀ i rows, demo_manual_result.1 !! i = Some rows →
      ∃ sent, sentence_segment demo_manual_text !! i = Some sent
              ∧ row_tok <$> rows = tokenize sent
              ∧ Forall (λ r, row_sid r = S i ∧ row_sent r = sent
                             ∧ row_lemma r = lemmatize_token (row_tok r) ∅)
                       rows.
Proof.
  apply (pipeline_rows_follow_sentences demo_manual_text ∅ (lit "manual")
           demo_store demo_manual_world _ _ demo_manual_run).
Defined.

(** End to end, nothing but white space is lost and nothing is added: the
    tokens of the rows, in document order, are the tokens of the whole
    text, and put end to end they are the characters of the text that are
    not white space. *)
Theorem pipeline_tokens_cover_text text d mode path w res w' :
  run_pipeline text d mode path w = Some (res, w') →
  row_tok <$> concat res = tokenize text
  ∧ concat (row_tok <$> concat res) = List.filter non_space text.
Proof.
  intros H. apply run_sentences_rows in H.
  assert (row_tok <$> concat res = tokenize text) as Htok.
  { rewrite <- segment_tokens. apply (rows_tokens d).
    eapply Forall2_impl; [done|].
    intros sent rows (si & ts & ? & ? & _). by exists si, ts. }
  split; [done|]. by rewrite Htok, tokenize_concat.
Qed.

Lemma pipeline_tokens_cover_text_witness :
  row_tok <$> concat demo_manual_result.1 = tokenize demo_manual_text
  ∧ concat (row_tok <$> concat demo_manual_result.1)
    = List.filter non_space demo_manual_text.
Proof.
  apply (pipeline_tokens_cover_text demo_manual_text ∅ (lit "manual")
           demo_store demo_manual_world _ _ demo_manual_run).
Defined.

Lemma run_sentences_heuristic sents : ∀ si d mode path w,
  mode ≠ lit "manual" →
  run_sentences si sents d mode path w
  = Some (heuristic_rows si sents d, w).
Proof.
  induction sents as [|sent rest IH]; intros si d mode path w Hm; [done|].
  simpl. rewrite bool_decide_eq_false_2 by done.
  unfold bind, ret. by rewrite IH.
Qed.

(** Any mode other than the string manual runs the heuristic tagger.  Such
    a run always returns, leaves the files, the console input and the log
    as they were, and its rows depend on the text and the dictionary only,
    not on the store path or on anything in the world. *)
Theorem heuristic_run_is_pure text d :
  ∃ res,
    (∀ mode path w, mode ≠ lit "manual" →
       run_pipeline text d mode path w = Some (res, w))
    ∧ (∀ r, r ∈ concat res →
         row_pos r = heuristic_pos (row_tok r)
         ∧ row_src r = lit "heuristic").
Proof.
  exists (heuristic_rows 1 (sentence_segment text) d). split.
  - intros mode path w Hm. by apply run_sentences_heuristic.
  - intros r Hr.
    pose proof (run_sentences_heuristic (sentence_segment text) 1 d
                  (lit "heuristic") [] (World ∅ [] [])) as H.
    destruct (run_rows_made text d (lit "heuristic") [] (World ∅ [] [])
                _ _ r (H ltac:(done)) Hr) as (si & sent & t & -> & _ & Ht).
    rewrite (Ht ltac:(done)). by destruct t as [[tok pos] src].
Qed.

(** ** Manual tagging: console input, files and the keys of the cache *)

Lemma load_events_replies fs path : replies_of (load_events fs path) = [].
Proof. unfold load_events. by case_bool_decide. Qed.

Lemma manual_pos_tag_io toks path w out w' :
  object_or_unreadable (files w) path →
  manual_pos_tag toks path w = Some (out, w') →
  ∃ evs c1,
    events w' = events w ++ evs
    ∧ stdin w = replies_of evs ++ stdin w'
    ∧ length (replies_of evs) ≤ length toks
    ∧ files w' = <[path := Json c1]> (files w)
    ∧ dom c1 = dom (cache_of (files w) path) ∪ forms toks.
Proof.
  intros Hobj H. rewrite (manual_pos_tag_dict _ _ _ Hobj) in H.
  set (e0 := load_events (files w) path) in *.
  apply bind_Some in H as ([stored' out'] & w2 & Hloop & H).
  pose proof (tag_loop_spec _ _ _ _ _ _ _ Hloop) as (_ & _ & _ & _ & Hf & _).
  apply tag_loop_io in Hloop as (e1 & He & Hi & Hlen & Hd).
  simpl in *. unfold bind, write_file, ret in H. simpl in H.
  injection H as <- <-. simpl.
  exists (e0 ++ e1 ++ [Wrote path (Json stored')]), stored'.
  unfold e0. rewrite !replies_of_app, load_events_replies. simpl.
  rewrite app_nil_r.
  split_and!; try done.
  - by rewrite He, <- !app_assoc.
  - by rewrite Hf.
Qed.

Lemma manual_pos_tag_total toks path w :
  object_or_unreadable (files w) path →
  length toks ≤ length (stdin w) → is_Some (manual_pos_tag toks path w).
Proof.
  intros Hobj Hlen. rewrite (manual_pos_tag_dict _ _ _ Hobj).
  destruct (tag_loop_total toks (cache_of (files w) path) []
              (World (files w) (stdin w)
                     (events w ++ load_events (files w) path)) Hlen)
    as [[[stored' out'] w2] Hloop].
  unfold bind at 1. rewrite Hloop. by eexists.
Qed.

Lemma object_after_write (fs : gmap str file) path c :
  object_or_unreadable (<[path := Json c]> fs) path.
Proof. intros v. by rewrite lookup_insert_eq. Qed.

Lemma run_sentences_manual_io sents : ∀ si d path w res w',
  object_or_unreadable (files w) path →
  run_sentences si sents d (lit "manual") path w = Some (res, w') →
  ∃ evs,
    events w' = events w ++ evs
    ∧ stdin w = replies_of evs ++ stdin w'
    ∧ (∀ p, p ≠ path → files w' !! p = files w !! p)
    ∧ dom (cache_of (files w') path)
      = dom (cache_of (files w) path) ∪ forms (sents ≫= tokenize).
Proof.
  induction sents as [|sent rest IH]; intros si d path w res w' Hobj H.
  { injection H as <- <-. exists []. rewrite app_nil_r.
    split_and!; try done. symmetry. apply (right_id_L ∅ (∪)). }
  simpl in H. apply bind_Some in H as (ts & w1 & Htag & H).
  apply bind_Some in H as (results & w2 & Hrest & H).
  injection H as <- <-.
  apply manual_pos_tag_io in Htag as (e1 & c1 & He1 & Hi1 & _ & Hf1 & Hd1);
    [|done].
  assert (cache_of (files w1) path = c1) as Hcache.
  { unfold cache_of. by rewrite Hf1, lookup_insert_eq. }
  apply IH in Hrest as (e2 & He2 & Hi2 & Hfr & Hd2);
    [|rewrite Hf1; apply object_after_write].
  exists (e1 ++ e2). split_and!.
  - by rewrite He2, He1, <- app_assoc.
  - by rewrite replies_of_app, Hi1, Hi2, <- app_assoc.
  - intros p Hp. rewrite (Hfr p Hp), Hf1. by rewrite lookup_insert_ne.
  - rewrite Hd2, Hcache, Hd1. cbn [mbind list_bind].
    by rewrite forms_app, (assoc_L (∪)).
Qed.

(** A run that returns on a text with a sentence found a cache file that
    is absent, an object or unreadable; a run on a text without sentences
    does nothing. *)
Lemma run_manual_cases text d path w res w' :
  run_pipeline text d (lit "manual") path w = Some (res, w') →
  (sentence_segment text = [] ∧ res = [] ∧ w' = w)
  ∨ (sentence_segment text ≠ [] ∧ object_or_unreadable (files w) path).
Proof.
  unfold run_pipeline. intros H.
  pose proof (sentences_have_tokens text) as Hall.
  destruct (sentence_segment text) as [|sent rest].
  { left. by injection H as <- <-. }
  right. split; [done|]. apply Forall_cons in Hall as [Hsent _].
  simpl in H. apply bind_Some in H as (ts & w1 & Htag & _).
  by apply (manual_pos_tag_returns _ _ _ _ _ Htag).
Qed.

Lemma run_manual_io text d path w res w' :
  run_pipeline text d (lit "manual") path w = Some (res, w') →
  ∃ evs,
    events w' = events w ++ evs
    ∧ stdin w = replies_of evs ++ stdin w'
    ∧ (∀ p, p ≠ path → files w' !! p = files w !! p)
    ∧ dom (cache_of (files w') path)
      = dom (cache_of (files w) path) ∪ forms (tokenize text).
Proof.
  intros H. rewrite <- segment_tokens.
  destruct (run_manual_cases _ _ _ _ _ _ H) as [(Hs & -> & ->)|[_ Hobj]].
  - exists []. rewrite Hs, app_nil_r. split_and!; try done.
    symmetry. apply (right_id_L ∅ (∪)).
  - exact (run_sentences_manual_io _ _ _ _ _ _ _ Hobj H).
Qed.

Lemma run_manual_total sents : ∀ si d path w,
  object_or_unreadable (files w) path →
  length (sents ≫= tokenize) ≤ length (stdin w) →
  is_Some (run_sentences si sents d (lit "manual") path w).
Proof.
  induction sents as [|sent rest IH]; intros si d path w Hobj Hlen.
  { by eexists. }
  cbn [mbind list_bind] in Hlen. rewrite length_app in Hlen.
  destruct (manual_pos_tag_total (tokenize sent) path w Hobj)
    as [[ts w1] Htag]; [lia|].
  pose proof (manual_pos_tag_io _ _ _ _ _ Hobj Htag)
    as (e1 & c1 & _ & Hi1 & Hl1 & Hf1 & _).
  apply (f_equal length) in Hi1. rewrite length_app in Hi1.
  destruct (IH (S si) d path w1) as [[results w2] Hrest];
    [rewrite Hf1; apply object_after_write|lia|].
  cbn [run_sentences]. rewrite bool_decide_eq_true_2 by done.
  unfold bind at 1. rewrite Htag. unfold bind at 1. rewrite Hrest.
  by eexists.
Qed.

(** With at least as many lines of console input as the text has tokens,
    a run in manual mode returns, provided the cache file is absent, holds
    a JSON object of strings or is not a JSON document: the tagger never
    asks more than once per token.  On a cache file holding a JSON
    document of another shape, a run on a text with a sentence raises. *)
Theorem manual_run_returns text d path w :
  (object_or_unreadable (files w) path →
   length (tokenize text) ≤ length (stdin w) →
   ∃ res w', run_pipeline text d (lit "manual") path w = Some (res, w'))
  ∧ (∀ v, files w !! path = Some (Other v) →
          forallb is_space text = false →
          run_pipeline text d (lit "manual") path w = None).
Proof.
  split.
  - intros Hobj Hlen. rewrite <- segment_tokens in Hlen.
    destruct (run_manual_total (sentence_segment text) 1 d path w Hobj Hlen)
      as [[res w'] H].
    by exists res, w'.
  - intros v Hv Htext.
    destruct (run_pipeline text d (lit "manual") path w) as [[res w']|] eqn:H;
      [|done].
    destruct (run_manual_cases _ _ _ _ _ _ H) as [(Hs & _)|[_ Hobj]].
    + rewrite sentence_segment_split in Hs.
      case_bool_decide as Hn.
      * apply normalize_nil_iff in Hn. congruence.
      * destruct (normalize text) as [|c s]; [done|].
        cbn [split_at_boundaries] in Hs.
        destruct (boundary None (c :: s)); [done|].
        by destruct (split_at_boundaries (Some c) s).
    + by destruct (Hobj v).
Qed.

Lemma manual_run_returns_witness :
  ∃ res w',
    run_pipeline (lit "Dogs bark.") ∅ (lit "manual") demo_store
                 (World ∅ [lit "noun"; lit "verb"; lit "unused"] [])
    = Some (res, w').
Proof.
  apply (manual_run_returns (lit "Dogs bark.") ∅ demo_store
           (World ∅ [lit "noun"; lit "verb"; lit "unused"] [])).
  - intros v. cbn [files]. by rewrite lookup_empty.
  - vm_compute. lia.
Defined.

(** A run in manual mode reads the console only to answer its prompts:
    the lines it consumed are exactly the replies its log shows, in the
    order of the prompts, and the rest of the input is left unread. *)
Theorem manual_run_consumes_replies text d path w res w' :
  run_pipeline text d (lit "manual") path w = Some (res, w') →
  ∃ evs, events w' = events w ++ evs
         ∧ stdin w = replies_of evs ++ stdin w'.
Proof.
  intros H. apply run_manual_io in H as (evs & He & Hi & _).
  by exists evs.
Qed.

Lemma manual_run_consumes_replies_witness :
  ∃ evs, events demo_manual_result.2 = events demo_manual_world ++ evs
         ∧ stdin demo_manual_world
           = replies_of evs ++ stdin demo_manual_result.2.
Proof.
  apply (manual_run_consumes_replies demo_manual_text ∅ demo_store
           demo_manual_world _ _ demo_manual_run).
Defined.

(** A run in manual mode touches no file but the cache file, and the keys
    of the cache it leaves are exactly the keys it found together with
    the lowercased forms of the tokens of the text: nothing is removed
    and nothing else is added. *)
Theorem manual_run_cache_keys text d path w res w' :
  run_pipeline text d (lit "manual") path w = Some (res, w') →
  (∀ p, p ≠ path → files w' !! p = files w !! p)
  ∧ dom (cache_of (files w') path)
    = dom (cache_of (files w) path) ∪ forms (tokenize text).
Proof.
  intros H. apply run_manual_io in H as (evs & _ & _ & Hfr & Hd).
  by split.
Qed.

Lemma manual_run_cache_keys_witness :
  (∀ p, p ≠ demo_store →
        files demo_manual_result.2 !! p = files demo_manual_world !! p)
  ∧ dom (cache_of (files demo_manual_result.2) demo_store)
    = dom (cache_of (files demo_manual_world) demo_store)
      ∪ forms (tokenize demo_manual_text).
Proof.
  apply (manual_run_cache_keys demo_manual_text ∅ demo_store
           demo_manual_world _ _ demo_manual_run).
Defined.

(** ** Letter case does not matter *)



Lemma word_lower c : is_word (lower_char c) = is_word c.
Proof. each_char c; reflexivity. Qed.

Lemma space_lower c : is_space (lower_char c) = is_space c.
Proof. each_char c; reflexivity. Qed.




Lemma forallb_lower p s :
  (∀ c, p (lower_char c) = p c) → forallb p (lower s) = forallb p s.
Proof.
  intros Hp. induction s as [|c s IH]; [done|]. simpl.
  rewrite Hp. fold (lower s). by rewrite IH.
Qed.


Lemma fullmatch_lower (re : regex) s :
  re None (lower s) = re None s →
  fullmatch re (lower s) = fullmatch re s.
Proof. intros H. unfold fullmatch. by rewrite H, length_lower. Qed.

Lemma punct_lower tok :
  fullmatch RE_PUNCT (lower tok) = fullmatch RE_PUNCT tok.
Proof.
  apply fullmatch_lower. unfold RE_PUNCT.
  destruct tok as [|c tok]; [done|]. simpl.
  by rewrite word_lower, space_lower.
Qed.



(** ** The tags of tokens *)











(** ** Lemma dictionary: composing and looking up *)

Lemma load_lines_app lemma l1 l2 :
  load_lines lemma (l1 ++ l2) = load_lines (load_lines lemma l1) l2.
Proof.
  revert lemma. induction l1 as [|line l1 IH]; intros lemma; [done|].
  cbn [app]. by rewrite !load_lines_step, IH.
Qed.

(** Loading a file in two parts: the entries of the second part override
    those of the first, and nothing else depends on the order. *)
Theorem load_lemma_dict_app l1 l2 :
  load_lemma_dict (l1 ++ l2) = load_lemma_dict l2 ∪ load_lemma_dict l1.
Proof.
  unfold load_lemma_dict. rewrite load_lines_app, !load_lines_union.
  by rewrite !(right_id_L ∅ (∪)).
Qed.

Lemma line_entry_lowercase line w l :
  line_entry line = Some (w, l) → lower w = w ∧ lower l = l.
Proof.
  unfold line_entry. destruct (forallb is_space line); [done|].
  destruct (head_in _ line); [done|].
  destruct (first_separator line) as [i|]; [|done]. simpl.
  intros [= <- <-]. by rewrite !lower_idemp.
Qed.

Lemma load_lines_lowercase lines : ∀ lemma,
  map_Forall (λ k v, lower k = k ∧ lower v = v) lemma →
  map_Forall (λ k v, lower k = k ∧ lower v = v) (load_lines lemma lines).
Proof.
  induction lines as [|line rest IH]; intros lemma Hm; [done|].
  rewrite load_lines_step. apply IH.
  destruct (line_entry (strip line)) as [[w l]|] eqn:E; [|done].
  apply map_Forall_insert_2; [|done]. by eapply line_entry_lowercase.
Qed.

(** Every word and every lemma of a loaded dictionary is lowercase. *)
Theorem load_lemma_dict_lowercase lines :
  map_Forall (λ k v, lower k = k ∧ lower v = v) (load_lemma_dict lines).
Proof. apply load_lines_lowercase, map_Forall_empty. Qed.

Lemma rstrip_app_keep a b :
  forallb is_space b = false → rstrip (a ++ b) = a ++ rstrip b.
Proof.
  intros Hb. induction a as [|x a IH]; [done|].
  cbn [app]. rewrite rstrip_cons, IH.
  assert (forallb is_space (x :: a ++ b) = false) as ->; [|done].
  simpl. rewrite forallb_app, Hb. by rewrite andb_false_r, andb_false_r.
Qed.

Lemma lstrip_non_space s : head_in non_space s = true → lstrip s = s.
Proof.
  destruct s as [|c s]; [done|]. unfold non_space. simpl.
  by destruct (is_space c).
Qed.

Lemma index_of_app_first c a b :
  c ∉ a → index_of c (a ++ c :: b) = Some (length a).
Proof.
  intros Hc. unfold index_of.
  assert (list_find (λ x, x = c) (a ++ c :: b) = Some (length a, c)) as ->;
    [|done].
  apply list_find_Some. split_and!; [|done|].
  - by rewrite lookup_app_r, Nat.sub_diag.
  - intros j y Hj Hlt <-. rewrite lookup_app_l in Hj by done.
    apply Hc. by eapply list_elem_of_lookup_2.
Qed.

Lemma non_space_not_in c (w : str) :
  is_space c = true → forallb non_space w = true → c ∉ w.
Proof.
  intros Hc Hw Hin. rewrite forallb_forall in Hw.
  apply list_elem_of_In in Hin. specialize (Hw c Hin).
  unfold non_space in Hw. by rewrite Hc in Hw.
Qed.

Lemma dataset_line_entry w sep l :
  w ≠ [] → forallb non_space w = true →
  head_in (λ c, bool_decide (c = "#"%char)) w = false →
  forallb is_space l = false →
  sep = TAB ∨ (sep = SPACE ∧ TAB ∉ l) →
  line_entry (strip (dataset_line w sep l))
  = Some (lower w, lower (rstrip l)).
Proof.
  intros Hne Hw Hhash Hl Hsep. unfold dataset_line, strip.
  assert (is_space sep = true) as Hsp by (by destruct Hsep as [->|[-> _]]).
  rewrite lstrip_non_space.
  2: { destruct w as [|c w]; [done|]. simpl in *.
       by apply andb_true_iff in Hw as [? _]. }
  rewrite rstrip_app_keep.
  2: { simpl. by rewrite Hl, andb_false_r. }
  rewrite rstrip_cons. simpl forallb. rewrite Hl, andb_false_r.
  assert (forallb is_space (rstrip l) = false) as Hrl.
  { destruct (forallb is_space (rstrip l)) eqn:E; [|done].
    destruct (decide (rstrip l = [])) as [E0|E0].
    - unfold rstrip in E0. apply (f_equal (@rev ascii)) in E0.
      rewrite rev_involutive in E0. simpl in E0.
      apply lstrip_nil_iff in E0. rewrite forallb_rev in E0. congruence.
    - unfold rstrip in *. destruct (lstrip (rev l)) as [|c t] eqn:El; [done|].
      apply lstrip_head in El. simpl in E. rewrite forallb_app in E.
      simpl in E. rewrite El in E. by rewrite andb_false_r in E. }
  unfold line_entry.
  assert (forallb is_space (w ++ sep :: rstrip l) = false) as ->.
  { rewrite forallb_app. simpl. by rewrite Hrl, !andb_false_r. }
  assert (head_in (λ c, bool_decide (c = "#"%char)) (w ++ sep :: rstrip l)
          = false) as ->.
  { by destruct w. }
  assert (first_separator (w ++ sep :: rstrip l) = Some (length w)) as ->.
  { unfold first_separator. destruct Hsep as [->|[-> Htab]].
    - rewrite index_of_app_first; [done|]. by apply non_space_not_in.
    - assert (index_of TAB (w ++ SPACE :: rstrip l) = None) as ->.
      { unfold index_of.
        assert (list_find (λ x, x = TAB) (w ++ SPACE :: rstrip l) = None)
          as ->; [|done].
        apply list_find_None, Forall_forall. intros x Hx ->.
        apply elem_of_app in Hx as [Hx|Hx].
        - by apply (non_space_not_in TAB w).
        - apply elem_of_cons in Hx as [?|Hx]; [done|]. apply Htab.
          destruct (strip_decompose l) as (a & b & Hdec & _).
          unfold rstrip in Hx.
          apply list_elem_of_In, in_rev, list_elem_of_In in Hx.
          destruct (lstrip_suffix (rev l)) as (ws & Hrl' & _).
          apply list_elem_of_In, in_rev. rewrite Hrl'.
          apply in_or_app. right. by apply list_elem_of_In. }
      rewrite index_of_app_first; [done|]. by apply non_space_not_in. }
  cbn [mbind option_bind]. rewrite take_app_length.
  change (w ++ sep :: rstrip l) with (w ++ [sep] ++ rstrip l).
  rewrite (assoc_L (++) w), drop_app_length'; [done|].
  rewrite length_app. simpl. lia.
Qed.

(** A dataset line decides the lemma of its word.  When the last line of
    the file is a word without white space that does not start with [#],
    then a tab (or a space, if no tab follows), then a lemma, every token
    that lowercases to the lowercased word gets the lowercased lemma,
    stripped on the right only: the line overrides earlier lines, the
    fallback dictionary and the suffix rules. *)
Theorem dataset_line_sets_lemma lines w sep l tok :
  w ≠ [] → forallb non_space w = true →
  head_in (λ c, bool_decide (c = "#"%char)) w = false →
  forallb is_space l = false →
  sep = TAB ∨ (sep = SPACE ∧ TAB ∉ l) →
  lower tok = lower w →
  lemmatize_token tok (load_lemma_dict (lines ++ [dataset_line w sep l]))
  = lower (rstrip l).
Proof.
  intros Hne Hw Hhash Hl Hsep Htok.
  unfold load_lemma_dict. rewrite load_lines_app, load_lines_step.
  rewrite (dataset_line_entry _ _ _ Hne Hw Hhash Hl Hsep).
  cbn [load_lines]. unfold lemmatize_token.
  by rewrite Htok, lookup_insert_eq.
Qed.

Lemma dataset_line_sets_lemma_witness :
  lemmatize_token (lit "Running")
    (load_lemma_dict [lit "# verbs";
                      dataset_line (lit "running") TAB
                                   (lit " Runs" ++ [NEWLINE])])
  = lower (rstrip (lit " Runs" ++ [NEWLINE])).
Proof.
  apply (dataset_line_sets_lemma [lit "# verbs"] (lit "running") TAB
           (lit " Runs" ++ [NEWLINE]) (lit "Running"));
    try done.
  by left.
Defined.

Lemma fallback_lowercase :
  map_Forall (λ _ v, lower v = v) FALLBACK_LEMMA_DICT.
Proof.
  intros k v H. unfold FALLBACK_LEMMA_DICT in H.
  apply elem_of_list_to_map_2, list_elem_of_In in H. simpl in H.
  repeat destruct H as [H|H]; try (injection H as <- <-; reflexivity).
  done.
Qed.

Lemma lower_app a b : lower (a ++ b) = lower a ++ lower b.
Proof. apply fmap_app. Qed.

Lemma lower_take n s : lower (take n s) = take n (lower s).
Proof. apply fmap_take. Qed.

Lemma suffix_rule_cases (P : suffix_rule → Prop) key r :
  find (rule_applies key) SUFFIX_RULES = Some r →
  P (SuffixRule (lit "ies") 3 None (lit "y")) →
  P (SuffixRule (lit "ing") 5 None []) →
  P (SuffixRule (lit "ed") 4 None []) →
  P (SuffixRule (lit "s") 3 (Some (lit "ss")) []) →
  P r ∧ rule_longer_than r < length key.
Proof.
  intros Hf P1 P2 P3 P4. apply find_some in Hf as [Hin Happ].
  split.
  - simpl in Hin. by destruct Hin as [<-|[<-|[<-|[<-|[]]]]].
  - unfold rule_applies in Happ.
    apply andb_true_iff in Happ as [[_ Hlt]%andb_true_iff _].
    by apply Nat.ltb_lt.
Qed.

(** A lemma is lowercase whenever the dictionary's lemmas are, as those of
    a loaded dictionary and of no dictionary at all are. *)
Theorem lemma_is_lowercase tok lines :
  lower (lemmatize_token tok (load_lemma_dict lines))
  = lemmatize_token tok (load_lemma_dict lines).
Proof.
  rewrite lemmatize_token_spec. unfold lemmatize_spec.
  destruct (load_lemma_dict lines !! lower tok) as [l|] eqn:Ed.
  { by apply (load_lines_lowercase lines ∅ (map_Forall_empty _)) in Ed
      as [_ ?]. }
  destruct (FALLBACK_LEMMA_DICT !! lower tok) as [l|] eqn:Ef.
  { by apply fallback_lowercase in Ef. }
  destruct (purely_alphabetic tok); [|apply lower_idemp].
  destruct (find _ SUFFIX_RULES) as [r|] eqn:E; [|apply lower_idemp].
  apply (suffix_rule_cases
           (λ r, lower (rule_result (lower tok) r)
                 = rule_result (lower tok) r)) in E as [E _]; try done;
    unfold rule_result; cbn [rule_suffix rule_replacement];
    by rewrite lower_app, lower_take, lower_idemp.
Qed.




(** ** Segmenter: a text without sentence ends *)

Lemma words_concat s : concat (words s) = List.filter non_space s.
Proof.
  induction s as [|c s IH]; [done|].
  destruct (is_space c) eqn:Hc.
  { rewrite (words_cons_space _ _ Hc). simpl. unfold non_space at 1.
    by rewrite Hc. }
  rewrite (words_cons_nonspace _ _ Hc). simpl List.filter.
  unfold non_space at 2. rewrite Hc. simpl negb. cbv iota.
  rewrite <- IH. destruct (head_in non_space s); [|done].
  by destruct (words s).
Qed.

Lemma elem_of_join_space c (ls : list str) :
  c ∈ join [SPACE] ls → c = SPACE ∨ c ∈ concat ls.
Proof.
  induction ls as [|l ls IH]; [by intros ?%elem_of_nil|].
  destruct ls as [|l' ls'].
  { simpl. rewrite app_nil_r. by right. }
  rewrite join_cons by done. cbn [concat]. intros H.
  apply elem_of_app in H as [H|H].
  { right. apply elem_of_app. by left. }
  cbn [app] in H. apply elem_of_cons in H as [->|H]; [by left|].
  destruct (IH H) as [?|?]; [by left|]. right. apply elem_of_app. by right.
Qed.

Lemma elem_of_normalize c text :
  c ∈ normalize text → c = SPACE ∨ c ∈ text.
Proof.
  rewrite normalize_words. intros [?|H]%elem_of_join_space; [by left|].
  right. rewrite words_concat in H.
  apply list_elem_of_In, filter_In in H as [H _]. by apply list_elem_of_In.
Qed.

Lemma split_no_sentence_end s : ∀ prev,
  (∀ p, prev = Some p → is_sentence_end p = false) →
  (∀ c, c ∈ s → is_sentence_end c = false) →
  split_at_boundaries prev s = [s].
Proof.
  induction s as [|c s IH]; intros prev Hprev Hs; [done|].
  cbn [split_at_boundaries].
  assert (boundary prev (c :: s) = false) as ->.
  { unfold boundary. destruct prev as [p|]; [|done].
    by rewrite (Hprev p eq_refl). }
  rewrite IH; [done| |].
  - intros p [= <-]. apply Hs. by left.
  - intros x Hx. apply Hs. by right.
Qed.

(** A text with no [.], [!] or [?] in it, and not blank, is one sentence:
    its normalised text. *)
Theorem text_without_sentence_end text :
  (∀ c, c ∈ text → is_sentence_end c = false) →
  forallb is_space text = false →
  sentence_segment text = [normalize text].
Proof.
  intros Hend Hblank. rewrite sentence_segment_split.
  rewrite bool_decide_eq_false_2.
  2: { intros Hn. apply normalize_nil_iff in Hn. congruence. }
  apply split_no_sentence_end; [done|].
  intros c [->|Hc]%elem_of_normalize; [done|by apply Hend].
Qed.

Lemma text_without_sentence_end_witness :
  sentence_segment (lit "  no  end here ")
  = [normalize (lit "  no  end here ")].
Proof.
  apply (text_without_sentence_end (lit "  no  end here ")); [|done].
  intros c Hc. apply list_elem_of_In in Hc. simpl in Hc.
  repeat destruct Hc as [<-|Hc]; try done.
Defined.

(** ** Punctuation in the two taggers *)

Lemma heuristic_punct_iff tok :
  heuristic_pos tok = lit "PUNCT" ↔ fullmatch RE_PUNCT tok = true.
Proof.
  unfold heuristic_pos. destruct (fullmatch RE_PUNCT tok); [done|].
  split; [|done].
  repeat match goal with
         | |- context [if ?b then _ else _] => destruct b
         end; intros H; vm_compute in H; discriminate.
Qed.

(** ** A cache file that cannot be read *)




(** ** The report *)



Lemma count_app c a b : count c (a ++ b) = count c a + count c b.
Proof. unfold count. by rewrite List.filter_app, length_app. Qed.

Lemma count_absent c s : c ∉ s → count c s = 0.
Proof.
  unfold count. induction s as [|x s IH]; [done|]. intros H. simpl.
  rewrite bool_decide_eq_false_2.
  - apply IH. intros Hin. apply H. by right.
  - intros ->. apply H. by left.
Qed.

Lemma valid_pos_no_space c pos :
  is_space c = true → pos ∈ VALID_POS → c ∉ pos.
Proof.
  intros Hc Hpos. apply non_space_not_in; [done|].
  apply list_elem_of_In in Hpos. simpl in Hpos.
  repeat destruct Hpos as [<-|Hpos]; try reflexivity. done.
Qed.

Lemma fallback_no_space :
  map_Forall (λ _ v, forallb non_space v = true) FALLBACK_LEMMA_DICT.
Proof.
  intros k v H. unfold FALLBACK_LEMMA_DICT in H.
  apply elem_of_list_to_map_2, list_elem_of_In in H. simpl in H.
  repeat destruct H as [H|H]; try (injection H as <- <-; reflexivity).
  done.
Qed.

Lemma non_space_lower s :
  forallb non_space (lower s) = forallb non_space s.
Proof.
  apply forallb_lower. intros c. unfold non_space. by rewrite space_lower.
Qed.

Lemma forallb_take {A} (p : A → bool) n l :
  forallb p l = true → forallb p (take n l) = true.
Proof.
  revert n. induction l as [|a l IH]; intros [|n]; try done. simpl.
  intros [Ha Hl]%andb_true_iff. by rewrite Ha, IH.
Qed.

(** The lemma of a token has no white space character that the
    dictionary's lemmas do not have. *)
Lemma lemmatize_avoids c tok d :
  is_space c = true → forallb non_space tok = true →
  map_Forall (λ _ v, c ∉ v) d →
  c ∉ lemmatize_token tok d.
Proof.
  intros Hc Htok Hd. rewrite lemmatize_token_spec. unfold lemmatize_spec.
  assert (forallb non_space (lower tok) = true) as Hkey.
  { by rewrite non_space_lower. }
  destruct (d !! lower tok) as [l|] eqn:Ed; [by apply Hd in Ed|].
  destruct (FALLBACK_LEMMA_DICT !! lower tok) as [l|] eqn:Ef.
  { apply fallback_no_space in Ef. by apply non_space_not_in. }
  destruct (purely_alphabetic tok); [|by apply non_space_not_in].
  destruct (find _ SUFFIX_RULES) as [r|] eqn:E; [|by apply non_space_not_in].
  apply non_space_not_in; [done|].
  apply (suffix_rule_cases
           (λ r, forallb non_space (rule_result (lower tok) r) = true))
    in E as [E _]; try done;
    unfold rule_result; cbn [rule_suffix rule_replacement];
    rewrite forallb_app, forallb_take by done; done.
Qed.

Lemma run_tokens text d mode path w res w' :
  run_pipeline text d mode path w = Some (res, w') →
  row_tok <$> concat res = tokenize text.
Proof.
  intros H. apply run_sentences_rows in H.
  rewrite <- segment_tokens. apply (rows_tokens d).
  eapply Forall2_impl; [done|].
  intros sent rows (si & ts & ? & ? & _). by exists si, ts.
Qed.

(** The rows of the report are well formed.  When the dictionary's lemmas
    contain no tab and no newline (and, in manual mode, the cache file
    held tags of the tag set only), the line of every row has exactly
    three tabs, hence four fields, and no newline in it. *)
Theorem report_rows_have_four_fields text d mode path w res w' :
  run_pipeline text d mode path w = Some (res, w') →
  (mode = lit "manual" → valid_cache (cache_of (files w) path)) →
  map_Forall (λ _ v, (TAB ∉ v) ∧ (NEWLINE ∉ v)) d →
  ∀ r, r ∈ concat res →
       count TAB (tsv_row r) = 3 ∧ (NEWLINE ∉ tsv_row r).
Proof.
  intros H Hvalid Hd r Hr.
  assert (row_pos r ∈ VALID_POS) as Hpos.
  { destruct (decide (mode = lit "manual")) as [->|Hm].
    - pose proof (run_manual_spec _ _ _ _ _ _ H)
        as (evs & _ & _ & _ & Hc & Hv & _).
      apply (Hv (Hvalid eq_refl) (lower (row_tok r))).
      apply (coh_tag _ _ _ _ Hc (untag r)).
      apply list_elem_of_fmap. by exists r.
    - destruct (run_rows_made _ _ _ _ _ _ _ _ H Hr)
        as (si & sent & t & -> & _ & Ht).
      rewrite (Ht Hm). apply heuristic_pos_valid. }
  assert (forallb non_space (row_tok r) = true) as Htok.
  { assert (row_tok r ∈ tokenize text) as Hin.
    { rewrite <- (run_tokens _ _ _ _ _ _ _ H).
      apply list_elem_of_fmap. by exists r. }
    by apply token_non_space in Hin as [_ ?]. }
  assert (row_lemma r = lemmatize_token (row_tok r) d) as Hlem.
  { destruct (run_rows_made _ _ _ _ _ _ _ _ H Hr)
      as (si & sent & [[tok pos] src] & -> & _). done. }
  assert (∀ c, is_space c = true → map_Forall (λ _ v, c ∉ v) d →
               (c ∉ row_tok r) ∧ (c ∉ row_pos r) ∧ (c ∉ row_lemma r)
               ∧ (c ∉ show_bool (row_removed r))) as Hfree.
  { intros c Hc Hdc. split_and!.
    - by apply non_space_not_in.
    - by apply valid_pos_no_space.
    - rewrite Hlem. by apply lemmatize_avoids.
    - apply non_space_not_in; [done|]. by destruct (row_removed r). }
  destruct (Hfree TAB eq_refl) as (T1 & T2 & T3 & T4).
  { intros k v Hk. by apply Hd in Hk as [? _]. }
  destruct (Hfree NEWLINE eq_refl) as (N1 & N2 & N3 & N4).
  { intros k v Hk. by apply Hd in Hk as [_ ?]. }
  unfold tsv_row, tab. split.
  - rewrite !count_app.
    rewrite (count_absent TAB (row_tok r)), (count_absent TAB (row_pos r)),
      (count_absent TAB (row_lemma r)),
      (count_absent TAB (show_bool (row_removed r))) by done.
    reflexivity.
  - rewrite !elem_of_app, !list_elem_of_singleton.
    intros [?|[?|[?|[?|[?|[?|?]]]]]]; done.
Qed.

Lemma report_rows_have_four_fields_witness :
  Forall (λ r, count TAB (tsv_row r) = 3 ∧ (NEWLINE ∉ tsv_row r))
         (concat demo_manual_result.1).
Proof.
  apply Forall_forall.
  apply (report_rows_have_four_fields demo_manual_text ∅ (lit "manual")
           demo_store demo_manual_world _ _ demo_manual_run).
  - intros _ k v. unfold cache_of, demo_manual_world. simpl.
    rewrite lookup_singleton_eq.
    intros [<- <-]%lookup_singleton_Some.
    apply list_elem_of_In. vm_compute. tauto.
  - apply map_Forall_empty.
Defined.

(** ** Tokens, once more: the statements for the tokenizer's users *)

(** A token is never empty, never contains white space, and is one token
    when tokenized alone. *)
Theorem tokens_are_atoms s tok :
  tok ∈ tokenize s →
  tok ≠ [] ∧ forallb non_space tok = true ∧ tokenize tok = [tok].
Proof.
  intros H. destruct (token_non_space _ _ H) as [Hne Hall].
  split_and!; [done..|]. by eapply token_alone.
Qed.

Lemma tokens_are_atoms_witness :
  lit "don't" ≠ [] ∧ forallb non_space (lit "don't") = true
  ∧ tokenize (lit "don't") = [lit "don't"].
Proof.
  apply (tokens_are_atoms (lit "So don't, ok?")).
  apply list_elem_of_In. vm_compute. tauto.
Defined.

(** Tokenizing loses white space and nothing else: the tokens, put end to
    end, are the characters of the text that are not white space, in
    order.  So a text has no token exactly when it is empty or all white
    space. *)
Theorem tokens_concat s :
  concat (tokenize s) = List.filter non_space s
  ∧ (tokenize s = [] ↔ forallb is_space s = true).
Proof.
  split; [apply tokenize_concat|]. split.
  - intros H. pose proof (tokenize_concat s) as Hc. rewrite H in Hc.
    simpl in Hc. clear H. induction s as [|c s IH]; [done|].
    simpl in *. unfold non_space in Hc at 1.
    destruct (is_space c); simpl in *; [by apply IH|done].
  - intros H. destruct (tokenize s) as [|t ts] eqn:E; [done|]. exfalso.
    assert (has_non_space s → False) as Hno.
    { intros (c & Hc & Hsp). rewrite forallb_forall in H.
      apply list_elem_of_In in Hc. specialize (H c Hc). congruence. }
    apply Hno. destruct (token_non_space s t) as [Hne Hall].
    { rewrite E. by left. }
    destruct t as [|c t]; [done|]. exists c. split.
    + assert (c ∈ concat (tokenize s)) as Hin.
      { rewrite E. simpl. by left. }
      rewrite tokenize_concat in Hin.
      apply list_elem_of_In, filter_In in Hin as [Hin _].
      by apply list_elem_of_In.
    + simpl in Hall. apply andb_true_iff in Hall as [Hc _].
      unfold non_space in Hc. by destruct (is_space c).
Qed.

(** White space separates tokens and does nothing else: the tokens of a
    text are the tokens of its words, word after word; normalising the
    text first does not change them; and a text with a white space
    character in it is tokenized as the part before it followed by the
    part after it. *)
Theorem tokens_of_words s :
  tokenize s = words s ≫= tokenize
  ∧ tokenize (normalize s) = tokenize s
  ∧ ∀ a c b, is_space c = true →
             tokenize (a ++ c :: b) = tokenize a ++ tokenize b.
Proof.
  split_and!.
  - apply tokenize_words.
  - apply tokenize_normalize.
  - intros a c b Hc. by apply tokenize_at_space.
Qed.

Lemma filter_join_space (ls : list str) :
  List.filter non_space (join [SPACE] ls)
  = List.filter non_space (concat ls).
Proof.
  induction ls as [|l ls IH]; [done|].
  destruct ls as [|l' ls'].
  { simpl. by rewrite app_nil_r. }
  rewrite join_cons by done.
  change (concat (l :: l' :: ls')) with (l ++ concat (l' :: ls')).
  rewrite !List.filter_app, IH. reflexivity.
Qed.

(** Segmenting neither loses nor invents tokens or characters: the tokens
    of the sentences, sentence after sentence, are the tokens of the
    whole text, and the sentences hold the characters of the text that
    are not white space, in order. *)
Theorem sentences_keep_tokens text :
  sentence_segment text ≫= tokenize = tokenize text
  ∧ List.filter non_space (concat (sentence_segment text))
    = List.filter non_space text.
Proof.
  split; [apply segment_tokens|].
  rewrite <- filter_join_space, sentence_segment_join, normalize_words.
  rewrite filter_join_space, words_concat.
  apply filter_all_true. clear.
  induction text as [|c s IH]; [done|]. simpl.
  destruct (non_space c) eqn:E; [|done]. simpl. by rewrite E, IH.
Qed.

(** ** The console summary of [main] *)

Lemma summary_lines_indexed results : ∀ si d,
  (∀ i rows, results !! i = Some rows →
     rows ≠ [] ∧ ∃ sent ts, rows = make_row (si + i) sent d <$> ts) →
  ∃ lines,
    summary_lines results = Some lines
    ∧ length lines = length results
    ∧ ∀ i rows, results !! i = Some rows →
        lines !! i
        = Some (lit "Sentence " ++ lit (pretty (si + i))
                  ++ lit " kept lemmas: "
                  ++ join (lit " ") (row_lemma <$> List.filter is_kept rows)).
Proof.
  induction results as [|rows results IH]; intros si d Hrows.
  { exists []. split_and!; try done. }
  destruct (Hrows 0 rows eq_refl) as [Hne (sent & ts & Hmk)].
  destruct (IH (S si) d) as (more & Hmore & Hlen & Hidx).
  { intros i rows' Hi. destruct (Hrows (S i) rows' Hi) as [? (s' & t' & ?)].
    split; [done|]. exists s', t'. by replace (S si + i) with (si + S i) by lia. }
  assert (List.filter (λ r, negb (row_removed r)) rows
          = List.filter is_kept rows) as Hfilter.
  { rewrite Hmk. clear. induction ts as [|[[tok pos] src] ts IH]; [done|].
    rewrite fmap_cons. simpl. unfold is_kept at 1. simpl.
    rewrite negb_orb. by rewrite IH. }
  destruct rows as [|first rows']; [done|].
  assert (row_sid first = si) as Hsid.
  { destruct ts as [|t ts]; [done|]. injection Hmk as -> _.
    by destruct t as [[??]?]. }
  cbn [summary_lines]. rewrite Hmore, Hfilter, Hsid.
  eexists. split_and!; [done|by simpl; rewrite Hlen|].
  intros [|i] rows Hi.
  - injection Hi as <-. rewrite Nat.add_0_r. reflexivity.
  - simpl in Hi. rewrite lookup_cons, (Hidx i rows Hi).
    by replace (si + S i) with (S si + i) by lia.
Qed.

(** The summary of a pipeline run never fails and has one line per
    sentence: the line of the i-th sentence (counting from 1) names i and
    lists, in order, the lemmas of that sentence's rows whose token is
    not a stop word and whose tag is not PUNCT. *)
Theorem summary_of_a_run text d mode path w res w' :
  run_pipeline text d mode path w = Some (res, w') →
  ∃ lines,
    summary_lines res = Some lines
    ∧ length lines = length (sentence_segment text)
    ∧ ∀ i rows, res !! i = Some rows →
        lines !! i
        = Some (lit "Sentence " ++ lit (pretty (S i)) ++ lit " kept lemmas: "
                  ++ join (lit " ") (row_lemma <$> List.filter is_kept rows)).
Proof.
  intros H. pose proof (run_sentences_indexed _ _ _ _ _ _ _ _ H) as [Hlen Hidx].
  destruct (summary_lines_indexed res 1 d) as (lines & Hs & Hl & Hi).
  { intros i rows Hr. destruct (Hidx i rows Hr) as (sent & ts & Hs & -> & Ht).
    split; [|by exists sent, ts].
    intros E. apply fmap_nil_inv in E. subst ts.
    apply list_elem_of_lookup_2, sentence_has_non_space,
      tokenize_non_empty in Hs. by rewrite <- Ht in Hs. }
  exists lines. split_and!; [done|by rewrite Hl|done].
Qed.

Lemma summary_of_a_run_witness :
  ∃ lines,
    summary_lines demo_manual_result.1 = Some lines
    ∧ length lines = length (sentence_segment demo_manual_text)
    ∧ ∀ i rows, demo_manual_result.1 !! i = Some rows →
        lines !! i
        = Some (lit "Sentence " ++ lit (pretty (S i)) ++ lit " kept lemmas: "
                  ++ join (lit " ") (row_lemma <$> List.filter is_kept rows)).
Proof.
  apply (summary_of_a_run demo_manual_text ∅ (lit "manual") demo_store
           demo_manual_world _ _ demo_manual_run).
Defined.

(** ** Which forms the user is asked about *)

Lemma elem_of_forms_cons key tok rest :
  key ∈ forms (tok :: rest) ↔ key = lower tok ∨ key ∈ forms rest.
Proof. by rewrite forms_cons, elem_of_union, elem_of_singleton. Qed.

Lemma asked_cons_known stored tok rest key tag :
  stored !! lower tok = Some tag →
  asked stored (tok :: rest) key = asked stored rest key.
Proof.
  intros E. unfold asked. destruct (decide (key = lower tok)) as [->|Hk].
  - rewrite (bool_decide_eq_false_2 (stored !! lower tok = None))
      by congruence.
    by rewrite !andb_false_r.
  - f_equal. f_equal. apply bool_decide_ext.
    rewrite elem_of_forms_cons. tauto.
Qed.

Lemma asked_cons_punct stored tok rest key v :
  fullmatch RE_PUNCT tok = true →
  asked stored (tok :: rest) key = asked (<[lower tok := v]> stored) rest key.
Proof.
  intros Ep. unfold asked. destruct (decide (key = lower tok)) as [->|Hk].
  - rewrite punct_lower, Ep. by rewrite !andb_false_r.
  - rewrite lookup_insert_ne by done. f_equal. f_equal.
    apply bool_decide_ext. rewrite elem_of_forms_cons. tauto.
Qed.

Lemma asked_cons_prompt stored tok rest key v :
  stored !! lower tok = None → fullmatch RE_PUNCT tok = false →
  (if bool_decide (lower tok = key) then 1 else 0)
  + (if asked (<[lower tok := v]> stored) rest key then 1 else 0)
  = if asked stored (tok :: rest) key then 1 else 0.
Proof.
  intros E Ep. unfold asked. destruct (decide (key = lower tok)) as [->|Hk].
  - rewrite bool_decide_eq_true_2 by done.
    rewrite lookup_insert_eq, punct_lower, Ep.
    rewrite (bool_decide_eq_false_2 (Some v = None)) by done.
    rewrite (bool_decide_eq_true_2 (lower tok ∈ forms (tok :: rest)))
      by (apply elem_of_forms_cons; by left).
    rewrite (bool_decide_eq_true_2 (stored !! lower tok = None)) by done.
    by rewrite andb_false_r.
  - rewrite bool_decide_eq_false_2 by congruence.
    rewrite lookup_insert_ne by done.
    rewrite (bool_decide_ext (key ∈ forms (tok :: rest)) (key ∈ forms rest));
      [done|].
    rewrite elem_of_forms_cons. tauto.
Qed.

Lemma asked_app c0 c1 toks1 toks2 key :
  dom c1 = dom c0 ∪ forms toks1 →
  (if asked c0 toks1 key then 1 else 0)
  + (if asked c1 toks2 key then 1 else 0)
  = if asked c0 (toks1 ++ toks2) key then 1 else 0.
Proof.
  intros Hd.
  assert (c1 !! key = None ↔ c0 !! key = None ∧ key ∉ forms toks1) as Hc1.
  { rewrite <- !not_elem_of_dom, Hd, not_elem_of_union. done. }
  unfold asked. rewrite forms_app.
  destruct (fullmatch RE_PUNCT key); [by rewrite !andb_false_r|].
  rewrite !andb_true_r.
  repeat case_bool_decide; simpl; try done; exfalso;
    rewrite ?elem_of_union in *; tauto.
Qed.

Lemma prompt_count_cons_prompt key tok reply evs :
  prompt_count key (Prompted tok reply :: evs)
  = (if bool_decide (lower tok = key) then 1 else 0) + prompt_count key evs.
Proof. unfold prompt_count. simpl. by case_bool_decide. Qed.

Lemma asked_nil c0 key : asked c0 [] key = false.
Proof.
  unfold asked. rewrite forms_nil.
  by rewrite (bool_decide_eq_false_2 (key ∈ (∅ : gset str))).
Qed.

Lemma tag_loop_asked toks : ∀ stored out w stored' out' w',
  tag_loop toks stored out w = Some (stored', out', w') →
  ∃ evs,
    events w' = events w ++ evs
    ∧ (∀ key, prompt_count key evs = if asked stored toks key then 1 else 0)
    ∧ (∀ key, key ∈ forms toks → stored !! key = None →
              fullmatch RE_PUNCT key = true →
              stored' !! key = Some (lit "PUNCT")).
Proof.
  induction toks as [|tok rest IH]; intros stored out w stored' out' w' H.
  { injection H as <- <- <-. exists []. rewrite app_nil_r.
    split_and!; [done| |].
    - intros key. by rewrite asked_nil.
    - intros key Hin. rewrite forms_nil in Hin. by apply elem_of_empty in Hin. }
  destruct (stored !! lower tok) as [tag|] eqn:E.
  { rewrite (tag_loop_cached _ _ _ _ _ E) in H.
    destruct (IH _ _ _ _ _ _ H) as (evs & He & Hn & Hp).
    exists evs. split_and!; [done| |].
    - intros key. by rewrite (asked_cons_known _ _ _ _ _ E).
    - intros key [->|Hin]%elem_of_forms_cons Hnone Hpk; [congruence|].
      by apply Hp. }
  destruct (fullmatch RE_PUNCT tok) eqn:Ep.
  { rewrite (tag_loop_punct _ _ _ _ E Ep) in H.
    pose proof (tag_loop_spec _ _ _ _ _ _ _ H)
      as (new & evs0 & _ & _ & _ & _ & _ & _ & Hc & _).
    destruct (IH _ _ _ _ _ _ H) as (evs & He & Hn & Hp).
    exists evs. split_and!; [done| |].
    - intros key. by rewrite (asked_cons_punct _ _ _ _ (lit "PUNCT") Ep).
    - intros key Hin Hnone Hpk.
      destruct (decide (key = lower tok)) as [->|Hk].
      + eapply lookup_weaken; [apply lookup_insert_eq|apply Hc].
      + apply elem_of_forms_cons in Hin as [?|Hin]; [done|].
        apply Hp; try done. by rewrite lookup_insert_ne. }
  destruct (stdin w) as [|reply more] eqn:Ei.
  { by rewrite (tag_loop_eof _ _ _ _ _ E Ep Ei) in H. }
  rewrite (tag_loop_prompt _ _ _ _ _ _ _ E Ep Ei) in H.
  destruct (IH _ _ _ _ _ _ H) as (evs & He & Hn & Hp). simpl in He.
  exists (Prompted tok reply :: evs). split_and!.
  - by rewrite He, <- app_assoc.
  - intros key. rewrite prompt_count_cons_prompt, Hn.
    by apply asked_cons_prompt.
  - intros key Hin Hnone Hpk.
    destruct (decide (key = lower tok)) as [->|Hk].
    + rewrite punct_lower in Hpk. congruence.
    + apply elem_of_forms_cons in Hin as [?|Hin]; [done|].
      apply Hp; try done. by rewrite lookup_insert_ne.
Qed.

Lemma manual_pos_tag_asked toks path w out w' :
  manual_pos_tag toks path w = Some (out, w') → toks ≠ [] →
  ∃ evs,
    events w' = events w ++ evs
    ∧ (∀ key, prompt_count key evs
              = if asked (cache_of (files w) path) toks key then 1 else 0)
    ∧ (∀ key, key ∈ forms toks → cache_of (files w) path !! key = None →
              fullmatch RE_PUNCT key = true →
              cache_of (files w') path !! key = Some (lit "PUNCT")).
Proof.
  intros H Hne.
  pose proof (manual_pos_tag_returns _ _ _ _ _ H Hne) as Hobj.
  rewrite (manual_pos_tag_dict _ _ _ Hobj) in H.
  destruct (load_events_counts (files w) path) as (_ & _ & Hp0).
  set (e0 := load_events (files w) path) in *.
  apply bind_Some in H as ([stored' out'] & w2 & Hloop & H).
  apply tag_loop_asked in Hloop as (e1 & He & Hn & Hp).
  simpl in *. unfold bind, write_file, ret in H. simpl in H.
  injection H as <- <-. simpl.
  exists (e0 ++ e1 ++ [Wrote path (Json stored')]). split_and!.
  - by rewrite He, <- !app_assoc.
  - intros key. rewrite !prompt_count_app, Hn.
    rewrite (prompt_count_zero _ e0)
      by (intros ?? Hi; by destruct (Hp0 _ _ Hi)).
    change (prompt_count key [Wrote path (Json stored')]) with 0. lia.
  - intros key Hin Hnone Hpk. unfold cache_of at 1.
    rewrite lookup_insert_eq. by apply Hp.
Qed.

Lemma run_sentences_manual_asked sents : ∀ si d path w res w',
  Forall (λ sent, tokenize sent ≠ []) sents →
  run_sentences si sents d (lit "manual") path w = Some (res, w') →
  ∃ evs,
    events w' = events w ++ evs
    ∧ (∀ key, prompt_count key evs
              = if asked (cache_of (files w) path) (sents ≫= tokenize) key
                then 1 else 0)
    ∧ (∀ key, key ∈ forms (sents ≫= tokenize) →
              cache_of (files w) path !! key = None →
              fullmatch RE_PUNCT key = true →
              cache_of (files w') path !! key = Some (lit "PUNCT")).
Proof.
  induction sents as [|sent rest IH]; intros si d path w res w' Hall H.
  { injection H as <- <-. exists []. rewrite app_nil_r.
    split_and!; [done| |].
    - intros key. by rewrite asked_nil.
    - intros key Hin. cbn [mbind list_bind] in Hin. rewrite forms_nil in Hin.
      by apply elem_of_empty in Hin. }
  apply Forall_cons in Hall as [Hsent Hall].
  simpl in H. apply bind_Some in H as (ts & w1 & Htag & H).
  apply bind_Some in H as (results & w2 & Hrest & H).
  injection H as <- <-.
  pose proof (manual_pos_tag_log _ _ _ _ _ Htag Hsent)
    as (p1 & c1 & _ & _ & Hf1 & _ & Hd1 & _).
  assert (cache_of (files w1) path = c1) as Hcache.
  { unfold cache_of. by rewrite Hf1, lookup_insert_eq. }
  apply manual_pos_tag_asked in Htag as (e1 & He1 & Hn1 & Hp1); [|done].
  pose proof (run_sentences_manual_spec _ _ _ _ _ _ _ Hall Hrest)
    as (evs2 & _ & _ & _ & Hc2 & _).
  apply IH in Hrest as (e2 & He2 & Hn2 & Hp2); [|done].
  rewrite Hcache in Hn2, Hp2, Hc2, Hp1.
  exists (e1 ++ e2). split_and!.
  - by rewrite He2, He1, <- app_assoc.
  - intros key. rewrite prompt_count_app, Hn1, Hn2. cbn [mbind list_bind].
    by apply asked_app.
  - intros key Hin Hnone Hpk. cbn [mbind list_bind] in Hin.
    rewrite forms_app, elem_of_union in Hin.
    destruct (decide (key ∈ forms (tokenize sent))) as [Hk|Hk].
    + eapply lookup_weaken; [by apply Hp1|apply Hc2].
    + destruct Hin as [?|Hin]; [done|]. apply Hp2; try done.
      apply not_elem_of_dom. rewrite Hd1, not_elem_of_union.
      split; [by apply not_elem_of_dom|done].
Qed.

(** In manual mode the user is asked exactly once about every lowercased
    form of a token of the text that the cache file does not hold and that
    is not a single punctuation character, and about nothing else.  The
    punctuation characters are the tokens the heuristic tagger calls
    PUNCT: a row whose token is one of them, and not in the cache file,
    is tagged PUNCT without a prompt, and so is removed. *)
Theorem manual_run_asks_new_forms_once text d path w res w' :
  run_pipeline text d (lit "manual") path w = Some (res, w') →
  ∃ evs,
    events w' = events w ++ evs
    ∧ (∀ key, prompt_count key evs
              = if asked (cache_of (files w) path) (tokenize text) key
                then 1 else 0)
    ∧ (∀ tok, fullmatch RE_PUNCT (lower tok) = true
              ↔ heuristic_pos tok = lit "PUNCT")
    ∧ (∀ r, r ∈ concat res →
            heuristic_pos (row_tok r) = lit "PUNCT" →
            cache_of (files w) path !! lower (row_tok r) = None →
            row_pos r = lit "PUNCT" ∧ row_removed r = true).
Proof.
  intros H.
  pose proof (run_sentences_manual_asked _ _ _ _ _ _ _
                (sentences_have_tokens text) H) as (evs & He & Hn & Hp).
  rewrite segment_tokens in Hn, Hp.
  exists evs. split_and!; try done.
  - intros tok. by rewrite punct_lower, heuristic_punct_iff.
  - intros r Hr Hpunct Hnone.
    assert (row_pos r = lit "PUNCT") as Hpos.
    { pose proof (run_manual_spec _ _ _ _ _ _ H)
        as (evs' & _ & _ & _ & Hc & _).
      assert (cache_of (files w') path !! lower (row_tok r)
              = Some (row_pos r)) as Hkept.
      { apply (coh_tag _ _ _ _ Hc (untag r)).
        apply list_elem_of_fmap. by exists r. }
      rewrite (Hp (lower (row_tok r))) in Hkept.
      - by injection Hkept.
      - apply elem_of_list_to_set, list_elem_of_fmap.
        exists (row_tok r). split; [done|].
        rewrite <- (run_tokens _ _ _ _ _ _ _ H).
        apply list_elem_of_fmap. by exists r.
      - done.
      - rewrite punct_lower. by apply heuristic_punct_iff. }
    split; [done|].
    destruct (run_rows_made _ _ _ _ _ _ _ _ H Hr) as (si & sent & t & -> & _).
    rewrite make_row_removed. destruct t as [[tok pos] src].
    simpl in *. rewrite bool_decide_eq_true_2 by done. apply orb_true_r.
Qed.

Lemma manual_run_asks_new_forms_once_witness :
  ∃ evs,
    events demo_manual_result.2 = events demo_manual_world ++ evs
    ∧ (∀ key, prompt_count key evs
              = if asked (cache_of (files demo_manual_world) demo_store)
                         (tokenize demo_manual_text) key
                then 1 else 0)
    ∧ (∀ tok, fullmatch RE_PUNCT (lower tok) = true
              ↔ heuristic_pos tok = lit "PUNCT")
    ∧ (∀ r, r ∈ concat demo_manual_result.1 →
            heuristic_pos (row_tok r) = lit "PUNCT" →
            cache_of (files demo_manual_world) demo_store
              !! lower (row_tok r) = None →
            row_pos r = lit "PUNCT" ∧ row_removed r = true).
Proof.
  apply (manual_run_asks_new_forms_once demo_manual_text ∅ demo_store
           demo_manual_world _ _ demo_manual_run).
Defined.
